(** * Content factory: audio synthesis, avatar state machine, frame compositor

  A shallow embedding of the composition pipeline of the content factory
  (the music generator, the Web Audio mixer's export path, the KiarosX
  avatar animation engine, the headless frame generator and the template
  rotation of the caption generator) together with the properties the
  design document states about them and further properties of the code.

  Conventions of the embedding.
  - JavaScript numbers and [Float32Array] elements are idealised as exact
    rationals ([Q]); sample counts, indices and integer fields are [Z] or
    [nat]; bytes are [Z] in [0, 256).  Rounding of IEEE arithmetic is not
    modelled.  [NaN] is modelled where the code can produce it from an
    [undefined] operand, as [None] in [option Q].
  - A call either returns or throws: [outcome].
  - Mutable objects that are shared (sample buffers, the canvas context)
    live in an explicit store that is threaded through the operations. *)

From Stdlib Require Import ZArith QArith Qround Qabs Qminmax Lqa Lia String Ascii.
From stdpp Require Import gmap strings list.

Local Open Scope Q_scope.

(** ** JavaScript values shared by all components *)

Module JS.

(** The error kinds of the design document, the range error that Node's
    [Buffer] writers raise and the type error of reading a property of
    [undefined]. *)
Inductive error : Type :=
| LengthMismatch
| UnknownState
| NotReady
| RangeError
| TypeError.

Inductive outcome (A : Type) : Type :=
| Returns (a : A)
| Throws (e : error).
Arguments Returns {A} a.
Arguments Throws {A} e.

(** [NaN]-propagating arithmetic: [None] is [NaN]. *)
Definition num : Type := option Q.

Definition nmul (x y : num) : num :=
  match x, y with
  | Some a, Some b => Some (a * b)
  | _, _ => None
  end.

Definition nadd (x y : num) : num :=
  match x, y with
  | Some a, Some b => Some (a + b)
  | _, _ => None
  end.

Definition ndiv (x y : num) : num :=
  match x, y with
  | Some a, Some b => Some (a / b)
  | _, _ => None
  end.

(** [Math.max(lo, Math.min(hi, v))] on integers. *)
Definition clampZ (lo hi v : Z) : Z := Z.max lo (Z.min hi v).

(** [Math.max(lo, Math.min(hi, v))] on numbers. *)
Definition clampQ (lo hi v : Q) : Q := Qmax lo (Qmin hi v).

(** Truncation toward zero, the first step of [ToInt16]. *)
Definition Qtrunc (q : Q) : Z := Z.quot (Qnum q) (Z.pos (Qden q)).

(** [x % m] on numbers, for [m > 0]: the remainder has the sign of [x]. *)
Definition Qrem (x m : Q) : Q := x - inject_Z (Qtrunc (x / m)) * m.

(** [a < b] on numbers. *)
Definition Qltb (a b : Q) : bool := negb (Qle_bool b a).

#[global] Instance Q_inhabited : Inhabited Q := populate 0.

#[global] Instance outcome_ret: MRet outcome := fun A a => Returns a.
#[global] Instance outcome_bind : MBind outcome := fun A B f m =>
  match m with
  | Returns a => f a
  | Throws e => Throws e
  end.

#[global] Instance outcome_fmap : FMap outcome := fun A B f m =>
  match m with
  | Returns a => Returns (f a)
  | Throws e => Throws e
  end.

(** *** Byte buffers *)

(** The [width] low-order bytes of [v], least significant first. *)
Definition le_bytes (width : nat) (v : Z) : list Z :=
  (fun k => (v / 256 ^ Z.of_nat k) mod 256)%Z <$> seq 0 width.

(** Character codes of an ASCII string. *)
Definition char_codes (s : string) : list Z :=
  (fun c => Z.of_N (N_of_ascii c)) <$> list_ascii_of_string s.

(** Overwrite [buf] from [offset] on with [bytes]; what does not fit is
    dropped. *)
Definition blit (offset : nat) (bytes buf : list Z) : list Z :=
  take offset buf ++ take (length buf - offset) bytes
  ++ drop (offset + length bytes) buf.

(** Value of two little-endian bytes read as a signed 16-bit integer. *)
Definition int16_of_le (lo hi : Z) : Z :=
  let u := (lo + 256 * hi)%Z in
  if (u <? 32768)%Z then u else (u - 65536)%Z.

End JS.

Export JS.

(** ** The waveform and envelope synthesizer (music generator script) *)

Module Synth.

Definition SAMPLE_RATE : Q := 44100.

(** The body of the [if]/[else if] chain of [applyEnvelope]: the amplitude
    at sample [i]. *)
Definition amp (attackSamples decaySamples sustainSamples releaseSamples : Z)
    (sustain : Q) (i : Z) : Q :=
  if (i <? attackSamples)%Z then
    inject_Z i / inject_Z attackSamples
  else if (i <? attackSamples + decaySamples)%Z then
    1 - (1 - sustain) * inject_Z (i - attackSamples) / inject_Z decaySamples
  else if (i <? attackSamples + decaySamples + sustainSamples)%Z then
    sustain
  else
    sustain * (1 - inject_Z (i - attackSamples - decaySamples - sustainSamples)
                   / inject_Z releaseSamples).

Definition attackSamples_of (attack : Q) : Z := Qfloor (attack * SAMPLE_RATE).
Definition decaySamples_of (decay : Q) : Z := Qfloor (decay * SAMPLE_RATE).
Definition releaseSamples_of (release : Q) : Z := Qfloor (release * SAMPLE_RATE).

(** [sustainSamples = buffer.length - attackSamples - decaySamples - releaseSamples] *)
Definition sustainSamples_of (len : nat) (attack decay release : Q) : Z :=
  (Z.of_nat len - attackSamples_of attack - decaySamples_of decay
   - releaseSamples_of release)%Z.

(** The amplitude that [applyEnvelope] multiplies sample [i] with. *)
Definition envelope_gain (len : nat) (attack decay sustain release : Q) (i : Z) : Q :=
  Qmax 0 (amp (attackSamples_of attack) (decaySamples_of decay)
              (sustainSamples_of len attack decay release)
              (releaseSamples_of release) sustain i).

(** [applyEnvelope(buffer, attack, decay, sustain, release, duration)];
    the [duration] argument is not used by the body. *)
Definition applyEnvelope (buffer : list Q)
    (attack decay sustain release duration : Q) : list Q :=
  imap (fun i x =>
          x * envelope_gain (length buffer) attack decay sustain release (Z.of_nat i))
       buffer.









(** *** [lowpass]: one-pole low-pass filter *)

Section Lowpass.
(** [Math.PI] as a rational approximation. *)
Variable PI : Q.

Definition lowpass_alpha (cutoff sampleRate : Q) : Q :=
  let rc := 1 / (2 * PI * cutoff) in
  let dt := 1 / sampleRate in
  dt / (rc + dt).

(** The loop [result[i] = result[i - 1] + alpha * (buffer[i] - result[i - 1])],
    [prev] being [result[i - 1]]. *)
Fixpoint lowpass_loop (alpha prev : Q) (rest : list Q) : list Q :=
  match rest with
  | [] => []
  | x :: rest' =>
      let y := prev + alpha * (x - prev) in
      y :: lowpass_loop alpha y rest'
  end.

(** [lowpass(buffer, cutoff, sampleRate = SAMPLE_RATE)]; writing
    [result[0]] of an empty result is ignored. *)
Definition lowpass (buffer : list Q) (cutoff sampleRate : Q) : list Q :=
  match buffer with
  | [] => []
  | x0 :: rest => x0 :: lowpass_loop (lowpass_alpha cutoff sampleRate) x0 rest
  end.
End Lowpass.

(** *** [mix]: weighted sum of buffers *)

(** [gains ? gains[i] : 1] *)
Definition gain_at (gains : option (list Q)) (i : nat) : num :=
  match gains with
  | Some g => g !! i
  | None => Some 1
  end.

(** The inner loop: [result[j] += buffers[i][j] * gain] for [j < length];
    [result] has [length] elements, a missing [buffers[i][j]] is
    [undefined] and makes the sum [NaN]. *)
Definition mix_add (buffer : list Q) (gain : num) (result : list num) : list num :=
  imap (fun j r => nadd r (nmul (buffer !! j) gain)) result.

(** The outer loop over the buffers, [i] being the index of the next one. *)
Fixpoint mix_loop (gains : option (list Q)) (i : nat) (buffers : list (list Q))
    (result : list num) : list num :=
  match buffers with
  | [] => result
  | b :: rest => mix_loop gains (S i) rest (mix_add b (gain_at gains i) result)
  end.

(** [mix(buffers, gains = null)]: no statement of the body throws. *)
Definition mix (buffers : list (list Q)) (gains : option (list Q)) : outcome (list num) :=
  match buffers with
  | [] => Returns []
  | b0 :: _ => Returns (mix_loop gains 0 buffers (replicate (length b0) (Some 0)))
  end.

(** What the loops accumulate in [result[j]], starting from [acc], over the
    buffers from index [i] on. *)
Fixpoint mix_sample (gains : option (list Q)) (i : nat) (buffers : list (list Q))
    (acc : num) (j : nat) : num :=
  match buffers with
  | [] => acc
  | b :: rest =>
      mix_sample gains (S i) rest (nadd acc (nmul (b !! j) (gain_at gains i))) j
  end.

(** Sample [j] of the weighted sum, summed in the order of the buffers. *)
Fixpoint weighted_sum (acc : Q) (buffers : list (list Q)) (gains : list Q) (j : nat) : Q :=
  match buffers, gains with
  | b :: bs, g :: gs => weighted_sum (acc + b !!! j * g) bs gs j
  | _, _ => acc
  end.

(** The mixing rule as the design document states it. *)
Definition mix_property : Prop :=
  forall (buffers : list (list Q)) (gains : list Q),
    length gains = length buffers ->
    ((exists a b, a ∈ buffers /\ b ∈ buffers /\ length a <> length b) ->
     mix buffers (Some gains) = Throws LengthMismatch) /\
    (forall n, Forall (fun b => length b = n) buffers -> buffers <> [] ->
     mix buffers (Some gains)
     = Returns ((fun j => Some (weighted_sum 0 buffers gains j)) <$> seq 0 n)).

(** *** [normalize] *)

(** The loop [max = Math.max(max, Math.abs(buffer[i]))], from [max0]. *)
Definition peak_from (max0 : Q) (buffer : list Q) : Q :=
  foldl (fun max x => Qmax max (Qabs x)) max0 buffer.

Definition peak (buffer : list Q) : Q := peak_from 0 buffer.

(** [normalize(buffer, target = 0.95)] *)
Definition normalize (buffer : list Q) (target : Q) : list Q :=
  let max := peak buffer in
  if Qeq_bool max 0 then buffer
  else
    let scale := target / max in
    (fun x => x * scale) <$> buffer.



(** *** [writeWav] *)

(** [buffer.write(string, offset)] *)
Definition write (s : string) (offset : nat) (buffer : list Z) : list Z :=
  blit offset (char_codes s) buffer.

(** Node's integer writers: a value outside the range of the field or a
    field outside the buffer raises a range error. *)
Definition write_int (width : nat) (lo hi : Z) (value : Z) (offset : nat)
    (buffer : list Z) : outcome (list Z) :=
  if ((lo <=? value) && (value <=? hi))%Z && (offset + width <=? length buffer)%nat
  then Returns (blit offset (le_bytes width value) buffer)
  else Throws RangeError.

Definition writeUInt32LE := write_int 4 0 4294967295.
Definition writeUInt16LE := write_int 2 0 65535.

(** [writeInt16LE] of a number that may be [NaN]: [NaN] passes the range
    check and is stored as two zero bytes. *)
Definition writeInt16LE (value : option Z) (offset : nat) (buffer : list Z)
    : outcome (list Z) :=
  match value with
  | Some v => write_int 2 (-32768) 32767 v offset buffer
  | None => write_int 2 (-32768) 32767 0 offset buffer
  end.

(** [Math.max(-32768, Math.min(32767, Math.floor(sample * 32767)))];
    the sample is [undefined] past the end of its channel. *)
Definition quantize (sample : num) : option Z :=
  (fun x => clampZ (-32768) 32767 (Qfloor (x * 32767))) <$> sample.

(** One iteration of the sample loop. *)
Definition write_frame (leftChannel rightChannel : list Q) (buffer : list Z) (i : nat)
    : outcome (list Z) :=
  let left := quantize (leftChannel !! i) in
  let right := quantize (rightChannel !! i) in
  buffer ← writeInt16LE left (44 + i * 4) buffer;
  writeInt16LE right (44 + i * 4 + 2) buffer.

(** [writeWav(leftChannel, rightChannel, sampleRate = SAMPLE_RATE)] *)
Definition writeWav (leftChannel rightChannel : list Q) (sampleRate : Z)
    : outcome (list Z) :=
  let length := length leftChannel in
  let buffer := replicate (44 + length * 4) 0%Z in
  let buffer := write "RIFF" 0 buffer in
  buffer ← writeUInt32LE (36 + Z.of_nat length * 4) 4 buffer;
  let buffer := write "WAVE" 8 buffer in
  let buffer := write "fmt " 12 buffer in
  buffer ← writeUInt32LE 16 16 buffer;
  buffer ← writeUInt16LE 1 20 buffer;
  buffer ← writeUInt16LE 2 22 buffer;
  buffer ← writeUInt32LE sampleRate 24 buffer;
  buffer ← writeUInt32LE (sampleRate * 4) 28 buffer;
  buffer ← writeUInt16LE 4 32 buffer;
  buffer ← writeUInt16LE 16 34 buffer;
  let buffer := write "data" 36 buffer in
  buffer ← writeUInt32LE (Z.of_nat length * 4) 40 buffer;
  foldl (fun acc i => buffer ← acc; write_frame leftChannel rightChannel buffer i)
        (Returns buffer) (seq 0 length).

(** The integer that [writeInt16LE] stores ([NaN] is stored as 0). *)
Definition sample_int (v : option Z) : Z := default 0%Z v.

(** The four bytes of frame [i]. *)
Definition frame_at (leftChannel rightChannel : list Q) (i : nat) : list Z :=
  le_bytes 2 (sample_int (quantize (leftChannel !! i)))
  ++ le_bytes 2 (sample_int (quantize (rightChannel !! i))).

(** The 16-bit value written for an in-range channel sample. *)
Definition pcm16 (x : Q) : Z := clampZ (-32768) 32767 (Qfloor (x * 32767)).

End Synth.

(** ** The canonical PCM container, as the design document describes it *)

Module Wav.

(** The 44-byte header: chunk descriptors, little-endian fields, PCM format
    tag 1, 16 bits per sample. *)
Definition wav_header (channels sampleRate : Z) (frames : nat) : list Z :=
  let blockAlign := (channels * 2)%Z in
  let dataLength := (Z.of_nat frames * blockAlign)%Z in
  char_codes "RIFF" ++ le_bytes 4 (36 + dataLength)
  ++ char_codes "WAVE"
  ++ char_codes "fmt " ++ le_bytes 4 16 ++ le_bytes 2 1 ++ le_bytes 2 channels
  ++ le_bytes 4 sampleRate ++ le_bytes 4 (sampleRate * blockAlign)
  ++ le_bytes 2 blockAlign ++ le_bytes 2 16
  ++ char_codes "data" ++ le_bytes 4 dataLength.

(** One stereo frame: the left sample, then the right sample. *)
Definition stereo_frame (l r : Z) : list Z := le_bytes 2 l ++ le_bytes 2 r.

(** Sample data in interleaved left, right order. *)
Definition interleaved (ls rs : list Z) : list Z :=
  mjoin (zip_with stereo_frame ls rs).

Definition int16 (v : Z) : Prop := (-32768 <= v <= 32767)%Z.

End Wav.

(** ** The audio mixer's export path (browser) *)

Module Mixer.

(** A Web Audio [AudioBuffer]: [numberOfChannels] channels of [length]
    samples each; [channelData] is what [getChannelData] returns. *)
Record AudioBuffer : Type := {
  numberOfChannels : nat;
  sampleRate : Z;
  ab_length : nat;
  channelData : list (list Q)
}.

Definition well_formed (b : AudioBuffer) : Prop :=
  length (channelData b) = numberOfChannels b /\
  Forall (fun ch => length ch = ab_length b) (channelData b).

(** [DataView] setters with [littleEndian = true]: the value is reduced
    modulo the field width; a field outside the view raises a range error. *)
Definition view_set (width : nat) (offset : nat) (value : Z) (view : list Z)
    : outcome (list Z) :=
  if (offset + width <=? length view)%nat
  then Returns (blit offset (le_bytes width value) view)
  else Throws RangeError.

Definition setUint8 := view_set 1.
Definition setUint16 := view_set 2.
Definition setUint32 := view_set 4.

(** [setInt16] of a number: [ToInt16] truncates toward zero ([NaN] becomes 0)
    and reduces modulo 2^16. *)
Definition to_integer (value : num) : Z :=
  match value with
  | Some q => Qtrunc q
  | None => 0%Z
  end.

Definition setInt16 (offset : nat) (value : num) (view : list Z) : outcome (list Z) :=
  view_set 2 offset (to_integer value) view.

(** [_writeString(view, offset, string)] *)
Definition _writeString (view : list Z) (offset : nat) (s : string) : outcome (list Z) :=
  foldl (fun acc '(i, c) => view ← acc; setUint8 (offset + i) c view)
        (Returns view) (imap pair (char_codes s)).

(** [Math.max(-1, Math.min(1, channels[channel][i]))], then
    [sample < 0 ? sample * 0x8000 : sample * 0x7FFF]. *)
Definition scale_sample (x : Q) : Q :=
  let sample := clampQ (-1) 1 x in
  if Qltb sample 0 then sample * 32768 else sample * 32767.

Definition intSample (channels : list (list Q)) (channel i : nat) : num :=
  scale_sample <$> (channels !! channel ≫= fun data => data !! i).

(** The two nested loops; [index] is advanced by 2 after every sample. *)
Definition write_samples (channels : list (list Q)) (numChannels frames : nat)
    (view : list Z) : outcome (list Z) :=
  fst <$>
    foldl (fun acc i =>
             foldl (fun acc channel =>
                      '(view, index) ← acc;
                      view ← setInt16 (44 + index) (intSample channels channel i) view;
                      mret (view, index + 2)%nat)
                   acc (seq 0 numChannels))
          (Returns (view, 0%nat)) (seq 0 frames).

(** [_bufferToWav(buffer)]: the bytes of the returned [audio/wav] blob. *)
Definition _bufferToWav (buffer : AudioBuffer) : outcome (list Z) :=
  let numChannels := numberOfChannels buffer in
  let sampleRate := sampleRate buffer in
  let format := 1%Z in
  let bitDepth := 16%Z in
  let bytesPerSample := (bitDepth / 8)%Z in
  let blockAlign := (Z.of_nat numChannels * bytesPerSample)%Z in
  let dataLength := (Z.of_nat (ab_length buffer) * blockAlign)%Z in
  let bufferLength := (44 + Z.to_nat dataLength)%nat in
  let view := replicate bufferLength 0%Z in
  view ← _writeString view 0 "RIFF";
  view ← setUint32 4 (36 + dataLength) view;
  view ← _writeString view 8 "WAVE";
  view ← _writeString view 12 "fmt ";
  view ← setUint32 16 16 view;
  view ← setUint16 20 format view;
  view ← setUint16 22 (Z.of_nat numChannels) view;
  view ← setUint32 24 sampleRate view;
  view ← setUint32 28 (sampleRate * blockAlign) view;
  view ← setUint16 32 blockAlign view;
  view ← setUint16 34 bitDepth view;
  view ← _writeString view 36 "data";
  view ← setUint32 40 dataLength view;
  write_samples (channelData buffer) numChannels (ab_length buffer) view.

(** The four bytes of frame [i] of a stereo buffer. *)
Definition frame_at (channels : list (list Q)) (i : nat) : list Z :=
  le_bytes 2 (to_integer (intSample channels 0 i))
  ++ le_bytes 2 (to_integer (intSample channels 1 i)).

(** The 16-bit value written for an in-range channel sample. *)
Definition pcm16 (x : Q) : Z := Qtrunc (scale_sample x).

(** Every sample is clamped to [-1, 1] before it is quantized: the written
    bytes are those of the clamped samples.  Stated of both writers. *)
Definition clamped_before_quantization : Prop :=
  (forall (leftChannel rightChannel : list Q) (rate : Z),
     Synth.writeWav leftChannel rightChannel rate
     = Synth.writeWav (clampQ (-1) 1 <$> leftChannel)
                      (clampQ (-1) 1 <$> rightChannel) rate) /\
  (forall b : AudioBuffer,
     _bufferToWav b
     = _bufferToWav {| numberOfChannels := numberOfChannels b;
                       sampleRate := sampleRate b;
                       ab_length := ab_length b;
                       channelData :=
                         (fun data : list Q => clampQ (-1) 1 <$> data)
                         <$> channelData b |}).

(** [_normalizeBuffer]'s scale factor: [0.99 / max] when the peak over all
    channels exceeds 1. *)
Definition normalize_scale (channels : list (list Q)) : option Q :=
  let max := foldl Synth.peak_from 0 channels in
  if Qltb 1 max then Some ((99 # 100) / max) else None.

End Mixer.

(** ** Sample buffers as shared objects *)

Module Store.

(** A store of [Float32Array]s, addressed by reference. *)
Abbreviation ref := nat (only parsing).
Abbreviation store := (gmap nat (list Q)) (only parsing).

(** [new Float32Array(...)], then filled: a reference that is not in use. *)
Definition alloc (samples : list Q) (σ : store) : ref * store :=
  let r := fresh (dom σ) in (r, <[r := samples]> σ).

(** [applyEnvelope]: [result] is a new array, returned. *)
Definition applyEnvelope (buffer : ref) (attack decay sustain release duration : Q)
    (σ : store) : option (ref * store) :=
  samples ← σ !! buffer;
  Some (alloc (Synth.applyEnvelope samples attack decay sustain release duration) σ).

(** [lowpass]: [result] is a new array, returned. *)
Definition lowpass (PI : Q) (buffer : ref) (cutoff sampleRate : Q) (σ : store)
    : option (ref * store) :=
  samples ← σ !! buffer;
  Some (alloc (Synth.lowpass PI samples cutoff sampleRate) σ).

(** [normalize]: [if (max === 0) return buffer;] returns the argument
    itself, otherwise [result] is a new array. *)
Definition normalize (buffer : ref) (target : Q) (σ : store) : option (ref * store) :=
  samples ← σ !! buffer;
  if Qeq_bool (Synth.peak samples) 0 then Some (buffer, σ)
  else Some (alloc (Synth.normalize samples target) σ).

(** [AudioMixer._normalizeBuffer(buffer)]: [data[i] *= scale] on the arrays
    that [getChannelData] returns, the buffer's own channel storage. *)
Definition _normalizeBuffer (channels : list ref) (σ : store) : store :=
  let data := (fun ch => default [] (σ !! ch)) <$> channels in
  match Mixer.normalize_scale data with
  | Some scale =>
      foldl (fun σ ch => alter (fmap (fun x => x * scale)) ch σ) σ channels
  | None => σ
  end.

(** The three synthesizer operations never touch an existing buffer and
    return a buffer that did not exist before. *)
Definition derives_fresh_buffer (op : ref -> store -> option (ref * store)) : Prop :=
  forall (buffer : ref) (σ : store), is_Some (σ !! buffer) ->
    exists r σ', op buffer σ = Some (r, σ') /\
      σ !! r = None /\ is_Some (σ' !! r) /\
      (forall l samples, σ !! l = Some samples -> σ' !! l = Some samples).

(** An operation that may write to the store leaves every buffer as it was. *)
Definition preserves_buffers (op : store -> store) : Prop :=
  forall (σ : store) (l : ref) (samples : list Q),
    σ !! l = Some samples -> op σ !! l = Some samples.

(** The ownership rule as the design document states it: filtering,
    enveloping and normalizing derive a new buffer and mutate none. *)
Definition derived_buffers_are_new : Prop :=
  (forall PI cutoff sampleRate,
     derives_fresh_buffer (fun b => lowpass PI b cutoff sampleRate)) /\
  (forall attack decay sustain release duration,
     derives_fresh_buffer
       (fun b => applyEnvelope b attack decay sustain release duration)) /\
  (forall target, derives_fresh_buffer (fun b => normalize b target)) /\
  (forall channels, preserves_buffers (_normalizeBuffer channels)).

End Store.

(** ** The avatar animation engine ([KiarosXAvatar]) *)

Module Avatar.

(** One entry of [this.states]. *)
Record state_config : Type := {
  rotationSpeed : Q;
  pulseDuration : Q;
  particleCount : nat;
  particleSpeed : Q;
  glowIntensity : Q;
  latticeBrightness : Q;
  energySpikes : bool
}.

Definition idle : state_config :=
  {| rotationSpeed := 5 # 1000; pulseDuration := 4200; particleCount := 12;
     particleSpeed := 3 # 10; glowIntensity := 4 # 10; latticeBrightness := 6 # 10;
     energySpikes := false |}.

Definition talking : state_config :=
  {| rotationSpeed := 15 # 1000; pulseDuration := 1800; particleCount := 20;
     particleSpeed := 8 # 10; glowIntensity := 8 # 10; latticeBrightness := 1;
     energySpikes := false |}.

Definition executing : state_config :=
  {| rotationSpeed := 35 # 1000; pulseDuration := 900; particleCount := 35;
     particleSpeed := 15 # 10; glowIntensity := 1; latticeBrightness := 1;
     energySpikes := true |}.

(** The own properties of the object literal [this.states]. *)
Definition states : gmap string state_config :=
  {[ "idle" := idle; "talking" := talking; "executing" := executing ]}.

(** [this.states] is a plain object: a property that it does not own is
    looked up in [Object.prototype], whose members are functions (and, for
    [__proto__], an object). *)
Definition Object_prototype : list string :=
  [ "constructor"; "__defineGetter__"; "__defineSetter__"; "hasOwnProperty";
    "__lookupGetter__"; "__lookupSetter__"; "isPrototypeOf";
    "propertyIsEnumerable"; "toString"; "valueOf"; "__proto__";
    "toLocaleString" ].

(** A defined value of [this.states[state]]. *)
Inductive property : Type :=
| Config (c : state_config)
| Inherited (name : string).

(** [this.states[state]]; [None] is [undefined]. *)
Definition states_get (state : string) : option property :=
  match states !! state with
  | Some c => Some (Config c)
  | None =>
      if bool_decide (state ∈ Object_prototype) then Some (Inherited state) else None
  end.

(** [config.field] as a number; a member of [Object.prototype] has none of
    the fields, and [undefined] is [NaN] in arithmetic. *)
Definition field (f : state_config -> Q) (p : property) : num :=
  match p with
  | Config c => Some (f c)
  | Inherited _ => None
  end.

Record particle : Type := {
  angle : Q;
  distance : num;
  speed : Q;
  size : Q;
  phase : Q
}.

Record wave : Type := {
  w_radius : Q;
  opacity : Q;
  expansionRate : Q;
  isSpike : bool
}.

(** The fields of the avatar that the state machine reads and writes;
    [draws] counts the calls of [Math.random] so far and [console] collects
    the lines of [console.warn]. *)
Record avatar : Type := {
  currentState : string;
  stateConfig : property;
  pulsePhase : num;
  rotationAngle : num;
  time : Q;
  particles : list particle;
  soundWaves : list wave;
  radius : Q;
  draws : nat;
  console : list string
}.

Definition the_states : list string := ["idle"; "talking"; "executing"].

(** [setState(state)]: no statement of the body throws. *)
Definition setState (state : string) (a : avatar) : outcome avatar :=
  match states_get state with
  | None =>
      Returns {| currentState := currentState a; stateConfig := stateConfig a;
                 pulsePhase := pulsePhase a; rotationAngle := rotationAngle a;
                 time := time a; particles := particles a;
                 soundWaves := soundWaves a; radius := radius a; draws := draws a;
                 console := console a ++ ["Unknown state: " +:+ state] |}
  | Some config =>
      Returns {| currentState := state; stateConfig := config;
                 pulsePhase := Some 0; rotationAngle := rotationAngle a;
                 time := time a; particles := particles a;
                 soundWaves := soundWaves a; radius := radius a; draws := draws a;
                 console := console a |}
  end.

(** [getState()] *)
Definition getState (a : avatar) : string := currentState a.

(** What the caller of [setState] can observe of the avatar. *)
Definition observable (a : avatar) : string * property * num :=
  (currentState a, stateConfig a, pulsePhase a).

Section Animation.
(** [Math.sin], [Math.PI] and the successive results of [Math.random()]. *)
Variable sin : Q -> Q.
Variable PI : Q.
Variable random : nat -> Q.

(** The constructor runs [initParticles] before [updatePosition], when
    [this.radius] is still [undefined]: the initial distances are [NaN]. *)
Definition initParticles (draws0 : nat) : list particle :=
  let maxParticles :=
    Nat.max (particleCount idle)
            (Nat.max (particleCount talking) (particleCount executing)) in
  (fun i : nat =>
     {| angle := PI * 2 * inject_Z (Z.of_nat i) / inject_Z (Z.of_nat maxParticles);
        distance := None;
        speed := (2 # 100) + random (draws0 + 4 * i + 1) * (3 # 100);
        size := 1 + random (draws0 + 4 * i + 2) * 2;
        phase := random (draws0 + 4 * i + 3) * PI * 2 |})
  <$> seq 0 maxParticles.

(** The avatar as the constructor leaves it before the first frame, the
    size of the avatar being 80. *)
Definition new_avatar : avatar :=
  {| currentState := "idle"; stateConfig := Config idle;
     pulsePhase := Some 0; rotationAngle := Some 0; time := 0;
     particles := initParticles 0; soundWaves := [];
     radius := 80 / 2; draws := 4 * 35; console := [] |}.

(** The body of the particle loop. *)
Definition advance (config : state_config) (radius time : Q) (p : particle) : particle :=
  {| angle := angle p + speed p * particleSpeed config;
     distance := Some (radius * ((11 # 10) + sin (time * (1 # 1000) + phase p) * (15 # 100)));
     speed := speed p; size := size p; phase := phase p |}.

(** The particle loop [for (let i = 0; i < activeParticles; i++)]:
    [this.particles[i]] past the end of the array is [undefined] and
    reading its [angle] a type error; with [activeParticles] undefined
    the loop does not run. *)
Definition update_particles (config : property) (radius time : Q)
    (ps : list particle) : outcome (list particle) :=
  match config with
  | Config c =>
      if (particleCount c <=? length ps)%nat
      then Returns (imap (fun i p => if (i <? particleCount c)%nat
                                     then advance c radius time p else p) ps)
      else Throws TypeError
  | Inherited _ => Returns ps
  end.

Definition grow (deltaTime : Q) (w : wave) : wave :=
  {| w_radius := w_radius w + expansionRate w * (deltaTime * (6 # 100));
     opacity := opacity w - (2 # 100) * (deltaTime * (6 # 100));
     expansionRate := expansionRate w; isSpike := isSpike w |}.

Definition has_spikes (config : property) : bool :=
  match config with
  | Config c => energySpikes c
  | Inherited _ => false
  end.

(** [update(deltaTime)] *)
Definition update (deltaTime : Q) (a : avatar) : outcome avatar :=
  let time := time a + deltaTime in
  let config := stateConfig a in
  let rotationAngle :=
    nadd (rotationAngle a)
         (nmul (nmul (field rotationSpeed config) (Some deltaTime)) (Some (6 # 100))) in
  let pulsePhase :=
    nadd (pulsePhase a)
         (nmul (nmul (ndiv (Some deltaTime) (field pulseDuration config)) (Some PI))
               (Some 2)) in
  particles ← update_particles config (radius a) time (particles a);
  let '(soundWaves, draws) :=
    if String.eqb (currentState a) "talking" then
      (if Qltb (random (draws a)) (5 # 100)
       then soundWaves a ++ [{| w_radius := radius a; opacity := 1;
                                expansionRate := 2; isSpike := false |}]
       else soundWaves a,
       S (draws a))
    else (soundWaves a, draws a) in
  let soundWaves := filter (fun w => Qltb 0 (opacity w) = true) (grow deltaTime <$> soundWaves) in
  let '(soundWaves, draws) :=
    if has_spikes config then
      (if Qltb (random draws) (1 # 10)
       then soundWaves ++ [{| w_radius := radius a; opacity := 8 # 10;
                              expansionRate := 4; isSpike := true |}]
       else soundWaves,
       S draws)
    else (soundWaves, draws) in
  Returns {| currentState := currentState a; stateConfig := config;
             pulsePhase := pulsePhase; rotationAngle := rotationAngle;
             time := time; particles := particles; soundWaves := soundWaves;
             radius := radius a; draws := draws; console := console a |}.

End Animation.

(** The rejection rule as the design document states it: any other name
    fails with [UnknownState]; a valid name succeeds. *)
Definition setState_rejects_unknown : Prop :=
  forall (state : string) (a : avatar),
    (state ∉ the_states -> setState state a = Throws UnknownState) /\
    (state ∈ the_states -> exists a', setState state a = Returns a').

(** A rejected call leaves what can be observed of the avatar as it was. *)
Definition unknown_state_changes_nothing : Prop :=
  forall (state : string) (a a' : avatar),
    state ∉ the_states -> setState state a = Returns a' ->
    observable a' = observable a.

End Avatar.

(** ** Strings and arrays of words *)

Module Text.

(** [s.split(sep)] for a one-character separator. *)
Fixpoint split (sep : ascii) (s : string) : list string :=
  match s with
  | EmptyString => [EmptyString]
  | String c rest =>
      let parts := split sep rest in
      if Ascii.eqb c sep then EmptyString :: parts
      else match parts with
           | w :: ws => String c w :: ws
           | [] => [String c EmptyString]
           end
  end.

(** [words.join(sep)] *)
Fixpoint join (sep : string) (words : list string) : string :=
  match words with
  | [] => EmptyString
  | [w] => w
  | w :: rest => w +:+ sep +:+ join sep rest
  end.

(** [words.slice(0, end)]: a negative [end] counts from the end of the array. *)
Definition slice0 {A : Type} (end_ : Z) (words : list A) : list A :=
  if (end_ <? 0)%Z
  then take (Z.to_nat (Z.max (Z.of_nat (length words) + end_) 0)) words
  else take (Z.to_nat end_) words.

Definition space : ascii := " "%char.

End Text.

(** ** The 2D canvas context *)

Module Canvas.

Inductive paint : Type :=
| Color (css : string)
| LinearGradient (x0 y0 x1 y1 : Q) (stops : list (Q * string)).

Inductive segment : Type :=
| MoveTo (x y : Q)
| LineTo (x y : Q)
| Arc (x y r startAngle endAngle : Q)
| Ellipse (x y radiusX radiusY rotation startAngle endAngle : Q).

(** The drawing state that [save] and [restore] stack. *)
Record gstate : Type := {
  fillStyle : paint;
  strokeStyle : paint;
  lineWidth : Q;
  lineJoin : string;
  font : string;
  textAlign : string;
  globalAlpha : Q;
  clip : list (list segment)
}.

Inductive shape : Type :=
| Rect (x y w h : Q)
| Path (segments : list segment)
| Glyphs (text : string) (x y : Q).

Inductive mode : Type := Fill | Stroke.

(** One painting operation, with the drawing state it was painted in. *)
Record painted : Type := {
  how : mode;
  what : shape;
  style : gstate
}.

(** The context of a canvas of [cwidth] by [cheight] pixels: the drawing
    state, the stack of saved states, the current path, and what has been
    painted on the canvas since it was last blank. *)
Record context : Type := {
  cwidth : Z;
  cheight : Z;
  state : gstate;
  stack : list gstate;
  path : list segment;
  drawn : list painted
}.

Definition initial_state : gstate :=
  {| fillStyle := Color "#000000"; strokeStyle := Color "#000000"; lineWidth := 1;
     lineJoin := "miter"; font := "10px sans-serif"; textAlign := "start";
     globalAlpha := 1; clip := [] |}.

(** [createCanvas(width, height).getContext('2d')] *)
Definition createCanvas (width height : Z) : context :=
  {| cwidth := width; cheight := height; state := initial_state; stack := [];
     path := []; drawn := [] |}.

Definition cmd : Type := context -> context.

Definition with_state (f : gstate -> gstate) : cmd := fun ctx =>
  {| cwidth := cwidth ctx; cheight := cheight ctx; state := f (state ctx);
     stack := stack ctx; path := path ctx; drawn := drawn ctx |}.

Definition with_path (f : list segment -> list segment) : cmd := fun ctx =>
  {| cwidth := cwidth ctx; cheight := cheight ctx; state := state ctx;
     stack := stack ctx; path := f (path ctx); drawn := drawn ctx |}.

Definition emit (m : mode) (s : context -> shape) : cmd := fun ctx =>
  {| cwidth := cwidth ctx; cheight := cheight ctx; state := state ctx;
     stack := stack ctx; path := path ctx;
     drawn := drawn ctx ++ [{| how := m; what := s ctx; style := state ctx |}] |}.

Definition set_fillStyle (p : paint) : cmd := with_state (fun g =>
  {| fillStyle := p; strokeStyle := strokeStyle g; lineWidth := lineWidth g;
     lineJoin := lineJoin g; font := font g; textAlign := textAlign g;
     globalAlpha := globalAlpha g; clip := clip g |}).

Definition set_strokeStyle (p : paint) : cmd := with_state (fun g =>
  {| fillStyle := fillStyle g; strokeStyle := p; lineWidth := lineWidth g;
     lineJoin := lineJoin g; font := font g; textAlign := textAlign g;
     globalAlpha := globalAlpha g; clip := clip g |}).

Definition set_lineWidth (w : Q) : cmd := with_state (fun g =>
  {| fillStyle := fillStyle g; strokeStyle := strokeStyle g; lineWidth := w;
     lineJoin := lineJoin g; font := font g; textAlign := textAlign g;
     globalAlpha := globalAlpha g; clip := clip g |}).

Definition set_lineJoin (j : string) : cmd := with_state (fun g =>
  {| fillStyle := fillStyle g; strokeStyle := strokeStyle g; lineWidth := lineWidth g;
     lineJoin := j; font := font g; textAlign := textAlign g;
     globalAlpha := globalAlpha g; clip := clip g |}).

Definition set_font (f : string) : cmd := with_state (fun g =>
  {| fillStyle := fillStyle g; strokeStyle := strokeStyle g; lineWidth := lineWidth g;
     lineJoin := lineJoin g; font := f; textAlign := textAlign g;
     globalAlpha := globalAlpha g; clip := clip g |}).

Definition set_textAlign (a : string) : cmd := with_state (fun g =>
  {| fillStyle := fillStyle g; strokeStyle := strokeStyle g; lineWidth := lineWidth g;
     lineJoin := lineJoin g; font := font g; textAlign := a;
     globalAlpha := globalAlpha g; clip := clip g |}).

(** An alpha outside [0, 1] is ignored. *)
Definition set_globalAlpha (a : Q) : cmd := with_state (fun g =>
  if Qle_bool 0 a && Qle_bool a 1 then
    {| fillStyle := fillStyle g; strokeStyle := strokeStyle g; lineWidth := lineWidth g;
       lineJoin := lineJoin g; font := font g; textAlign := textAlign g;
       globalAlpha := a; clip := clip g |}
  else g).

(** [clearRect]: clearing the whole canvas leaves it blank. *)
Definition clearRect (x y w h : Q) : cmd := fun ctx =>
  if Qeq_bool x 0 && Qeq_bool y 0 && Qeq_bool w (inject_Z (cwidth ctx))
     && Qeq_bool h (inject_Z (cheight ctx))
  then {| cwidth := cwidth ctx; cheight := cheight ctx; state := state ctx;
          stack := stack ctx; path := path ctx; drawn := [] |}
  else emit Fill (fun _ => Rect x y w h)
            (with_state (fun g =>
               {| fillStyle := Color "transparent"; strokeStyle := strokeStyle g;
                  lineWidth := lineWidth g; lineJoin := lineJoin g; font := font g;
                  textAlign := textAlign g; globalAlpha := globalAlpha g;
                  clip := clip g |}) ctx).

Definition fillRect (x y w h : Q) : cmd := emit Fill (fun _ => Rect x y w h).
Definition strokeRect (x y w h : Q) : cmd := emit Stroke (fun _ => Rect x y w h).
Definition fillText (text : string) (x y : Q) : cmd := emit Fill (fun _ => Glyphs text x y).
Definition strokeText (text : string) (x y : Q) : cmd :=
  emit Stroke (fun _ => Glyphs text x y).

Definition beginPath : cmd := with_path (fun _ => []).
Definition moveTo (x y : Q) : cmd := with_path (fun p => p ++ [MoveTo x y]).
Definition lineTo (x y : Q) : cmd := with_path (fun p => p ++ [LineTo x y]).
Definition arc (x y r a0 a1 : Q) : cmd := with_path (fun p => p ++ [Arc x y r a0 a1]).
Definition ellipse (x y rx ry rot a0 a1 : Q) : cmd :=
  with_path (fun p => p ++ [Ellipse x y rx ry rot a0 a1]).
Definition fill : cmd := emit Fill (fun ctx => Path (path ctx)).
Definition stroke : cmd := emit Stroke (fun ctx => Path (path ctx)).

(** [clip()] intersects the clipping region with the current path. *)
Definition clip_path : cmd := fun ctx =>
  with_state (fun g =>
    {| fillStyle := fillStyle g; strokeStyle := strokeStyle g; lineWidth := lineWidth g;
       lineJoin := lineJoin g; font := font g; textAlign := textAlign g;
       globalAlpha := globalAlpha g; clip := path ctx :: clip g |}) ctx.

Definition save : cmd := fun ctx =>
  {| cwidth := cwidth ctx; cheight := cheight ctx; state := state ctx;
     stack := state ctx :: stack ctx; path := path ctx; drawn := drawn ctx |}.

(** [restore()] pops the saved state; the current path is not part of it. *)
Definition restore : cmd := fun ctx =>
  match stack ctx with
  | [] => ctx
  | g :: rest =>
      {| cwidth := cwidth ctx; cheight := cheight ctx; state := g; stack := rest;
         path := path ctx; drawn := drawn ctx |}
  end.

(** Statements in sequence, and a loop over the values of its variable. *)
Definition run (commands : list cmd) : cmd := fun ctx =>
  foldl (fun ctx c => c ctx) ctx commands.

Definition for_each {A : Type} (values : list A) (body : A -> cmd) : cmd := fun ctx =>
  foldl (fun ctx v => body v ctx) ctx values.

(** The values of [for (v = start; v <= stop; v += step)], for [step >= 1]. *)
Definition count_to (start stop step : Z) : list Z :=
  filter (fun v => (v <= stop)%Z)
         ((fun k => (start + Z.of_nat k * step)%Z)
          <$> seq 0 (Z.to_nat (stop - start + 1))).

(** The values of [for (v = start; v < stop; v += step)], for [step >= 1]. *)
Definition count_below (start stop step : Z) : list Z := count_to start (stop - 1) step.


(** A command keeps a projection of the context. *)
Definition keeps {T : Type} (proj : context -> T) (c : cmd) : Prop :=
  forall ctx, proj (c ctx) = proj ctx.

(** Everything but the painted content. *)
Definition shape_of (ctx : context) : Z * Z * gstate * list gstate * list segment :=
  (cwidth ctx, cheight ctx, state ctx, stack ctx, path ctx).



End Canvas.

(** ** The live renderer's caption ([VideoRenderer.drawCaption]) *)

Module Live.
Import Text.

Inductive animation : Type := Typewriter | Fade | NoAnimation.

(** [this.textSpeed = options.textSpeed || 50]: milliseconds per word. *)
Definition textSpeed_option (option : option Q) : Q :=
  match option with
  | Some v => if Qeq_bool v 0 then 50 else v
  | None => 50
  end.

(** [Math.floor(elapsedTime / this.textSpeed)] *)
Definition wordsToShow (elapsedTime textSpeed : Q) : Z :=
  Qfloor (elapsedTime / textSpeed).

(** The words of [textToShow] in typewriter mode. *)
Definition words_shown (caption : string) (elapsedTime textSpeed : Q) : list string :=
  slice0 (wordsToShow elapsedTime textSpeed) (split space caption).

(** The text that [drawCaption(elapsedTime)] wraps and draws; nothing is
    drawn for an empty caption. *)
Definition textToShow (caption : string) (textAnimation : animation)
    (elapsedTime textSpeed : Q) : option string :=
  if String.eqb caption "" then None
  else match textAnimation with
       | Typewriter => Some (join " " (words_shown caption elapsedTime textSpeed))
       | _ => Some caption
       end.

(** Number of visible words at [elapsedTime]. *)
Definition visible (caption : string) (textSpeed : Q) (elapsedTime : Q) : nat :=
  length (words_shown caption elapsedTime textSpeed).

End Live.

(** ** The headless frame generator ([generate-samples-final.js]) *)

Module Batch.
Import Text Canvas.

Inductive background : Type :=
| Gradient (color0 color1 : string)
| DarkPattern
| TechGrid
| OtherBackground (type : string).

Record videoConfig : Type := {
  id : string;
  title : string;
  caption : string;
  bg : background;
  duration : Q
}.

(** [Math.min(Math.floor(frameNum * wordsPerFrame) + 3, words.length)] with
    [wordsPerFrame = words.length / totalFrames]. *)
Definition visibleWordCount (words : list string) (frameNum totalFrames : Q) : Z :=
  let wordsPerFrame := inject_Z (Z.of_nat (length words)) / totalFrames in
  Z.min (Qfloor (frameNum * wordsPerFrame) + 3) (Z.of_nat (length words)).

(** [words.slice(0, visibleWordCount)] *)
Definition visibleWords (caption : string) (frameNum totalFrames : Q) : list string :=
  let words := split space caption in
  slice0 (visibleWordCount words frameNum totalFrames) words.

(** Number of visible words at elapsed time [e] of a video of [d] seconds
    at [fps] frames per second: frame [e * fps] of [d * fps]. *)
Definition visible (caption : string) (fps d : Q) (e : Q) : nat :=
  length (visibleWords caption (e * fps) (d * fps)).

Section Rendering.
(** [Math.sin], [Math.PI], and the width that [measureText] reports for a
    text in a font. *)
Variable sin : Q -> Q.
Variable PI : Q.
Variable measureText : string -> string -> Q.

(** The loop of [wrapText]; [currentLine] is the line being filled. *)
Fixpoint wrap_loop (font : string) (maxWidth : Q) (currentLine : string)
    (words : list string) : list string :=
  match words with
  | [] => [currentLine]
  | word :: rest =>
      let width := measureText font (currentLine +:+ " " +:+ word) in
      if Qltb width maxWidth
      then wrap_loop font maxWidth (currentLine +:+ " " +:+ word) rest
      else currentLine :: wrap_loop font maxWidth word rest
  end.

(** [wrapText(ctx, text, maxWidth)] *)
Definition wrapText (ctx : context) (text : string) (maxWidth : Q) : list string :=
  match split space text with
  | [] => []
  | first :: rest => wrap_loop (font (state ctx)) maxWidth first rest
  end.

(** [drawBackground(ctx, width, height, background, progress)] *)
Definition drawBackground (width height : Z) (background : background)
    (progress : Q) : cmd :=
  let w := inject_Z width in
  let h := inject_Z height in
  match background with
  | Gradient color0 color1 =>
      run [ set_fillStyle (LinearGradient 0 0 0 h [(0, color0); (1, color1)]);
            fillRect 0 0 w h ]
  | DarkPattern =>
      run [ set_fillStyle (Color "#0f0f1a");
            fillRect 0 0 w h;
            set_strokeStyle (Color "rgba(255, 255, 255, 0.05)");
            set_lineWidth 2;
            for_each (seq 0 15) (fun i =>
              let y := Qrem (inject_Z (Z.of_nat i) * 140 + progress * 200) (h + 200) - 100 in
              run [ beginPath; moveTo 0 y; lineTo w (y + 80); stroke ]);
            set_strokeStyle (Color "rgba(79, 70, 229, 0.1)");
            set_lineWidth 3;
            for_each (seq 0 5) (fun i =>
              let i := inject_Z (Z.of_nat i) in
              let x := Qrem (i * 250 + 100) w in
              let y := Qrem (i * 350 + 200) h in
              let size := 50 + sin (progress * PI * 2 + i) * 20 in
              strokeRect (x - size / 2) (y - size / 2) size size) ]
  | TechGrid =>
      let gridSize := 60%Z in
      run [ set_fillStyle (Color "#0a0a12");
            fillRect 0 0 w h;
            set_strokeStyle (Color "rgba(6, 182, 212, 0.15)");
            set_lineWidth 1;
            for_each (count_to 0 width gridSize) (fun x =>
              run [ beginPath; moveTo (inject_Z x) 0; lineTo (inject_Z x) h; stroke ]);
            for_each (count_to 0 height gridSize) (fun y =>
              let offset := Qrem (inject_Z y + progress * inject_Z gridSize) h in
              run [ beginPath; moveTo 0 offset; lineTo w offset; stroke ]);
            set_fillStyle (Color "rgba(6, 182, 212, 0.3)");
            for_each (count_below gridSize width (gridSize * 3)) (fun x =>
              for_each (count_below gridSize height (gridSize * 3)) (fun y =>
                let pulse :=
                  sin (progress * PI * 4 + inject_Z x * (1 # 100) + inject_Z y * (1 # 100))
                  * (1 # 2) + (1 # 2) in
                run [ set_globalAlpha ((2 # 10) + pulse * (3 # 10));
                      beginPath;
                      arc (inject_Z x) (inject_Z y) (4 * pulse) 0 (PI * 2);
                      fill ]));
            set_globalAlpha 1 ]
  | OtherBackground _ => run []
  end.

(** [drawAvatar(ctx, x, y, size, frameNum)] *)
Definition drawAvatar (x y size : Q) (frameNum : Q) : cmd :=
  let talkPhase := sin (frameNum * (3 # 10)) * (1 # 2) + (1 # 2) in
  let pulseSize := sin (frameNum * (15 # 100)) * 3 in
  run [ save;
        beginPath;
        arc (x + size / 2) (y + size / 2) (size / 2) 0 (PI * 2);
        clip_path;
        set_fillStyle (LinearGradient x y x (y + size) [(0, "#4a90d9"); (1, "#2c5aa0")]);
        fillRect x y size size;
        set_fillStyle (Color "#ffffff");
        beginPath;
        arc (x + size * (35 # 100)) (y + size * (35 # 100)) (size * (1 # 10)) 0 (PI * 2);
        arc (x + size * (65 # 100)) (y + size * (35 # 100)) (size * (1 # 10)) 0 (PI * 2);
        fill;
        set_fillStyle (Color "#ffffff");
        beginPath;
        ellipse (x + size * (1 # 2)) (y + size * (65 # 100)) (size * (15 # 100))
                (size * (8 # 100) * talkPhase + 2) 0 0 (PI * 2);
        fill;
        restore;
        set_strokeStyle (Color "#4a90d9");
        set_lineWidth 3;
        beginPath;
        arc (x + size / 2) (y + size / 2) (size / 2 + 5 + pulseSize) 0 (PI * 2);
        stroke ].

(** [drawCaption(ctx, caption, frameNum, totalFrames, width, height)] *)
Definition drawCaption (caption : string) (frameNum totalFrames : Q)
    (width height : Z) : cmd := fun ctx =>
  let maxWidth := 950 in
  let x := inject_Z width / 2 in
  let y := inject_Z height - 350 in
  let lineHeight := 70 in
  let visibleText := join " " (visibleWords caption frameNum totalFrames) in
  let ctx := run [ set_font "bold 52px Arial, sans-serif"; set_textAlign "center" ] ctx in
  let lines := wrapText ctx visibleText maxWidth in
  run [ set_lineWidth 10;
        set_strokeStyle (Color "#000000");
        set_lineJoin "round";
        for_each (imap pair lines) (fun '(i, line) =>
          strokeText line x (y + inject_Z (Z.of_nat i) * lineHeight));
        set_fillStyle (Color "#ffffff");
        for_each (imap pair lines) (fun '(i, line) =>
          fillText line x (y + inject_Z (Z.of_nat i) * lineHeight)) ] ctx.

Definition width : Z := 1080.
Definition height : Z := 1920.
Definition fps : Z := 30.

(** [totalFrames = duration * fps] *)
Definition totalFrames_of (config : videoConfig) : Q := duration config * inject_Z fps.

(** The body of the frame loop up to the canvas being complete. *)
Definition draw_frame (config : videoConfig) (frameNum : nat) : cmd :=
  let totalFrames := totalFrames_of config in
  let n := inject_Z (Z.of_nat frameNum) in
  let progress := n / totalFrames in
  run [ clearRect 0 0 (inject_Z width) (inject_Z height);
        drawBackground width height (bg config) progress;
        drawCaption (caption config) n totalFrames width height;
        drawAvatar (inject_Z width - 120) 40 80 n ].

(** The frame numbers of [for (frameNum = 0; frameNum < totalFrames; frameNum++)]. *)
Definition frame_numbers (totalFrames : Q) : list nat :=
  seq 0 (Z.to_nat (Qceiling totalFrames)).

(** One iteration of the frame loop: the frame is drawn on the one canvas
    and the canvas is then saved. *)
Definition save_frame (config : videoConfig)
    (acc : context * list (list painted)) (frameNum : nat)
    : context * list (list painted) :=
  let ctx := draw_frame config frameNum (fst acc) in
  (ctx, snd acc ++ [drawn ctx]).

(** The frame loop; the saved frames are collected in the order of their
    file numbers. *)
Definition frame_loop (config : videoConfig) (numbers : list nat) (ctx : context)
    : context * list (list painted) :=
  foldl (save_frame config) (ctx, []) numbers.

(** What the script reads from outside while it runs: the clock and the
    size of the encoded file. *)
Record environment : Type := {
  now : nat -> string;
  stat_size : Z
}.

(** The encoder's input ([-framerate fps] over the numbered frames) and the
    record that [generateVideo] returns. *)
Record video : Type := {
  frames : list (list painted);
  framerate : Z;
  v_duration : Q;
  v_width : Z;
  v_height : Z;
  v_fps : Z;
  createdAt : string;
  date : string;
  fileSize : Z
}.

(** [generateVideo(videoConfig)] *)
Definition generateVideo (env : environment) (config : videoConfig) : video :=
  let canvas := createCanvas width height in
  let '(_, saved) := frame_loop config (frame_numbers (totalFrames_of config)) canvas in
  {| frames := saved; framerate := fps; v_duration := duration config;
     v_width := width; v_height := height; v_fps := fps;
     createdAt := now env 0; date := now env 1; fileSize := stat_size env |}.

(** Time stamp of frame [k] in the encoded video. *)
Definition timestamp (k : nat) : Q := inject_Z (Z.of_nat k) / inject_Z fps.

(** The state a frame leaves behind, and the ring that [drawAvatar] leaves
    as the current path. *)
Definition steady_state : gstate :=
  {| fillStyle := Color "#ffffff"; strokeStyle := Color "#4a90d9"; lineWidth := 3;
     lineJoin := "round"; font := "bold 52px Arial, sans-serif";
     textAlign := "center"; globalAlpha := 1; clip := [] |}.



Definition ring (frameNum : nat) : list segment :=
  let n := inject_Z (Z.of_nat frameNum) in
  [Arc (inject_Z width - 120 + 80 / 2) (40 + 80 / 2)
       (80 / 2 + 5 + sin (n * (15 # 100)) * 3) 0 (PI * 2)].

(** The context at the start of frame [k], its canvas taken blank. *)
Definition frame_start (k : nat) : context :=
  match k with
  | O => createCanvas width height
  | S j => {| cwidth := width; cheight := height; state := steady_state; stack := [];
              path := ring j; drawn := [] |}
  end.

(** The content of frame [k] as a function of the configuration and [k]. *)
Definition frame_content (config : videoConfig) (k : nat) : list painted :=
  drawn (draw_frame config k (frame_start k)).

End Rendering.

End Batch.

(** ** The word reveal, as the design document states it *)

Module Caption.




End Caption.

(** ** Oscillators and the note sequencer (music generator script) *)

Module Waves.
Import Synth.

(** [new Float32Array(samples)] followed by the loop
    [for (i = 0; i < samples; i++) buffer[i] = sample(i)]; a negative
    length raises a range error. *)
Definition generate (samples : Z) (sample : Z -> Q) : outcome (list Q) :=
  if (samples <? 0)%Z then Throws RangeError
  else Returns ((fun i : nat => sample (Z.of_nat i)) <$> seq 0 (Z.to_nat samples)).

(** [(i % period) / period], for a frequency other than 0. *)
Definition phase_of (period : Q) (i : Z) : Q := Qrem (inject_Z i) period / period.

Section Oscillators.
(** [Math.sin], [Math.PI] and the successive results of [Math.random()]. *)
Variable sin : Q -> Q.
Variable PI : Q.
Variable random : nat -> Q.

(** [sineWave(frequency, duration, sampleRate = SAMPLE_RATE)] *)
Definition sineWave (frequency duration sampleRate : Q) : outcome (list Q) :=
  let samples := Qfloor (duration * sampleRate) in
  generate samples (fun i => sin (2 * PI * frequency * inject_Z i / sampleRate)).

(** [triangleWave(frequency, duration, sampleRate = SAMPLE_RATE)] *)
Definition triangleWave (frequency duration sampleRate : Q) : outcome (list Q) :=
  let samples := Qfloor (duration * sampleRate) in
  let period := sampleRate / frequency in
  generate samples (fun i =>
    let phase := phase_of period i in
    2 * Qabs (2 * phase - 1) - 1).

(** [sawtoothWave(frequency, duration, sampleRate = SAMPLE_RATE)] *)
Definition sawtoothWave (frequency duration sampleRate : Q) : outcome (list Q) :=
  let samples := Qfloor (duration * sampleRate) in
  let period := sampleRate / frequency in
  generate samples (fun i => 2 * phase_of period i - 1).

(** [squareWave(frequency, duration, sampleRate = SAMPLE_RATE)] *)
Definition squareWave (frequency duration sampleRate : Q) : outcome (list Q) :=
  let samples := Qfloor (duration * sampleRate) in
  let period := sampleRate / frequency in
  generate samples (fun i => if Qltb (phase_of period i) (1 # 2) then 1 else -1).

(** [noise(duration, sampleRate = SAMPLE_RATE)], [draws] being the number
    of calls of [Math.random] so far; returned with the number afterwards. *)
Definition noise (draws : nat) (duration sampleRate : Q) : outcome (list Q * nat) :=
  let samples := Qfloor (duration * sampleRate) in
  buffer ← generate samples (fun i => random (draws + Z.to_nat i) * 2 - 1);
  mret (buffer, (draws + Z.to_nat samples)%nat).

End Oscillators.

(** [array[index] = f(array[index])] on a typed array: a write outside the
    array, at a negative index too, is ignored. *)
Definition update_at (index : Z) (f : Q -> Q) (array : list Q) : list Q :=
  if (0 <=? index)%Z then alter f (Z.to_nat index) array else array.

(** The loop of [addNote], [i] being the index of the next sample of the
    note: [if (startSample + i < track.length)
             track[startSample + i] += noteBuffer[i] * gain]. *)
Fixpoint addNote_loop (gain : Q) (startSample : Z) (i : nat) (noteBuffer track : list Q)
    : list Q :=
  match noteBuffer with
  | [] => track
  | x :: rest =>
      let index := (startSample + Z.of_nat i)%Z in
      let track :=
        if (index <? Z.of_nat (length track))%Z
        then update_at index (fun t => t + x * gain) track
        else track in
      addNote_loop gain startSample (S i) rest track
  end.

(** [addNote(track, noteBuffer, startTime, gain = 1.0)]: the samples of
    [track] after the call, for a note that is not the track itself. *)
Definition addNote (track noteBuffer : list Q) (startTime gain : Q) : list Q :=
  let startSample := Qfloor (startTime * SAMPLE_RATE) in
  addNote_loop gain startSample 0 noteBuffer track.


(** A buffer whose samples all lie in [lo, hi]. *)
Definition within (lo hi : Q) (buffer : list Q) : Prop :=
  Forall (fun x => lo <= x <= hi) buffer.

End Waves.

(** ** The note sequencer on shared buffers *)

Module Tracks.
Import Synth.

(** One iteration of the loop of [addNote], on the store: the sample of
    the note is read when it is added, the track is written in place. *)
Definition addNote_step (track noteBuffer : nat) (gain : Q) (startSample : Z)
    (σ : gmap nat (list Q)) (i : nat) : gmap nat (list Q) :=
  match σ !! noteBuffer ≫= (fun samples => samples !! i), σ !! track with
  | Some x, Some samples =>
      let index := (startSample + Z.of_nat i)%Z in
      if (index <? Z.of_nat (length samples))%Z
      then <[track := Waves.update_at index (fun t => t + x * gain) samples]> σ
      else σ
  | _, _ => σ
  end.

(** [addNote(track, noteBuffer, startTime, gain = 1.0)]: nothing is
    returned, the track is changed where it is. *)
Definition addNote (track noteBuffer : nat) (startTime gain : Q)
    (σ : gmap nat (list Q)) : gmap nat (list Q) :=
  let startSample := Qfloor (startTime * SAMPLE_RATE) in
  let length := length (default [] (σ !! noteBuffer)) in
  foldl (addNote_step track noteBuffer gain startSample) σ (seq 0 length).

End Tracks.
(** ** Sample data of any number of channels *)

Module Frames.

(** The bytes of frame [i]: for every channel in turn, the two bytes of
    its sample. *)
Definition frame (channels : list (list Q)) (i : nat) : list Z :=
  mjoin ((fun data : list Q => le_bytes 2 (Mixer.pcm16 (data !!! i))) <$> channels).

(** The frames of [frames] samples per channel, one after the other. *)
Definition sample_data (channels : list (list Q)) (frames : nat) : list Z :=
  mjoin (frame channels <$> seq 0 frames).

End Frames.
(** ** The avatar while it is animated *)

Module Session.
Import Avatar.

(** What happens to an avatar after its construction: the host sets a
    state, or an animation frame calls [update] with the time since the
    frame before. *)
Inductive call : Type :=
| SetState (state : string)
| Tick (deltaTime : Q).

Section Calls.
Variable sin : Q -> Q.
Variable PI : Q.
Variable random : nat -> Q.

Definition perform (c : call) (a : avatar) : outcome avatar :=
  match c with
  | SetState state => setState state a
  | Tick deltaTime => update sin PI random deltaTime a
  end.

(** The calls in sequence; the first one that throws ends the sequence. *)
Definition run_calls (calls : list call) (a : avatar) : outcome avatar :=
  foldl (fun acc c => a ← acc; perform c a) (Returns a) calls.

End Calls.

(** Time does not run backwards between two frames. *)
Definition forward (c : call) : Prop :=
  match c with
  | SetState _ => True
  | Tick deltaTime => 0 <= deltaTime
  end.

(** What every call keeps: the 35 particles, a configuration whose active
    particles exist, and sound waves that are still visible. *)
Definition steady (a : avatar) : Prop :=
  length (particles a) = 35%nat /\
  (forall c, stateConfig a = Config c -> (particleCount c <= 35)%nat) /\
  Forall (fun w => 0 < opacity w) (soundWaves a).

(** No sound wave is more than fully opaque. *)
Definition faded (a : avatar) : Prop := Forall (fun w => opacity w <= 1) (soundWaves a).

End Session.

(** ** What [drawParticles] reads *)

Module Particles.
Import Avatar.



End Particles.

(** ** The mixer's settings ([setVolumes], [setDucking]) *)

Module Settings.

(** The volume and ducking fields of the mixer; [None] is [NaN]. *)
Record settings : Type := {
  musicVolume : num;
  musicVolumeIdle : num;
  ttsVolume : num;
  duckingAttack : num;
  duckingRelease : num;
  duckingThreshold : num
}.

(** The values the constructor assigns. *)
Definition initial : settings :=
  {| musicVolume := Some (2 # 10); musicVolumeIdle := Some (7 # 10); ttsVolume := Some 1;
     duckingAttack := Some (5 # 100); duckingRelease := Some (3 # 10);
     duckingThreshold := Some (1 # 100) |}.

(** [Math.max(0, Math.min(1, v))] and [Math.max(lo, v)] of a number that
    may be [NaN]. *)
Definition clamp01 (v : num) : num := clampQ 0 1 <$> v.
Definition at_least (lo : Q) (v : num) : num := Qmax lo <$> v.

(** [if (params.field !== undefined) this.field = value]: a field of the
    argument is absent ([None]) or a number. *)
Definition assign (given : option num) (f : num -> num) (old : num) : num :=
  match given with
  | Some v => f v
  | None => old
  end.

(** [setVolumes(volumes = {})] *)
Definition setVolumes (music musicIdle tts : option num) (s : settings) : settings :=
  {| musicVolume := assign music clamp01 (musicVolume s);
     musicVolumeIdle := assign musicIdle clamp01 (musicVolumeIdle s);
     ttsVolume := assign tts clamp01 (ttsVolume s);
     duckingAttack := duckingAttack s; duckingRelease := duckingRelease s;
     duckingThreshold := duckingThreshold s |}.

(** [setDucking(params = {})] *)
Definition setDucking (attack release threshold : option num) (s : settings) : settings :=
  {| musicVolume := musicVolume s; musicVolumeIdle := musicVolumeIdle s;
     ttsVolume := ttsVolume s;
     duckingAttack := assign attack (at_least (1 # 100)) (duckingAttack s);
     duckingRelease := assign release (at_least (1 # 100)) (duckingRelease s);
     duckingThreshold := assign threshold (at_least 0) (duckingThreshold s) |}.

Inductive change : Type :=
| Volumes (music musicIdle tts : option num)
| Ducking (attack release threshold : option num).

Definition apply_change (s : settings) (c : change) : settings :=
  match c with
  | Volumes music musicIdle tts => setVolumes music musicIdle tts s
  | Ducking attack release threshold => setDucking attack release threshold s
  end.

(** No argument of the call is [NaN]. *)
Definition numeric (c : change) : Prop :=
  match c with
  | Volumes a b c | Ducking a b c => a <> Some None /\ b <> Some None /\ c <> Some None
  end.

(** A number (not [NaN]) in the given range. *)
Definition between (lo hi : Q) (v : num) : Prop :=
  exists q, v = Some q /\ lo <= q <= hi.

Definition not_below (lo : Q) (v : num) : Prop :=
  exists q, v = Some q /\ lo <= q.

Definition in_range (s : settings) : Prop :=
  between 0 1 (musicVolume s) /\ between 0 1 (musicVolumeIdle s) /\
  between 0 1 (ttsVolume s) /\
  not_below (1 # 100) (duckingAttack s) /\ not_below (1 # 100) (duckingRelease s) /\
  not_below 0 (duckingThreshold s).

End Settings.
(** ** Plain objects used as maps *)

Module Objects.

(** What reading a property of a plain object finds: a property of the
    object itself, a member of [Object.prototype], or nothing. *)
Inductive slot (A : Type) : Type :=
| Own (a : A)
| FromPrototype (name : string)
| Absent.
Arguments Own {A} a.
Arguments FromPrototype {A} name.
Arguments Absent {A}.

(** [object[key]] *)
Definition get {A : Type} (object : gmap string A) (key : string) : slot A :=
  match object !! key with
  | Some a => Own a
  | None =>
      if bool_decide (key ∈ Avatar.Object_prototype) then FromPrototype key else Absent
  end.

(** [object[key] = value] for a number [value]: an assignment to
    [__proto__] that the object does not own reaches the setter of
    [Object.prototype], which ignores a number. *)
Definition set {A : Type} (object : gmap string A) (key : string) (value : A)
    : gmap string A :=
  match object !! key with
  | None => if String.eqb key "__proto__" then object else <[key := value]> object
  | Some _ => <[key := value]> object
  end.

End Objects.

(** ** The caption generator's template rotation ([ContentGenerator]) *)

Module Rotation.
Import Objects.

Record template : Type := {
  t_id : string;
  hook : string;
  body : string;
  cta : string;
  hashtags_extra : option (list string)
}.

Record category : Type := {
  c_name : string;
  templates : list template;
  c_hashtags : list string
}.

(** The content library; [cooldown_days] is
    [library.rotation_settings?.cooldown_days], a number when present. *)
Record library : Type := {
  categories : gmap string category;
  cooldown_days : option Q
}.

(** One entry of [rotationState.usageHistory]. *)
Record usage : Type := {
  template_id : string;
  u_category : string;
  timestamp : Q
}.

(** [rotationState], with the time stamps (numbers) that
    [markTemplateUsed] stores. *)
Record rotationState : Type := {
  lastUsed : gmap string Q;
  usageHistory : list usage
}.

(** The generator: its library and rotation state, the number of calls of
    [Date.now] and of [Math.random] so far, and the lines of
    [console.warn]. *)
Record generator : Type := {
  lib : library;
  rotation : rotationState;
  reads : nat;
  draws : nat;
  warnings : list string
}.

Definition with_reads (n : nat) (g : generator) : generator :=
  {| lib := lib g; rotation := rotation g; reads := n; draws := draws g;
     warnings := warnings g |}.

Definition with_draws (n : nat) (g : generator) : generator :=
  {| lib := lib g; rotation := rotation g; reads := reads g; draws := n;
     warnings := warnings g |}.

(** A value compared by [<]: a number, or the function that a name
    inherited from [Object.prototype] reads as. *)
Inductive stamp : Type :=
| Number (q : Q)
| Function (name : string).

Section Environment.
(** The successive results of [Date.now()] and of [Math.random()], and the
    order in which [<] puts two members of [Object.prototype] (it compares
    the texts the engine prints them as). *)
Variable clock : nat -> Q.
Variable random : nat -> Q.
Variable source_lt : string -> string -> bool.

(** [cooldownDays * 24 * 60 * 60 * 1000] *)
Definition cooldownMs_of (cooldownDays : Q) : Q := cooldownDays * 24 * 60 * 60 * 1000.

(** [isTemplateAvailable(templateId, cooldownDays = 7)]: a time stamp 0
    is falsy; an inherited member is truthy and makes the difference
    [NaN], which is greater than nothing. *)
Definition isTemplateAvailable (templateId : string) (cooldownDays : Q) (g : generator)
    : bool * generator :=
  match get (lastUsed (rotation g)) templateId with
  | Absent => (true, g)
  | Own lastUsed =>
      if Qeq_bool lastUsed 0 then (true, g)
      else
        let cooldownMs := cooldownMs_of cooldownDays in
        let now := clock (reads g) in
        (Qltb cooldownMs (now - lastUsed), with_reads (S (reads g)) g)
  | FromPrototype _ => (false, with_reads (S (reads g)) g)
  end.

(** [templates.filter(template => this.isTemplateAvailable(template.id, cooldownDays))] *)
Fixpoint filter_available (cooldownDays : Q) (ts : list template) (g : generator)
    : list template * generator :=
  match ts with
  | [] => ([], g)
  | t :: rest =>
      let '(available, g) := isTemplateAvailable (t_id t) cooldownDays g in
      let '(kept, g) := filter_available cooldownDays rest g in
      (if available then t :: kept else kept, g)
  end.

(** [this.library.rotation_settings?.cooldown_days || 7] *)
Definition cooldownDays_of (l : library) : Q :=
  match cooldown_days l with
  | Some d => if Qeq_bool d 0 then 7 else d
  | None => 7
  end.

(** [getAvailableTemplates(categoryId)]: a category name inherited from
    [Object.prototype] has no [templates], and calling [filter] of
    [undefined] is a type error. *)
Definition getAvailableTemplates (categoryId : string) (g : generator)
    : outcome (list template * generator) :=
  match get (categories (lib g)) categoryId with
  | Absent => Returns ([], g)
  | FromPrototype _ => Throws TypeError
  | Own category =>
      Returns (filter_available (cooldownDays_of (lib g)) (templates category) g)
  end.

(** [this.rotationState.lastUsed[id] || 0] *)
Definition stamp_of (g : generator) (id : string) : stamp :=
  match get (lastUsed (rotation g)) id with
  | Own q => Number q
  | FromPrototype name => Function name
  | Absent => Number 0
  end.

(** [a < b]: a number and a function compare as a number and [NaN]. *)
Definition stamp_lt (a b : stamp) : bool :=
  match a, b with
  | Number x, Number y => Qltb x y
  | Function f, Function h => source_lt f h
  | _, _ => false
  end.

(** The callback of [reduce] in [selectLeastRecentlyUsed]. *)
Definition older (g : generator) (oldest current : template) : template :=
  let oldestLastUsed := stamp_of g (t_id oldest) in
  let currentLastUsed := stamp_of g (t_id current) in
  if stamp_lt currentLastUsed oldestLastUsed then current else oldest.

(** [selectLeastRecentlyUsed(templates)]: [reduce] of an empty array
    without an initial value is a type error. *)
Definition selectLeastRecentlyUsed (ts : list template) (g : generator) : outcome template :=
  match ts with
  | [] => Throws TypeError
  | first :: rest => Returns (foldl (older g) first rest)
  end.

(** [history.sort((a, b) => b.timestamp - a.timestamp)]: a stable sort,
    latest first. *)
Fixpoint insert_recent (h : usage) (sorted : list usage) : list usage :=
  match sorted with
  | [] => [h]
  | x :: rest =>
      if Qle_bool (timestamp x) (timestamp h) then h :: x :: rest
      else x :: insert_recent h rest
  end.

Definition sort_recent (history : list usage) : list usage :=
  foldr insert_recent [] history.

(** [templates.findIndex(t => t.id === id)], -1 when there is none. *)
Definition findIndex (id : string) (ts : list template) : Z :=
  match list_find (fun t => t_id t = id) ts with
  | Some (i, _) => Z.of_nat i
  | None => (-1)%Z
  end.

(** [selectSequential(categoryId, templates)]; [None] is [undefined],
    which is what indexing an empty array gives. *)
Definition selectSequential (categoryId : string) (ts : list template) (g : generator)
    : option template :=
  let categoryHistory :=
    sort_recent (filter (fun h => u_category h = categoryId)
                        (usageHistory (rotation g))) in
  let lastUsedIndex :=
    match categoryHistory with
    | latest :: _ => findIndex (template_id latest) ts
    | [] => (-1)%Z
    end in
  match ts with
  | [] => None
  | _ => ts !! Z.to_nat ((lastUsedIndex + 1) mod Z.of_nat (length ts))
  end.

(** [array[Math.floor(Math.random() * array.length)]] *)
Definition pick_random {A : Type} (array : list A) (g : generator) : option A * generator :=
  let index := Qfloor (random (draws g) * inject_Z (Z.of_nat (length array))) in
  (if (index <? 0)%Z then None else array !! Z.to_nat index,
   with_draws (S (draws g)) g).

(** [selectTemplate(categoryId, strategy = 'random')]; [None] is [null]
    or [undefined]. *)
Definition selectTemplate (categoryId strategy : string) (g : generator)
    : outcome (option template * generator) :=
  '(availableTemplates, g) ← getAvailableTemplates categoryId g;
  match availableTemplates with
  | [] =>
      let g := {| lib := lib g; rotation := rotation g; reads := reads g;
                  draws := draws g;
                  warnings := warnings g
                    ++ ["All templates in category " +:+ categoryId
                        +:+ " are in cooldown. Resetting..."] |} in
      match get (categories (lib g)) categoryId with
      | Own category => Returns (head (templates category), g)
      | FromPrototype _ => Throws TypeError
      | Absent => Returns (None, g)
      end
  | _ =>
      if String.eqb strategy "least_recently_used" then
        t ← selectLeastRecentlyUsed availableTemplates g; mret (Some t, g)
      else if String.eqb strategy "sequential" then
        Returns (selectSequential categoryId availableTemplates g, g)
      else Returns (pick_random availableTemplates g)
  end.

(** [markTemplateUsed(templateId, categoryId)]; the history keeps its last
    100 entries.  [saveRotationState] then writes the state to its file and
    catches every error; the file is not part of this model. *)
Definition markTemplateUsed (templateId categoryId : string) (g : generator) : generator :=
  let timestamp := clock (reads g) in
  let lastUsed := set (lastUsed (rotation g)) templateId timestamp in
  let usageHistory :=
    usageHistory (rotation g)
    ++ [{| template_id := templateId; u_category := categoryId;
           timestamp := timestamp |}] in
  let usageHistory :=
    if (100 <? length usageHistory)%nat
    then drop (length usageHistory - 100) usageHistory
    else usageHistory in
  {| lib := lib g;
     rotation := {| lastUsed := lastUsed; usageHistory := usageHistory |};
     reads := S (reads g); draws := draws g; warnings := warnings g |}.

(** [[shuffled[i], shuffled[j]] = [shuffled[j], shuffled[i]]], both
    indices being inside the array. *)
Definition swap {A : Type} (i j : nat) (shuffled : list A) : list A :=
  match shuffled !! i, shuffled !! j with
  | Some x, Some y => <[j := x]> (<[i := y]> shuffled)
  | _, _ => shuffled
  end.

(** The loop [for (let i = shuffled.length - 1; i > 0; i--)] of
    [shuffleArray] from [i] down; [Math.random()] is in [0, 1), so that
    [j <= i]. *)
Fixpoint shuffle_from {A : Type} (i : nat) (shuffled : list A) (draws : nat)
    : list A * nat :=
  match i with
  | O => (shuffled, draws)
  | S i' =>
      let j := Z.to_nat (Qfloor (random draws * (inject_Z (Z.of_nat i) + 1))) in
      shuffle_from i' (swap i j shuffled) (S draws)
  end.

(** [shuffleArray(array)]: the copy that is shuffled and returned, and the
    number of calls of [Math.random] afterwards. *)
Definition shuffleArray {A : Type} (array : list A) (draws : nat) : list A * nat :=
  let shuffled := array in
  shuffle_from (length shuffled - 1) shuffled draws.

(** [[...new Set(hashtags)]]: the first occurrence of every element, in
    order. *)
Definition unique (hashtags : list string) : list string :=
  foldl (fun seen h => if bool_decide (h ∈ seen) then seen else seen ++ [h]) [] hashtags.

(** The hashtags that [generateHashtags] chooses from: those of the
    category, those of the template, and the company's. *)
Definition hashtag_pool (category : category) (template : template)
    (includeBranding : bool) : list string :=
  let hashtags := c_hashtags category in
  let hashtags :=
    match hashtags_extra template with
    | Some extra => hashtags ++ extra
    | None => hashtags
    end in
  if includeBranding then hashtags ++ ["#TDSolutions"] else hashtags.

(** [generateHashtags(categoryId, template, options = {})], with
    [count = options.count || 5] an integer and
    [includeBranding = options.includeBranding !== false]: the chosen
    hashtags before they are joined, and the string returned. *)
Definition chosen_hashtags (category : category) (template : template)
    (count : option Z) (includeBranding : bool) (draws : nat) : list string * nat :=
  let count :=
    match count with
    | Some c => if Z.eqb c 0 then 5%Z else c
    | None => 5%Z
    end in
  let hashtags := unique (hashtag_pool category template includeBranding) in
  let '(hashtags, draws) := shuffleArray hashtags draws in
  (Text.slice0 count hashtags, draws).

Definition generateHashtags (categoryId : string) (template : template)
    (count : option Z) (includeBranding : bool) (g : generator)
    : outcome (string * generator) :=
  match get (categories (lib g)) categoryId with
  | Absent => Returns (EmptyString, g)
  | FromPrototype _ => Throws TypeError
  | Own category =>
      let '(hashtags, draws) :=
        chosen_hashtags category template count includeBranding (draws g) in
      Returns (Text.join " " hashtags, with_draws draws g)
  end.

End Environment.

(** The time of the last use that [selectLeastRecentlyUsed] compares, for
    a template whose identifier is no member of [Object.prototype]. *)
Definition last_use (g : generator) (t : template) : Q :=
  default 0 (lastUsed (rotation g) !! t_id t).

(** Identifiers that [Object.prototype] does not define. *)
Definition plain (id : string) : Prop := id ∉ Avatar.Object_prototype.

End Rotation.
(** ** The sample generator's manifest ([generateSampleVideos]) *)

Module Samples.

(** A video listed in the manifest, with the fields that the generator
    reads; an entry may lack a [filename]. *)
Record listed : Type := {
  m_id : string;
  m_filename : option string
}.

(** One entry of [stats.generationHistory]. *)
Record generation : Type := {
  g_date : string;
  g_count : nat;
  g_type : string
}.

Record manifest : Type := {
  videos : list listed;
  totalGenerated : Z;
  totalDownloaded : Z;
  generationHistory : list generation
}.

(** What [readManifest] returns when the file cannot be read. *)
Definition empty_manifest : manifest :=
  {| videos := []; totalGenerated := 0; totalDownloaded := 0; generationHistory := [] |}.

(** [SAMPLE_VIDEOS.map(config => config.id)] *)
Definition SAMPLE_VIDEOS : list string := ["sample-001"; "sample-002"; "sample-003"].

(** The generator while it runs: the manifest in memory, the files of the
    data directory (by path), and the videos generated so far. *)
Record run : Type := {
  current : manifest;
  files : gset string;
  generatedVideos : list listed
}.

Section Run.
(** [path.join(DATA_DIR, name)]; [generateVideo(config)] for the
    configuration with identifier [id], which returns the entry of the new
    video or throws, and leaves the data directory in some state; the
    result of [new Date().toISOString()]. *)
Variable data_path : string -> string.
Variable generateVideo : string -> gset string -> option listed * gset string.
Variable now : string.

(** [manifest.videos.findIndex(v => v.id === config.id)]; [None] is -1. *)
Definition findIndex (id : string) (vs : list listed) : option nat :=
  fst <$> list_find (fun v => m_id v = id) vs.

(** The block under "Check if video already exists": the entry is spliced
    out, then the entry that is at its index is asked for its file name
    and that file is unlinked; an error of [unlink] is ignored. *)
Definition replace_existing (id : string) (r : run) : run :=
  match findIndex id (videos (current r)) with
  | None => r
  | Some existingIndex =>
      let videos := delete existingIndex (videos (current r)) in
      let oldFilename := videos !! existingIndex ≫= m_filename in
      let files :=
        match oldFilename with
        | Some name =>
            if String.eqb name "" then files r else files r ∖ {[ data_path name ]}
        | None => files r
        end in
      {| current := {| videos := videos; totalGenerated := totalGenerated (current r);
                       totalDownloaded := totalDownloaded (current r);
                       generationHistory := generationHistory (current r) |};
         files := files; generatedVideos := generatedVideos r |}
  end.

(** The body of the loop over [SAMPLE_VIDEOS]. *)
Definition process (r : run) (id : string) : run :=
  let r := replace_existing id r in
  match generateVideo id (files r) with
  | (Some video, files) =>
      {| current := {| videos := videos (current r) ++ [video];
                       totalGenerated := totalGenerated (current r) + 1;
                       totalDownloaded := totalDownloaded (current r);
                       generationHistory := generationHistory (current r) |};
         files := files; generatedVideos := generatedVideos r ++ [video] |}
  | (None, files) =>
      {| current := current r; files := files; generatedVideos := generatedVideos r |}
  end.

(** [generateSampleVideos()], from the manifest that [readManifest] returns:
    the run at the end, and the manifest that is written, if one is. *)
Definition generateSampleVideos (m : manifest) (fs : gset string) : run * option manifest :=
  let r := foldl process {| current := m; files := fs; generatedVideos := [] |}
                 SAMPLE_VIDEOS in
  match generatedVideos r with
  | [] => (r, None)
  | _ =>
      let written :=
        {| videos := videos (current r); totalGenerated := totalGenerated (current r);
           totalDownloaded := totalDownloaded (current r);
           generationHistory :=
             generationHistory (current r)
             ++ [{| g_date := now; g_count := length (generatedVideos r);
                    g_type := "sample-generation" |}] |} in
      ({| current := written; files := files r; generatedVideos := generatedVideos r |},
       Some written)
  end.

End Run.

(** An encoder that always succeeds: it writes [id.mp4] and touches no
    other file of the data directory. *)
Definition encode (data_path : string -> string) (id : string) (fs : gset string)
    : option listed * gset string :=
  (Some {| m_id := id; m_filename := Some (id +:+ ".mp4") |},
   {[ data_path (id +:+ ".mp4") ]} ∪ fs).

End Samples.
(** ** What the canvas accepts *)

Module Geometry.
Import Canvas.

(** [arc] and [ellipse] raise an index-size error for a negative radius. *)
Definition segment_ok (s : segment) : Prop :=
  match s with
  | Arc _ _ r _ _ => 0 <= r
  | Ellipse _ _ radiusX radiusY _ _ _ => 0 <= radiusX /\ 0 <= radiusY
  | MoveTo _ _ | LineTo _ _ => True
  end.

(** A drawing state whose clipping region is made of such segments and
    whose alpha is at least 0.2 and at most 1. *)
Definition state_ok (g : gstate) : Prop :=
  Forall (Forall segment_ok) (clip g) /\ (2 # 10) <= globalAlpha g <= 1.

Definition painted_ok (p : painted) : Prop :=
  match what p with
  | Path segments => Forall segment_ok segments
  | Rect _ _ _ _ | Glyphs _ _ _ => True
  end /\ state_ok (style p).

Definition sound (ctx : context) : Prop :=
  state_ok (state ctx) /\ Forall state_ok (stack ctx) /\
  Forall segment_ok (path ctx) /\ Forall painted_ok (drawn ctx).

(** A command that keeps a context sound. *)
Definition safe (c : cmd) : Prop := forall ctx, sound ctx -> sound (c ctx).

End Geometry.
(** ** Sound waves after the avatar has stopped talking *)

Module Fading.
Import Avatar.

(** An avatar that spawns no wave: it is not talking and its
    configuration has no energy spikes. *)
Definition quiet (a : avatar) : Prop :=
  String.eqb (currentState a) "talking" = false /\ has_spikes (stateConfig a) = false.

(** The time that a sequence of frames takes. *)
Definition elapsed (deltas : list Q) : Q := foldr Qplus 0 deltas.

(** What a wave loses of its opacity per millisecond: 0.02 x 0.06. *)
Definition fade_rate : Q := (2 # 100) * (6 # 100).

End Fading.

(** * Properties *)

Module SynthFacts.
Import Synth.

Lemma SAMPLE_RATE_pos : 0 < SAMPLE_RATE.
Proof. reflexivity. Qed.

Lemma Qfloor_nonneg (x : Q) : 0 <= x -> (0 <= Qfloor x)%Z.
Proof.
  intros H. change 0%Z with (Qfloor 0). now apply Qfloor_resp_le.
Qed.

Lemma samples_nonneg (t : Q) : 0 <= t -> (0 <= Qfloor (t * SAMPLE_RATE))%Z.
Proof.
  intros H. apply Qfloor_nonneg. pose proof SAMPLE_RATE_pos. nra.
Qed.


Lemma inject_Z_pos (x : Z) : (0 < x)%Z -> 0 < inject_Z x.
Proof. intros H. change 0 with (inject_Z 0). now rewrite <- Zlt_Qlt. Qed.

(** *** Stage lengths *)


(** *** Ramps *)





(** *** The code's amplitude is the documented curve *)




(** *** Sample-to-sample steps of the curve *)







Lemma applyEnvelope_length (buffer : list Q) (attack decay sustain release T : Q) :
  length (applyEnvelope buffer attack decay sustain release T) = length buffer.
Proof. unfold applyEnvelope. apply length_imap. Qed.



Example applyEnvelope_run :
  Qred <$> applyEnvelope (replicate 8 1) (2 # 44100) (3 # 44100) (1 # 2) (2 # 44100)
             (8 # 44100)
  = [0 # 1; 1 # 2; 1 # 1; 5 # 6; 2 # 3; 1 # 2; 1 # 2; 1 # 4].
Proof. vm_compute. reflexivity. Qed.


(** *** [normalize] *)

Lemma peak_from_lower (m : Q) (buffer : list Q) : m <= peak_from m buffer.
Proof.
  unfold peak_from. revert m.
  induction buffer as [|x l IH]; intros m; cbn; [lra|].
  eapply Qle_trans; [|apply IH]. apply Q.le_max_l.
Qed.

Lemma peak_from_upper (m : Q) (buffer : list Q) :
  Forall (fun x => Qabs x <= peak_from m buffer) buffer.
Proof.
  unfold peak_from. revert m.
  induction buffer as [|x l IH]; intros m; cbn; constructor.
  - eapply Qle_trans; [|apply (peak_from_lower _ l)]. apply Q.le_max_r.
  - apply IH.
Qed.

Lemma peak_from_attained (m : Q) (buffer : list Q) :
  peak_from m buffer == m \/ Exists (fun x => Qabs x == peak_from m buffer) buffer.
Proof.
  unfold peak_from. revert m.
  induction buffer as [|x l IH]; intros m; cbn; [left; reflexivity|].
  destruct (IH (Qmax m (Qabs x))) as [E|E].
  - destruct (Q.max_spec m (Qabs x)) as [[_ E']|[_ E']].
    + right. constructor. rewrite E, E'. reflexivity.
    + left. rewrite E, E'. reflexivity.
  - right. now apply Exists_cons_tl.
Qed.








(** *** [mix] *)

Lemma mix_add_length (b : list Q) (g : num) (result : list num) :
  length (mix_add b g result) = length result.
Proof. apply length_imap. Qed.

Lemma mix_loop_length (gains : option (list Q)) (buffers : list (list Q)) :
  forall i result, length (mix_loop gains i buffers result) = length result.
Proof.
  induction buffers as [|b rest IH]; intros i result; cbn; [reflexivity|].
  rewrite IH. apply mix_add_length.
Qed.

Lemma mix_loop_lookup (gains : option (list Q)) (buffers : list (list Q)) (j : nat) :
  forall i result v,
    result !! j = Some v ->
    mix_loop gains i buffers result !! j = Some (mix_sample gains i buffers v j).
Proof.
  induction buffers as [|b rest IH]; intros i result v Hv; cbn; [exact Hv|].
  apply IH. unfold mix_add. rewrite list_lookup_imap, Hv. reflexivity.
Qed.

Lemma mix_sample_nan (gains : option (list Q)) (buffers : list (list Q)) (j : nat) :
  forall i, mix_sample gains i buffers None j = None.
Proof. induction buffers as [|b rest IH]; intros i; cbn; [reflexivity|apply IH]. Qed.

Lemma mix_sample_short (gains : option (list Q)) (buffers : list (list Q)) (j : nat) :
  forall i acc b, b ∈ buffers -> (length b <= j)%nat ->
    mix_sample gains i buffers acc j = None.
Proof.
  induction buffers as [|b0 rest IH]; intros i acc b Hin Hlen.
  - inversion Hin.
  - cbn. apply elem_of_cons in Hin as [->|Hin].
    + rewrite (lookup_ge_None_2 _ _ Hlen). cbn.
      replace (nadd acc None) with (@None Q) by (now destruct acc).
      apply mix_sample_nan.
    + eapply IH; eassumption.
Qed.

Lemma mix_sample_weighted (G : list Q) (n j : nat) (buffers : list (list Q)) :
  (j < n)%nat ->
  forall i gs acc,
    drop i G = gs -> length gs = length buffers ->
    Forall (fun b => length b = n) buffers ->
    mix_sample (Some G) i buffers (Some acc) j = Some (weighted_sum acc buffers gs j).
Proof.
  intros Hj. induction buffers as [|b rest IH]; intros i gs acc Hdrop Hlen Hall.
  - destruct gs; reflexivity.
  - destruct gs as [|g gs']; [discriminate|].
    apply Forall_cons in Hall as [Hb Hall].
    assert (Hg : G !! i = Some g).
    { rewrite <- (Nat.add_0_r i), <- lookup_drop, Hdrop. reflexivity. }
    destruct (lookup_lt_is_Some_2 b j ltac:(lia)) as [x Hx].
    cbn. rewrite Hx, Hg. cbn.
    rewrite (list_lookup_total_correct _ _ _ Hx).
    apply IH; [|cbn in Hlen; lia|exact Hall].
    replace (S i) with (i + 1)%nat by lia.
    rewrite <- drop_drop, Hdrop. reflexivity.
Qed.

(** C3 (amended): [mix] never fails.  For a non-empty list of buffers it
    returns a buffer with the sample count of the first one; when all
    buffers have that length (and there is a gain for each) it is the
    sample-wise weighted sum; a sample position that a shorter buffer lacks
    is [NaN] in the result. *)
Theorem mix_returns_weighted_sum (b0 : list Q) (rest : list (list Q))
    (gains : option (list Q)) :
  exists out,
    mix (b0 :: rest) gains = Returns out /\
    length out = length b0 /\
    (forall g, gains = Some g -> length g = length (b0 :: rest) ->
       Forall (fun b => length b = length b0) (b0 :: rest) ->
       out = (fun j => Some (weighted_sum 0 (b0 :: rest) g j)) <$> seq 0 (length b0)) /\
    (forall b j, b ∈ b0 :: rest -> (length b <= j < length b0)%nat ->
       out !! j = Some None).
Proof.
  eexists. split; [reflexivity|].
  split; [rewrite mix_loop_length; apply length_replicate|].
  split.
  - intros g -> Hg Hall. apply list_eq. intros j.
    rewrite list_lookup_fmap.
    destruct (decide (j < length b0)%nat) as [Hj|Hj].
    + rewrite lookup_seq_lt by exact Hj. cbn [fmap option_fmap option_map].
      erewrite mix_loop_lookup by (apply lookup_replicate_2; exact Hj).
      f_equal. apply (mix_sample_weighted g (length b0)); auto.
    + rewrite lookup_seq_ge by lia. cbn [fmap option_fmap option_map].
      apply lookup_ge_None_2. rewrite mix_loop_length, length_replicate. lia.
  - intros b j Hin [Hlo Hhi].
    erewrite mix_loop_lookup by (apply lookup_replicate_2; exact Hhi).
    f_equal. eapply mix_sample_short; eassumption.
Qed.

Example mix_equal_lengths :
  mix [[1; 2]; [3; 5]] (Some [1 # 2; 1 # 2])
  = Returns [Some (0 + 1 * (1 # 2) + 3 * (1 # 2)); Some (0 + 2 * (1 # 2) + 5 * (1 # 2))].
Proof. reflexivity. Qed.

(** C3 (as stated) fails: buffers of different lengths are not rejected,
    [mix] returns a buffer whose second sample is [NaN]. *)
Lemma mix_unequal_lengths_returns :
  mix [[1; 2]; [3]] (Some [1 # 2; 1 # 2])
  = Returns [Some (0 + 1 * (1 # 2) + 3 * (1 # 2)); None]
  /\ ~ mix_property.
Proof.
  split; [reflexivity|].
  intros H.
  destruct (H [[1; 2]; [3]] [1 # 2; 1 # 2] eq_refl) as [Hthrow _].
  assert (Hne : exists a b : list Q,
             a ∈ [[1; 2]; [3]] /\ b ∈ [[1; 2]; [3]] /\ length a <> length b).
  { exists [1; 2], [3]. repeat split; [set_solver|set_solver|cbn; lia]. }
  specialize (Hthrow Hne). discriminate Hthrow.
Qed.

End SynthFacts.

(** ** Byte buffers *)

Module BytesFacts.
Import Synth Wav.

Lemma le_bytes_length (width : nat) (v : Z) : length (le_bytes width v) = width.
Proof. unfold le_bytes. now rewrite length_fmap, length_seq. Qed.

Lemma blit_next (done bytes : list Z) (k : nat) :
  (length bytes <= k)%nat ->
  blit (length done) bytes (done ++ replicate k 0%Z)
  = (done ++ bytes) ++ replicate (k - length bytes) 0%Z.
Proof.
  intros H. unfold blit.
  rewrite take_app_length, length_app, length_replicate.
  replace (length done + k - length done)%nat with k by lia.
  rewrite (take_ge bytes) by lia.
  rewrite drop_app_add'  by reflexivity.
  rewrite drop_replicate. now rewrite <- app_assoc.
Qed.

Lemma write_int_next (width : nat) (lo hi v : Z) (offset : nat) (done : list Z) (k : nat) :
  (lo <= v <= hi)%Z -> offset = length done -> (width <= k)%nat ->
  write_int width lo hi v offset (done ++ replicate k 0%Z)
  = Returns ((done ++ le_bytes width v) ++ replicate (k - width) 0%Z).
Proof.
  intros Hv -> Hk. unfold write_int.
  rewrite length_app, length_replicate.
  replace ((lo <=? v)%Z && (v <=? hi)%Z) with true by (symmetry; apply andb_true_iff; split; lia).
  replace (length done + width <=? length done + k)%nat with true
    by (symmetry; apply Nat.leb_le; lia).
  cbn. rewrite blit_next by (rewrite le_bytes_length; lia).
  now rewrite le_bytes_length.
Qed.

Lemma blit_at (offset : nat) (done bytes : list Z) (k : nat) :
  offset = length done -> (length bytes <= k)%nat ->
  blit offset bytes (done ++ replicate k 0%Z)
  = (done ++ bytes) ++ replicate (k - length bytes) 0%Z.
Proof. intros ->. apply blit_next. Qed.

Ltac side := rewrite ?length_app, ?le_bytes_length; cbn; lia.

Lemma Qtrunc_bounds (lo hi : Z) (q : Q) :
  inject_Z lo <= q <= inject_Z hi -> (lo <= Qtrunc q <= hi)%Z.
Proof.
  destruct q as [n d]. unfold Qle, Qtrunc. cbn. rewrite !Z.mul_1_r. intros [Hlo Hhi].
  split.
  - rewrite <- (Z.quot_mul lo (Z.pos d)) by lia. apply Z.quot_le_mono; lia.
  - rewrite <- (Z.quot_mul hi (Z.pos d)) by lia. apply Z.quot_le_mono; lia.
Qed.

Lemma clampQ_bounds (lo hi x : Q) : lo <= hi -> lo <= clampQ lo hi x <= hi.
Proof.
  intros H. unfold clampQ. split; [apply Q.le_max_l|].
  apply Q.max_lub; [exact H|apply Q.le_min_l].
Qed.

Lemma Qltb_lt (a b : Q) : Qltb a b = true <-> a < b.
Proof.
  unfold Qltb. rewrite negb_true_iff, <- not_true_iff_false, Qle_bool_iff.
  split; [apply Qnot_le_lt|apply Qlt_not_le].
Qed.

Lemma int16_round_trip (v : Z) :
  int16 v ->
  exists lo hi, le_bytes 2 v = [lo; hi] /\ (0 <= lo < 256)%Z /\ (0 <= hi < 256)%Z /\
                int16_of_le lo hi = v.
Proof.
  intros Hv. unfold int16 in Hv.
  exists (v mod 256)%Z, ((v / 256) mod 256)%Z.
  split; [unfold le_bytes; cbn; now rewrite Z.div_1_r|].
  split; [apply Z.mod_pos_bound; lia|].
  split; [apply Z.mod_pos_bound; lia|].
  unfold int16_of_le.
  destruct (Z.ltb_spec (v mod 256 + 256 * ((v / 256) mod 256)) 32768);
    Z.to_euclidean_division_equations; lia.
Qed.

End BytesFacts.

(** ** The generator's [writeWav] *)

Module SynthWavFacts.
Import Synth Wav BytesFacts.

Lemma quantize_int16 (x : num) : int16 (sample_int (quantize x)).
Proof.
  unfold int16, sample_int, quantize, clampZ. destruct x; cbn; lia.
Qed.

Lemma writeInt16LE_next (x : num) (offset : nat) (done : list Z) (k : nat) :
  offset = length done -> (2 <= k)%nat ->
  writeInt16LE (quantize x) offset (done ++ replicate k 0%Z)
  = Returns ((done ++ le_bytes 2 (sample_int (quantize x))) ++ replicate (k - 2) 0%Z).
Proof.
  intros Ho Hk. pose proof (quantize_int16 x) as R. unfold int16 in R.
  unfold writeInt16LE. destruct (quantize x) as [v|]; cbn in *;
    now apply write_int_next.
Qed.

Lemma frames_loop (left right : list Q) (m : nat) :
  forall (i : nat) (done : list Z) (k : nat),
    length done = (44 + i * 4)%nat -> (4 * m <= k)%nat ->
    foldl (fun acc i => buffer ← acc; write_frame left right buffer i)
          (Returns (done ++ replicate k 0%Z)) (seq i m)
    = Returns ((done ++ mjoin (frame_at left right <$> seq i m))
               ++ replicate (k - 4 * m) 0%Z).
Proof.
  induction m as [|m IH]; intros i done k Hdone Hk.
  - cbn. rewrite app_nil_r, Nat.sub_0_r. reflexivity.
  - cbn [seq foldl]. cbn [mbind outcome_bind]. unfold write_frame.
    rewrite writeInt16LE_next by lia. cbn [mbind outcome_bind].
    rewrite writeInt16LE_next
      by (rewrite ?length_app, ?le_bytes_length; lia).
    rewrite IH by (rewrite ?length_app, ?le_bytes_length; lia).
    replace (k - 2 - 2 - 4 * m)%nat with (k - 4 * S m)%nat by lia.
    do 2 f_equal. rewrite fmap_cons. cbn [mjoin list_join].
    unfold frame_at at 2. now rewrite <- !app_assoc.
Qed.

Lemma writeWav_bytes (left right : list Q) (sr : Z) :
  (0 <= sr)%Z -> (sr * 4 <= 4294967295)%Z ->
  (36 + Z.of_nat (length left) * 4 <= 4294967295)%Z ->
  writeWav left right sr
  = Returns (wav_header 2 sr (length left)
             ++ mjoin (frame_at left right <$> seq 0 (length left))).
Proof.
  intros Hsr Hrate Hlen. unfold writeWav. cbv zeta.
  unfold write, writeUInt32LE, writeUInt16LE.
  set (n := length left) in *.
  change (replicate (44 + n * 4) 0%Z) with ([] ++ replicate (44 + n * 4) 0%Z).
  rewrite blit_at by side.
  rewrite write_int_next by side. cbn [mbind outcome_bind].
  rewrite blit_at by side.
  rewrite blit_at by side.
  do 5 (rewrite write_int_next by side; cbn [mbind outcome_bind]).
  do 2 (rewrite write_int_next by side; cbn [mbind outcome_bind]).
  rewrite blit_at by side.
  rewrite write_int_next by side. cbn [mbind outcome_bind].
  rewrite (frames_loop left right n 0) by side.
  f_equal.
  replace (44 + n * 4 - length (char_codes "RIFF") - 4 - length (char_codes "WAVE")
           - length (char_codes "fmt ") - 4 - 2 - 2 - 4 - 4 - 2 - 2
           - length (char_codes "data") - 4 - 4 * n)%nat with 0%nat by (cbn; lia).
  rewrite app_nil_r. f_equal.
Qed.

End SynthWavFacts.

(** ** The mixer's [_bufferToWav] *)

Module MixerWavFacts.
Import Wav Mixer BytesFacts.

Lemma view_set_next (width : nat) (v : Z) (offset : nat) (done : list Z) (k : nat) :
  offset = length done -> (width <= k)%nat ->
  view_set width offset v (done ++ replicate k 0%Z)
  = Returns ((done ++ le_bytes width v) ++ replicate (k - width) 0%Z).
Proof.
  intros -> Hk. unfold view_set.
  rewrite length_app, length_replicate.
  replace (length done + width <=? length done + k)%nat with true
    by (symmetry; apply Nat.leb_le; lia).
  rewrite blit_next by side. now rewrite le_bytes_length.
Qed.

Lemma samples_loop (channels : list (list Q)) (m : nat) :
  forall (i : nat) (done : list Z) (k index : nat),
    length done = (44 + index)%nat -> (4 * m <= k)%nat ->
    foldl (fun acc i =>
             foldl (fun acc channel =>
                      '(view, index) ← acc;
                      view ← setInt16 (44 + index) (intSample channels channel i) view;
                      mret (view, index + 2)%nat)
                   acc (seq 0 2))
          (Returns (done ++ replicate k 0%Z, index)) (seq i m)
    = Returns ((done ++ mjoin (frame_at channels <$> seq i m))
               ++ replicate (k - 4 * m) 0%Z, (index + 4 * m)%nat).
Proof.
  induction m as [|m IH]; intros i done k index Hdone Hk.
  - cbn. rewrite app_nil_r, Nat.sub_0_r, Nat.add_0_r. reflexivity.
  - cbn [seq foldl]. cbn [mbind outcome_bind]. unfold setInt16.
    rewrite view_set_next by side. cbn [mbind outcome_bind mret outcome_ret].
    rewrite view_set_next by side. cbn [mbind outcome_bind mret outcome_ret].
    rewrite IH by side.
    replace (k - 2 - 2 - 4 * m)%nat with (k - 4 * S m)%nat by lia.
    replace (index + 2 + 2 + 4 * m)%nat with (index + 4 * S m)%nat by lia.
    do 3 f_equal. rewrite fmap_cons. cbn [mjoin list_join].
    unfold frame_at at 2. now rewrite <- !app_assoc.
Qed.

Lemma write_codes_next (offset : nat) (cs : list Z) :
  forall (j : nat) (done : list Z) (k : nat),
    (offset + j)%nat = length done -> (length cs <= k)%nat ->
    foldl (fun acc '(i, c) => view ← acc; setUint8 (offset + i) c view)
          (Returns (done ++ replicate k 0%Z)) (imap (fun i c => ((j + i)%nat, c)) cs)
    = Returns ((done ++ mjoin (le_bytes 1 <$> cs)) ++ replicate (k - length cs) 0%Z).
Proof.
  induction cs as [|c cs IH]; intros j done k Hoff Hk.
  - cbn. now rewrite app_nil_r, Nat.sub_0_r.
  - rewrite imap_cons. cbn [foldl mbind outcome_bind]. unfold setUint8 at 2.
    rewrite view_set_next by (cbn in *; lia).
    rewrite (imap_ext _ (fun i c => ((S j + i)%nat, c))) by (intros; cbn; f_equal; lia).
    rewrite IH by (cbn in *; side).
    rewrite fmap_cons. cbn [mjoin list_join length].
    rewrite <- !app_assoc.
    replace (k - 1 - length cs)%nat with (k - S (length cs))%nat by lia. reflexivity.
Qed.

Lemma writeString_next (s : string) (offset : nat) (done : list Z) (k : nat) :
  offset = length done -> (length (char_codes s) <= k)%nat ->
  _writeString (done ++ replicate k 0%Z) offset s
  = Returns ((done ++ mjoin (le_bytes 1 <$> char_codes s))
             ++ replicate (k - length (char_codes s)) 0%Z).
Proof.
  intros Hoff Hk. unfold _writeString.
  rewrite (imap_ext _ (fun i c => ((0 + i)%nat, c))) by reflexivity.
  apply write_codes_next; [lia|exact Hk].
Qed.

Lemma bufferToWav_bytes (b : AudioBuffer) :
  numberOfChannels b = 2%nat ->
  _bufferToWav b
  = Returns (wav_header 2 (sampleRate b) (ab_length b)
             ++ mjoin (frame_at (channelData b) <$> seq 0 (ab_length b))).
Proof.
  intros Hch. unfold _bufferToWav. cbv zeta. rewrite Hch.
  set (n := ab_length b).
  replace (44 + Z.to_nat (Z.of_nat n * (Z.of_nat 2 * (16 / 8))))%nat
    with (44 + n * 4)%nat
    by (change (Z.of_nat 2 * (16 / 8))%Z with 4%Z; lia).
  change (Z.of_nat 2 * (16 / 8))%Z with 4%Z.
  unfold setUint16, setUint32.
  change (replicate (44 + n * 4) 0%Z) with ([] ++ replicate (44 + n * 4) 0%Z).
  repeat (first [rewrite view_set_next by side | rewrite writeString_next by side];
          cbn [mbind outcome_bind]).
  unfold write_samples.
  rewrite (samples_loop (channelData b) n 0) by side.
  cbn [fmap outcome_fmap fst]. f_equal.
  match goal with |- context [replicate ?k 0%Z] =>
    replace k with 0%nat by (cbn; lia) end.
  rewrite app_nil_r. f_equal.
Qed.

Lemma mixer_pcm16_int16 (x : Q) : int16 (Mixer.pcm16 x).
Proof.
  unfold int16, Mixer.pcm16, scale_sample.
  pose proof (clampQ_bounds (-1) 1 x ltac:(lra)) as [Hlo Hhi].
  destruct (Qltb (clampQ (-1) 1 x) 0) eqn:E.
  - apply Qltb_lt in E. apply Qtrunc_bounds.
    change (inject_Z (-32768)) with (-32768). change (inject_Z 32767) with 32767. lra.
  - apply Qtrunc_bounds.
    change (inject_Z (-32768)) with (-32768). change (inject_Z 32767) with 32767. lra.
Qed.


End MixerWavFacts.

(** ** The exported container *)

Module WavExportFacts.
Import Wav BytesFacts.

Lemma synth_frames_interleaved (leftChannel rightChannel : list Q) :
  length rightChannel = length leftChannel ->
  mjoin (Synth.frame_at leftChannel rightChannel <$> seq 0 (length leftChannel))
  = interleaved (Synth.pcm16 <$> leftChannel) (Synth.pcm16 <$> rightChannel).
Proof.
  intros Hlen. unfold interleaved. f_equal. apply list_eq. intros i.
  rewrite list_lookup_fmap, lookup_zip_with, !list_lookup_fmap.
  destruct (decide (i < length leftChannel)%nat) as [Hi|Hi].
  - rewrite lookup_seq_lt by exact Hi.
    destruct (lookup_lt_is_Some_2 leftChannel i Hi) as [x Hx].
    destruct (lookup_lt_is_Some_2 rightChannel i ltac:(lia)) as [y Hy].
    unfold Synth.frame_at. cbn -[le_bytes]. rewrite Hx, Hy. reflexivity.
  - rewrite lookup_seq_ge by lia.
    rewrite (lookup_ge_None_2 leftChannel i) by lia. reflexivity.
Qed.

Lemma mixer_frames_interleaved (l r : list Q) (n : nat) :
  length l = n -> length r = n ->
  mjoin (Mixer.frame_at [l; r] <$> seq 0 n)
  = interleaved (Mixer.pcm16 <$> l) (Mixer.pcm16 <$> r).
Proof.
  intros Hl Hr. unfold interleaved. f_equal. apply list_eq. intros i.
  rewrite list_lookup_fmap, lookup_zip_with, !list_lookup_fmap.
  destruct (decide (i < n)%nat) as [Hi|Hi].
  - rewrite lookup_seq_lt by exact Hi.
    destruct (lookup_lt_is_Some_2 l i ltac:(lia)) as [x Hx].
    destruct (lookup_lt_is_Some_2 r i ltac:(lia)) as [y Hy].
    unfold Mixer.frame_at, Mixer.intSample. cbn -[le_bytes]. rewrite Hx, Hy. reflexivity.
  - rewrite lookup_seq_ge by lia.
    rewrite (lookup_ge_None_2 l i) by lia. reflexivity.
Qed.

Lemma wav_header_length (channels rate : Z) (frames : nat) :
  length (wav_header channels rate frames) = 44%nat.
Proof. reflexivity. Qed.

Lemma clampQ_idem (x : Q) : clampQ (-1) 1 (clampQ (-1) 1 x) = clampQ (-1) 1 x.
Proof.
  unfold clampQ, Qmax, Qmin, GenericMinMax.gmax, GenericMinMax.gmin.
  destruct (1 ?= x) eqn:E1; destruct (-1 ?= x) eqn:E2; cbn;
    rewrite ?E1, ?E2; cbn; rewrite ?E1, ?E2; reflexivity.
Qed.

Lemma synth_pcm16_int16 (x : Q) : int16 (Synth.pcm16 x).
Proof. unfold int16, Synth.pcm16, clampZ. lia. Qed.

(** C4 (amended): an exported artifact is the 44-byte header (descriptors
    RIFF, WAVE, fmt and data, little-endian fields, two channels, 16 bits)
    followed by the samples in left, right order.  Every written sample is
    a signed 16-bit value that the two bytes decode back to, so nothing
    wraps around: the mixer clamps the float sample to [-1, 1] and then
    scales it, the generator scales and floors it and then clamps the
    integer to [-32768, 32767]. *)
Theorem wav_export_layout :
  (forall (leftChannel rightChannel : list Q) (rate : Z),
     (0 <= rate)%Z -> (rate * 4 <= 4294967295)%Z ->
     (36 + Z.of_nat (length leftChannel) * 4 <= 4294967295)%Z ->
     length rightChannel = length leftChannel ->
     Synth.writeWav leftChannel rightChannel rate
     = Returns (wav_header 2 rate (length leftChannel)
                ++ interleaved (Synth.pcm16 <$> leftChannel)
                               (Synth.pcm16 <$> rightChannel))) /\
  (forall (b : Mixer.AudioBuffer) (l r : list Q),
     Mixer.numberOfChannels b = 2%nat -> Mixer.channelData b = [l; r] ->
     length l = Mixer.ab_length b -> length r = Mixer.ab_length b ->
     Mixer._bufferToWav b
     = Returns (wav_header 2 (Mixer.sampleRate b) (Mixer.ab_length b)
                ++ interleaved (Mixer.pcm16 <$> l) (Mixer.pcm16 <$> r))) /\
  (forall (channels rate : Z) (frames : nat),
     length (wav_header channels rate frames) = 44%nat) /\
  (forall x : Q,
     Synth.pcm16 x = clampZ (-32768) 32767 (Qfloor (x * 32767)) /\
     Mixer.pcm16 x = Qtrunc (Mixer.scale_sample (clampQ (-1) 1 x)) /\
     int16 (Synth.pcm16 x) /\ int16 (Mixer.pcm16 x)) /\
  (forall v : Z, int16 v ->
     exists lo hi, le_bytes 2 v = [lo; hi] /\ (0 <= lo < 256)%Z /\ (0 <= hi < 256)%Z /\
                   int16_of_le lo hi = v).
Proof.
  split; [|split; [|split; [|split]]].
  - intros leftChannel rightChannel rate H0 H1 H2 Hlen.
    rewrite SynthWavFacts.writeWav_bytes by assumption.
    now rewrite synth_frames_interleaved.
  - intros b l r Hch Hdata Hl Hr.
    rewrite MixerWavFacts.bufferToWav_bytes by assumption.
    rewrite Hdata. now rewrite (mixer_frames_interleaved l r).
  - apply wav_header_length.
  - intros x. split; [reflexivity|]. split; [|split].
    + unfold Mixer.pcm16, Mixer.scale_sample. now rewrite clampQ_idem.
    + apply synth_pcm16_int16.
    + apply MixerWavFacts.mixer_pcm16_int16.
  - apply int16_round_trip.
Qed.

Lemma wav_export_layout_witness :
  Synth.writeWav [1; -2; 1 # 2] [-1; 2; -1 # 2] 44100
  = Returns (wav_header 2 44100 3
             ++ interleaved (Synth.pcm16 <$> [1; -2; 1 # 2])
                            (Synth.pcm16 <$> [-1; 2; -1 # 2])) /\
  Mixer._bufferToWav
    {| Mixer.numberOfChannels := 2; Mixer.sampleRate := 44100;
       Mixer.ab_length := 3;
       Mixer.channelData := [[1; -2; 1 # 2]; [-1; 2; -1 # 2]] |}
  = Returns (wav_header 2 44100 3
             ++ interleaved (Mixer.pcm16 <$> [1; -2; 1 # 2])
                            (Mixer.pcm16 <$> [-1; 2; -1 # 2])) /\
  exists lo hi, le_bytes 2 (-32768) = [lo; hi] /\ (0 <= lo < 256)%Z /\
                (0 <= hi < 256)%Z /\ int16_of_le lo hi = (-32768)%Z.
Proof.
  destruct wav_export_layout as (Hsynth & Hmixer & _ & _ & Hdecode).
  split; [|split].
  - apply Hsynth; [lia|lia|cbn; lia|reflexivity].
  - exact (Hmixer {| Mixer.numberOfChannels := 2; Mixer.sampleRate := 44100;
                     Mixer.ab_length := 3;
                     Mixer.channelData := [[1; -2; 1 # 2]; [-1; 2; -1 # 2]] |}
                  [1; -2; 1 # 2] [-1; 2; -1 # 2] eq_refl eq_refl eq_refl eq_refl).
  - apply Hdecode. unfold int16. lia.
Defined.

Example writeWav_saturates :
  Synth.pcm16 <$> [1; -1; 3; -2; 1 # 2] = [32767; -32767; 32767; -32768; 16383]%Z /\
  Mixer.pcm16 <$> [1; -1; 3; -2; 1 # 2] = [32767; -32768; 32767; -32768; 16383]%Z.
Proof. split; reflexivity. Qed.

(** C4 (as stated) fails for the generator's writer: the sample -2 is
    written as -32768 (bytes 00 80) while the clamped sample -1 is written
    as -32767 (bytes 01 80). *)
Lemma writeWav_not_clamped_before_quantization :
  ~ Mixer.clamped_before_quantization.
Proof.
  intros [H _]. specialize (H [-2] [-2] 44100%Z).
  vm_compute in H. discriminate H.
Qed.

End WavExportFacts.

(** ** Sample buffers as shared objects *)

Module StoreFacts.
Import Store.

Lemma alloc_fresh (samples : list Q) (σ : store) :
  derives_fresh_buffer (fun _ σ => Some (alloc samples σ)).
Proof.
  intros buffer σ0 _. unfold alloc.
  pose proof (is_fresh (dom σ0)) as Hfresh.
  apply not_elem_of_dom in Hfresh.
  eexists _, _. split; [reflexivity|].
  split; [exact Hfresh|].
  split; [rewrite lookup_insert_eq; eauto|].
  intros l s Hl. rewrite lookup_insert_ne; [exact Hl|congruence].
Qed.

Lemma alloc_after_read (f : list Q -> list Q) :
  derives_fresh_buffer (fun b σ => samples ← σ !! b; Some (alloc (f samples) σ)).
Proof.
  intros buffer σ [samples Hb]. rewrite Hb. cbn.
  exact (alloc_fresh (f samples) σ buffer σ (ex_intro _ _ Hb)).
Qed.

Lemma lowpass_fresh (PI cutoff sampleRate : Q) :
  derives_fresh_buffer (fun b => lowpass PI b cutoff sampleRate).
Proof. exact (alloc_after_read (fun s => Synth.lowpass PI s cutoff sampleRate)). Qed.

Lemma applyEnvelope_fresh (attack decay sustain release duration : Q) :
  derives_fresh_buffer (fun b => applyEnvelope b attack decay sustain release duration).
Proof.
  exact (alloc_after_read
           (fun s => Synth.applyEnvelope s attack decay sustain release duration)).
Qed.

Lemma scale_channels (scale : Q) (channels : list ref) :
  forall σ : store,
    NoDup channels ->
    let σ' := foldl (fun σ ch => alter (fmap (fun x => x * scale)) ch σ) σ channels in
    (forall ch samples, ch ∈ channels -> σ !! ch = Some samples ->
       σ' !! ch = Some ((fun x => x * scale) <$> samples)) /\
    (forall l, l ∉ channels -> σ' !! l = σ !! l).
Proof.
  induction channels as [|c rest IH]; intros σ Hnd; cbn.
  - split; [intros ch s Hin; inversion Hin|reflexivity].
  - apply NoDup_cons in Hnd as [Hc Hnd].
    destruct (IH (alter (fmap (fun x => x * scale)) c σ) Hnd) as [IH1 IH2].
    split.
    + intros ch samples Hin Hch. apply elem_of_cons in Hin as [->|Hin].
      * rewrite IH2 by exact Hc. now rewrite lookup_alter_eq, Hch.
      * apply IH1; [exact Hin|]. rewrite lookup_alter_ne; [exact Hch|].
        intros ->. contradiction.
    + intros l Hl. apply not_elem_of_cons in Hl as [Hne Hl].
      rewrite IH2 by exact Hl. now rewrite lookup_alter_ne.
Qed.

(** C9 (amended): [lowpass] and [applyEnvelope] always return a newly
    allocated buffer, and [normalize] does so unless the input's peak is 0,
    in which case it returns the input buffer itself; none of the three
    changes a sample of an existing buffer.  The mixer's [_normalizeBuffer]
    rescales the channel arrays of its argument in place when the peak
    exceeds 1, and changes nothing otherwise. *)
Theorem derived_buffers (PI : Q) :
  (forall cutoff sampleRate,
     derives_fresh_buffer (fun b => lowpass PI b cutoff sampleRate)) /\
  (forall attack decay sustain release duration,
     derives_fresh_buffer
       (fun b => applyEnvelope b attack decay sustain release duration)) /\
  (forall target buffer σ samples, σ !! buffer = Some samples ->
     (Synth.peak samples == 0 -> normalize buffer target σ = Some (buffer, σ)) /\
     (~ Synth.peak samples == 0 ->
        exists r σ', normalize buffer target σ = Some (r, σ') /\
          σ !! r = None /\
          σ' !! r = Some (Synth.normalize samples target) /\
          (forall l s, σ !! l = Some s -> σ' !! l = Some s))) /\
  (forall channels σ, NoDup channels ->
     match Mixer.normalize_scale ((fun ch => default [] (σ !! ch)) <$> channels) with
     | Some scale =>
         (forall ch samples, ch ∈ channels -> σ !! ch = Some samples ->
            _normalizeBuffer channels σ !! ch = Some ((fun x => x * scale) <$> samples)) /\
         (forall l, l ∉ channels -> _normalizeBuffer channels σ !! l = σ !! l)
     | None => _normalizeBuffer channels σ = σ
     end).
Proof.
  split; [intros; apply lowpass_fresh|].
  split; [intros; apply applyEnvelope_fresh|].
  split.
  - intros target buffer σ samples Hb. unfold normalize. rewrite Hb. cbn.
    split.
    + intros Hz. apply Qeq_bool_iff in Hz. now rewrite Hz.
    + intros Hnz. destruct (Qeq_bool (Synth.peak samples) 0) eqn:E.
      { apply Qeq_bool_iff in E. contradiction. }
      destruct (alloc_fresh (Synth.normalize samples target) σ buffer σ
                  (ex_intro _ _ Hb)) as (r & σ' & Heq & Hnew & _ & Hold).
      injection Heq as <- <-.
      eexists _, _. split; [reflexivity|]. split; [exact Hnew|].
      split; [unfold alloc; cbn; now rewrite lookup_insert_eq|exact Hold].
  - intros channels σ Hnd. unfold _normalizeBuffer.
    destruct (Mixer.normalize_scale _) as [scale|]; [|reflexivity].
    exact (scale_channels scale channels σ Hnd).
Qed.

Lemma derived_buffers_witness :
  normalize 0%nat (9 # 10) {[ 0%nat := [0; 0] ]} = Some (0%nat, {[ 0%nat := [0; 0] ]}) /\
  _normalizeBuffer [0%nat; 1%nat] {[ 0%nat := [2; -1]; 1%nat := [1; 0] ]} !! 0%nat
  = Some ((fun x => x * ((99 # 100) / 2)) <$> [2; -1]).
Proof.
  destruct (derived_buffers 0) as (_ & _ & Hnorm & Hmix).
  split.
  - apply (Hnorm (9 # 10) 0%nat {[ 0%nat := [0; 0] ]} [0; 0]); reflexivity.
  - specialize (Hmix [0%nat; 1%nat] {[ 0%nat := [2; -1]; 1%nat := [1; 0] ]}).
    destruct Hmix as [H _].
    + apply NoDup_cons. split; [|apply NoDup_singleton].
      rewrite list_elem_of_singleton. discriminate.
    + apply H; [apply list_elem_of_here|reflexivity].
Defined.

(** C9 (as stated) fails: [_normalizeBuffer] overwrites the samples of the
    buffer it is given, and [normalize] hands an all-zero input back instead
    of a new buffer. *)
Lemma normalizeBuffer_mutates_in_place :
  _normalizeBuffer [0%nat] {[ 0%nat := [2; -1] ]} !! 0%nat
  = Some [2 * ((99 # 100) / 2); -1 * ((99 # 100) / 2)] /\
  normalize 0%nat (9 # 10) {[ 0%nat := [0; 0] ]} = Some (0%nat, {[ 0%nat := [0; 0] ]}) /\
  ~ derived_buffers_are_new.
Proof.
  split; [reflexivity|]. split; [reflexivity|].
  intros (_ & _ & _ & H).
  specialize (H [0%nat] {[ 0%nat := [2; -1] ]} 0%nat [2; -1] eq_refl).
  vm_compute in H. discriminate H.
Qed.

End StoreFacts.

(** ** The avatar state machine *)

Module AvatarFacts.
Import Avatar.

Lemma states_get_valid (state : string) :
  state ∈ the_states ->
  exists c, states !! state = Some c /\ states_get state = Some (Config c).
Proof.
  unfold the_states. rewrite !elem_of_cons, elem_of_nil.
  intros [->|[->|[->|[]]]]; eexists; split; reflexivity.
Qed.

Lemma particleCount_le_max (state : string) (c : state_config) :
  states !! state = Some c -> (particleCount c <= 35)%nat.
Proof.
  unfold states. intros H.
  apply lookup_insert_Some in H as [[_ <-]|[_ H]]; [cbn; lia|].
  apply lookup_insert_Some in H as [[_ <-]|[_ H]]; [cbn; lia|].
  apply lookup_singleton_Some in H as [_ <-]. cbn; lia.
Qed.

Lemma particleSpeed_pos (state : string) (c : state_config) :
  states !! state = Some c -> 0 < particleSpeed c.
Proof.
  unfold states. intros H.
  apply lookup_insert_Some in H as [[_ <-]|[_ H]]; [reflexivity|].
  apply lookup_insert_Some in H as [[_ <-]|[_ H]]; [reflexivity|].
  apply lookup_singleton_Some in H as [_ <-]. reflexivity.
Qed.

Lemma imap_prefix {A : Type} (f : A -> A) (l : list A) :
  forall n : nat,
    imap (fun i x => if (i <? n)%nat then f x else x) l = (f <$> take n l) ++ drop n l.
Proof.
  induction l as [|x l IH]; intros n.
  - now rewrite take_nil, drop_nil.
  - rewrite imap_cons. destruct n as [|n].
    + cbn. f_equal. rewrite (imap_ext _ (fun _ x => x)) by reflexivity.
      clear. induction l as [|y l IH]; [reflexivity|].
      rewrite imap_cons. f_equal. exact IH.
    + cbn. f_equal. rewrite <- IH. apply imap_ext. reflexivity.
Qed.

Section Tick.
Variable sin : Q -> Q.
Variable PI : Q.
Variable random : nat -> Q.

Lemma update_returns (deltaTime : Q) (a : avatar) (ps : list particle) :
  update_particles sin (stateConfig a) (radius a) (time a + deltaTime) (particles a)
  = Returns ps ->
  exists a', update sin PI random deltaTime a = Returns a' /\
             particles a' = ps /\ currentState a' = currentState a /\
             stateConfig a' = stateConfig a.
Proof.
  intros H. unfold update. cbv zeta. rewrite H. cbn [mbind outcome_bind].
  destruct (String.eqb (currentState a) "talking");
    destruct (has_spikes (stateConfig a));
    repeat match goal with |- context [if Qltb ?x ?y then _ else _] =>
             destruct (Qltb x y) end;
    eexists; (split; [reflexivity|]); cbn; auto.
Qed.

(** C6: after [setState(s)] with [s] one of idle, talking and executing,
    [getState()] is [s] and the pulse phase is 0, and the next [update]
    advances exactly the first [particleCount] particles of [s]'s
    configuration, with [s]'s particle speed, and leaves the others as they
    were. *)
Theorem setState_then_update (s : string) (a : avatar) (deltaTime : Q) :
  s ∈ the_states -> length (particles a) = 35%nat ->
  exists c a1 a2,
    states !! s = Some c /\
    setState s a = Returns a1 /\
    getState a1 = s /\ pulsePhase a1 = Some 0 /\ stateConfig a1 = Config c /\
    update sin PI random deltaTime a1 = Returns a2 /\
    particles a2
    = (advance sin c (radius a) (time a + deltaTime) <$> take (particleCount c) (particles a))
      ++ drop (particleCount c) (particles a) /\
    length (take (particleCount c) (particles a)) = particleCount c /\
    (forall p, 0 < speed p ->
       angle p < angle (advance sin c (radius a) (time a + deltaTime) p)).
Proof.
  intros Hs Hlen.
  destruct (states_get_valid s Hs) as (c & Hc & Hget).
  pose proof (particleCount_le_max s c Hc) as Hmax.
  pose proof (particleSpeed_pos s c Hc) as Hspeed.
  set (a1 := {| currentState := s; stateConfig := Config c;
                pulsePhase := Some 0; rotationAngle := rotationAngle a;
                time := time a; particles := particles a;
                soundWaves := soundWaves a; radius := radius a; draws := draws a;
                console := console a |}).
  destruct (update_returns deltaTime a1
              (imap (fun i p => if (i <? particleCount c)%nat
                                then advance sin c (radius a) (time a + deltaTime) p
                                else p) (particles a))) as (a2 & Hup & Hps & _).
  { cbn. rewrite Hlen.
    destruct (Nat.leb_spec (particleCount c) 35); [reflexivity|lia]. }
  exists c, a1, a2.
  split; [exact Hc|].
  split; [unfold setState; now rewrite Hget|].
  split; [reflexivity|]. split; [reflexivity|]. split; [reflexivity|].
  split; [exact Hup|].
  split; [rewrite Hps; apply imap_prefix|].
  split; [rewrite length_take; lia|].
  intros p Hp. cbn. nra.
Qed.

End Tick.

Lemma setState_then_update_witness :
  exists c a1 a2,
    states !! "executing" = Some c /\
    setState "executing" (new_avatar 3 (fun _ => 1 # 2)) = Returns a1 /\
    getState a1 = "executing" /\ pulsePhase a1 = Some 0 /\ stateConfig a1 = Config c /\
    update (fun _ => 0) 3 (fun _ => 1 # 2) 16 a1 = Returns a2 /\
    particles a2
    = (advance (fun _ => 0) c (radius (new_avatar 3 (fun _ => 1 # 2)))
               (time (new_avatar 3 (fun _ => 1 # 2)) + 16)
       <$> take (particleCount c) (particles (new_avatar 3 (fun _ => 1 # 2))))
      ++ drop (particleCount c) (particles (new_avatar 3 (fun _ => 1 # 2))) /\
    length (take (particleCount c) (particles (new_avatar 3 (fun _ => 1 # 2))))
    = particleCount c /\
    (forall p, 0 < speed p ->
       angle p < angle (advance (fun _ => 0) c (radius (new_avatar 3 (fun _ => 1 # 2)))
                                (time (new_avatar 3 (fun _ => 1 # 2)) + 16) p)).
Proof.
  apply (setState_then_update (fun _ => 0) 3 (fun _ => 1 # 2) "executing"
           (new_avatar 3 (fun _ => 1 # 2)) 16).
  - unfold the_states. apply list_elem_of_further, list_elem_of_further, list_elem_of_here.
  - reflexivity.
Defined.

Example idle_tick_advances_twelve :
  forall a2,
    update (fun _ => 0) 3 (fun _ => 1 # 2) 16 (new_avatar 3 (fun _ => 1 # 2)) = Returns a2 ->
    drop 12 (particles a2) = drop 12 (particles (new_avatar 3 (fun _ => 1 # 2))) /\
    length (take 12 (particles a2)) = 12%nat.
Proof.
  intros a2 H. vm_compute in H. injection H as <-. split; reflexivity.
Qed.

(** The particle array keeps the length the constructor gives it. *)
Lemma new_avatar_particles (PI : Q) (random : nat -> Q) :
  length (particles (new_avatar PI random)) = 35%nat.
Proof. reflexivity. Qed.

Lemma setState_particles (state : string) (a a' : avatar) :
  setState state a = Returns a' -> particles a' = particles a.
Proof.
  unfold setState. destruct (states_get state); intros H; injection H as <-; reflexivity.
Qed.

(** *** Rejected and accepted names *)

Lemma setState_total (state : string) (a : avatar) :
  exists a', setState state a = Returns a'.
Proof. unfold setState. destruct (states_get state); eexists; reflexivity. Qed.

(** C7 (amended): [setState] never fails and there is no UnknownState
    error.  A name for which the state table has no entry is ignored: the
    call returns normally, logs the warning "Unknown state: <name>" and
    leaves the state, the configuration and the pulse phase as they were.
    A call with idle, talking or executing always succeeds: it logs nothing
    and switches to that state and its configuration. *)
Theorem setState_warns_and_returns (state : string) (a : avatar) :
  (forall e, setState state a <> Throws e) /\
  (states_get state = None ->
     exists a', setState state a = Returns a' /\
                console a' = console a ++ ["Unknown state: " +:+ state] /\
                observable a' = observable a) /\
  (state ∈ the_states ->
     exists c a', states !! state = Some c /\ setState state a = Returns a' /\
                  console a' = console a /\
                  observable a' = (state, Config c, Some 0)).
Proof.
  split; [|split].
  - intros e. destruct (setState_total state a) as [a' ->]. discriminate.
  - intros Hnone. unfold setState. rewrite Hnone.
    eexists. split; [reflexivity|]. split; reflexivity.
  - intros Hs. destruct (states_get_valid state Hs) as (c & Hc & Hget).
    unfold setState. rewrite Hget.
    exists c. eexists. split; [exact Hc|]. split; [reflexivity|]. split; reflexivity.
Qed.

Lemma setState_warns_and_returns_witness :
  (exists a', setState "dancing" (new_avatar 3 (fun _ => 1 # 2)) = Returns a' /\
              console a' = console (new_avatar 3 (fun _ => 1 # 2))
                           ++ ["Unknown state: " +:+ "dancing"] /\
              observable a' = observable (new_avatar 3 (fun _ => 1 # 2))) /\
  (exists c a', states !! "talking" = Some c /\
                setState "talking" (new_avatar 3 (fun _ => 1 # 2)) = Returns a' /\
                console a' = console (new_avatar 3 (fun _ => 1 # 2)) /\
                observable a' = ("talking", Config c, Some 0)).
Proof.
  split.
  - destruct (setState_warns_and_returns "dancing" (new_avatar 3 (fun _ => 1 # 2)))
      as (_ & H & _).
    apply H. reflexivity.
  - destruct (setState_warns_and_returns "talking" (new_avatar 3 (fun _ => 1 # 2)))
      as (_ & _ & H).
    apply H. unfold the_states. apply list_elem_of_further, list_elem_of_here.
Defined.

(** C7 (as stated) fails: a call with the unknown name "dancing" does not
    fail, it returns after logging a warning. *)
Lemma setState_unknown_name_returns :
  (exists a', setState "dancing" (new_avatar 3 (fun _ => 1 # 2)) = Returns a' /\
              console a' = ["Unknown state: dancing"]) /\
  ~ setState_rejects_unknown.
Proof.
  split.
  - eexists. split; reflexivity.
  - intros H. destruct (H "dancing" (new_avatar 3 (fun _ => 1 # 2))) as [Hthrow _].
    assert (Hnot : "dancing" ∉ the_states).
    { unfold the_states. rewrite !not_elem_of_cons. repeat split; try discriminate.
      apply not_elem_of_nil. }
    specialize (Hthrow Hnot). discriminate Hthrow.
Qed.

(** C10: the name "constructor" is not a state, yet [this.states] resolves
    it to a member of [Object.prototype], the guard lets it pass and the
    avatar changes: the state becomes "constructor", the configuration a
    value without any of the fields, and the pulse phase is reset to 0. *)
Theorem setState_accepts_inherited_name :
  let a := {| currentState := "talking"; stateConfig := Config talking;
              pulsePhase := Some (3 # 2); rotationAngle := Some 1; time := 100;
              particles := []; soundWaves := []; radius := 40; draws := 0;
              console := [] |} in
  ("constructor" ∉ the_states) /\
  (setState "constructor" a
   = Returns {| currentState := "constructor"; stateConfig := Inherited "constructor";
               pulsePhase := Some 0; rotationAngle := Some 1; time := 100;
               particles := []; soundWaves := []; radius := 40; draws := 0;
               console := [] |}) /\
  ~ unknown_state_changes_nothing.
Proof.
  intros a.
  assert (Hnot : "constructor" ∉ the_states).
  { unfold the_states. rewrite !not_elem_of_cons. repeat split; try discriminate.
    apply not_elem_of_nil. }
  split; [exact Hnot|]. split; [reflexivity|].
  intros H. specialize (H "constructor" a _ Hnot eq_refl). discriminate H.
Qed.

End AvatarFacts.

(** ** The caption's word reveal *)

Module CaptionFacts.
Import Text Caption.

Lemma split_nonempty (sep : ascii) (s : string) : (1 <= length (split sep s))%nat.
Proof.
  induction s as [|c rest IH]; cbn; [lia|].
  destruct (Ascii.eqb c sep); [cbn; lia|].
  destruct (split sep rest); cbn in *; lia.
Qed.









Example caption_counts :
  Batch.visible "a b c d e f g h" 30 4 <$> [0; 1; 2; 3; 4]
  = [3; 5; 7; 8; 8]%nat /\
  Live.visible "a b c d e f g h" 50 <$> [0; 49; 50; 120; 400; 5000]
  = [0; 0; 1; 2; 8; 8]%nat.
Proof. split; reflexivity. Qed.


End CaptionFacts.

(** ** The headless frame generator *)

Module BatchFacts.
Import Text Canvas Batch.



Lemma keeps_emit_shape (m : mode) (s : context -> shape) : keeps shape_of (emit m s).
Proof. intros ctx. reflexivity. Qed.



Section Rendering.
Variable sin : Q -> Q.
Variable PI : Q.
Variable measureText : string -> string -> Q.





Lemma context_eq (a b : context) :
  cwidth a = cwidth b -> cheight a = cheight b -> state a = state b ->
  stack a = stack b -> path a = path b -> drawn a = drawn b -> a = b.
Proof. destruct a, b; cbn; intros; subst; reflexivity. Qed.
















End Rendering.


Example first_frame_of_a_gradient_video :
  let config := {| id := "sample"; title := "Hello"; caption := "Hello world";
                   bg := Gradient "#4f46e5" "#06b6d4"; duration := 5 |} in
  let measure := fun (_ : string) (text : string) =>
                   inject_Z (Z.of_nat (String.length text)) * 26 in
  (fun p => (how p, what p)) <$> take 3 (frame_content (fun _ => 0) 3 measure config 0)
  = [ (Fill, Rect 0 0 1080 1920);
      (Stroke, Glyphs "Hello world" (1080 / 2) (1920 - 350 + 0 * 70));
      (Fill, Glyphs "Hello world" (1080 / 2) (1920 - 350 + 0 * 70)) ].
Proof. reflexivity. Qed.

End BatchFacts.

(** ** Oscillators, envelope and filter of the music generator *)

Module WavesFacts.
Import Synth Waves SynthFacts BytesFacts.








Section Oscillators.
Variable sin : Q -> Q.
Variable PI : Q.
Variable random : nat -> Q.



(** X3: a generator asked for a negative number of samples (a duration and
    a sample rate of opposite signs) raises a range error. *)
Theorem negative_duration_throws (draws : nat) (frequency duration sampleRate : Q) :
  duration * sampleRate < 0 ->
  sineWave sin PI frequency duration sampleRate = Throws RangeError /\
  triangleWave frequency duration sampleRate = Throws RangeError /\
  sawtoothWave frequency duration sampleRate = Throws RangeError /\
  squareWave frequency duration sampleRate = Throws RangeError /\
  noise random draws duration sampleRate = Throws RangeError.
Proof.
  intros H.
  assert (Hn : (Qfloor (duration * sampleRate) <? 0)%Z = true).
  { apply Z.ltb_lt. pose proof (Qfloor_le (duration * sampleRate)) as Hle.
    assert (inject_Z (Qfloor (duration * sampleRate)) < inject_Z 0) as Hlt
      by (change (inject_Z 0) with 0; lra).
    now rewrite <- Zlt_Qlt in Hlt. }
  unfold sineWave, triangleWave, sawtoothWave, squareWave, noise, generate. cbv zeta.
  rewrite Hn. repeat split; reflexivity.
Qed.

End Oscillators.


Example one_second_at_eight_hertz :
  (fun b : list Q => Qred <$> b) <$> triangleWave 2 1 8
  = Returns [1; 0; -1; 0; 1; 0; -1; 0] /\
  (fun b : list Q => Qred <$> b) <$> sawtoothWave 2 1 8
  = Returns [-1; -1 # 2; 0; 1 # 2; -1; -1 # 2; 0; 1 # 2] /\
  squareWave 2 1 8 = Returns [1; 1; -1; -1; 1; 1; -1; -1].
Proof. vm_compute. repeat split; reflexivity. Qed.


Lemma negative_duration_throws_witness :
  sineWave (fun x => x) 3 440 (-1) 44100 = Throws RangeError /\
  triangleWave 440 (-1) 44100 = Throws RangeError /\
  sawtoothWave 440 (-1) 44100 = Throws RangeError /\
  squareWave 440 (-1) 44100 = Throws RangeError /\
  noise (fun _ => 0) 0 (-1) 44100 = Throws RangeError.
Proof.
  apply (negative_duration_throws (fun x => x) 3 (fun _ => 0) 0 440 (-1) 44100).
  reflexivity.
Defined.

(** *** The envelope never amplifies *)

Lemma inject_Z_nonneg (z : Z) : (0 <= z)%Z -> 0 <= inject_Z z.
Proof. intros H. change 0 with (inject_Z 0). now rewrite <- Zle_Qle. Qed.

Lemma ratio_range (k n : Z) :
  (0 <= k < n)%Z -> 0 <= inject_Z k / inject_Z n /\ inject_Z k / inject_Z n < 1.
Proof.
  intros H.
  assert (0 <= inject_Z k) by (apply inject_Z_nonneg; lia).
  assert (0 < inject_Z n) by (apply inject_Z_pos; lia).
  assert (inject_Z k < inject_Z n) by (rewrite <- Zlt_Qlt; lia).
  split; [apply Qle_shift_div_l; lra|apply Qlt_shift_div_r; lra].
Qed.

Lemma envelope_gain_range (len : nat) (attack decay sustain release : Q) (i : Z) :
  0 <= attack -> 0 <= decay -> 0 <= release -> 0 <= sustain <= 1 ->
  (0 <= i < Z.of_nat len)%Z ->
  0 <= envelope_gain len attack decay sustain release i <= 1.
Proof.
  intros Ha Hd Hr Hs Hi. unfold envelope_gain.
  split; [apply Q.le_max_l|]. apply Q.max_lub; [lra|].
  pose proof (samples_nonneg attack Ha) as Na.
  pose proof (samples_nonneg decay Hd) as Nd.
  pose proof (samples_nonneg release Hr) as Nr.
  unfold amp, sustainSamples_of, attackSamples_of, decaySamples_of, releaseSamples_of in *.
  set (a := Qfloor (attack * SAMPLE_RATE)) in *.
  set (d := Qfloor (decay * SAMPLE_RATE)) in *.
  set (r := Qfloor (release * SAMPLE_RATE)) in *.
  destruct (Z.ltb_spec i a) as [H1|H1].
  - destruct (ratio_range i a) as [? ?]; [lia|lra].
  - destruct (Z.ltb_spec i (a + d)) as [H2|H2].
    + destruct (ratio_range (i - a) d) as [L U]; [lia|].
      set (k := inject_Z (i - a)) in *. set (D := inject_Z d) in *.
      assert (E : (1 - sustain) * k / D == (1 - sustain) * (k / D))
        by (unfold Qdiv; ring).
      rewrite E. nra.
    + destruct (Z.ltb_spec i (a + d + (Z.of_nat len - a - d - r))) as [H3|H3]; [lra|].
      destruct (ratio_range (i - a - d - (Z.of_nat len - a - d - r)) r) as [L U]; [lia|].
      set (q := inject_Z (i - a - d - (Z.of_nat len - a - d - r)) / inject_Z r) in *.
      nra.
Qed.

(** X4: for non-negative attack, decay and release times of any length
    (also when they add up to more than the buffer lasts) and a sustain
    level in [0, 1], every output sample of [applyEnvelope] is the input
    sample times a gain in [0, 1]: the envelope keeps the sample count,
    never amplifies and never inverts a sample. *)
Theorem applyEnvelope_never_amplifies
    (buffer : list Q) (attack decay sustain release duration : Q) :
  0 <= attack -> 0 <= decay -> 0 <= release -> 0 <= sustain <= 1 ->
  let out := applyEnvelope buffer attack decay sustain release duration in
  length out = length buffer /\
  forall (i : nat) (x : Q), buffer !! i = Some x ->
    exists g, 0 <= g <= 1 /\ out !! i = Some (x * g) /\ Qabs (x * g) <= Qabs x.
Proof.
  intros Ha Hd Hr Hs out. split; [apply applyEnvelope_length|].
  intros i x Hx. pose proof (lookup_lt_Some _ _ _ Hx) as Hi.
  destruct (envelope_gain_range (length buffer) attack decay sustain release
              (Z.of_nat i) Ha Hd Hr Hs ltac:(lia)) as [Hlo Hhi].
  eexists. split; [split; [exact Hlo|exact Hhi]|].
  split.
  - unfold out, applyEnvelope. rewrite list_lookup_imap, Hx. reflexivity.
  - rewrite Qabs_Qmult.
    rewrite (Qabs_pos (envelope_gain _ _ _ _ _ _)) by exact Hlo.
    pose proof (Qabs_nonneg x). nra.
Qed.

Lemma applyEnvelope_never_amplifies_witness :
  let out := applyEnvelope [1; -1; 1; -1] (2 # 44100) (2 # 44100) (1 # 2) (3 # 44100)
               (4 # 44100) in
  length out = length [1; -1; 1; -1] /\
  forall (i : nat) (x : Q), [1; -1; 1; -1] !! i = Some x ->
    exists g, 0 <= g <= 1 /\ out !! i = Some (x * g) /\ Qabs (x * g) <= Qabs x.
Proof.
  apply (applyEnvelope_never_amplifies [1; -1; 1; -1] (2 # 44100) (2 # 44100) (1 # 2)
           (3 # 44100) (4 # 44100));
    try (split; discriminate); discriminate.
Defined.

Example envelope_longer_than_buffer :
  Qred <$> applyEnvelope [1; -1; 1; -1] (2 # 44100) (2 # 44100) (1 # 2) (3 # 44100)
             (4 # 44100)
  = [0; -1 # 2; 1; -3 # 4].
Proof. vm_compute. reflexivity. Qed.

(** *** The low-pass filter *)

Lemma lowpass_alpha_range (PI cutoff sampleRate : Q) :
  0 < PI -> 0 < cutoff -> 0 < sampleRate ->
  0 < lowpass_alpha PI cutoff sampleRate /\ lowpass_alpha PI cutoff sampleRate < 1.
Proof.
  intros HP Hc Hs. unfold lowpass_alpha. cbv zeta.
  assert (Hrc : 0 < 1 / (2 * PI * cutoff)) by (apply Qlt_shift_div_l; nra).
  assert (Hdt : 0 < 1 / sampleRate) by (apply Qlt_shift_div_l; lra).
  set (rc := 1 / (2 * PI * cutoff)) in *. set (dt := 1 / sampleRate) in *.
  split; [apply Qlt_shift_div_l; lra|apply Qlt_shift_div_r; lra].
Qed.

Lemma blend_bound (alpha prev x M : Q) :
  0 <= alpha <= 1 -> Qabs prev <= M -> Qabs x <= M ->
  Qabs (prev + alpha * (x - prev)) <= M.
Proof.
  intros Ha Hp Hx.
  apply Qabs_Qle_condition in Hp. apply Qabs_Qle_condition in Hx.
  apply Qabs_Qle_condition. split; nra.
Qed.

Lemma lowpass_loop_bound (alpha M : Q) (rest : list Q) :
  0 <= alpha <= 1 -> Forall (fun x => Qabs x <= M) rest ->
  forall prev, Qabs prev <= M ->
    Forall (fun y => Qabs y <= M) (lowpass_loop alpha prev rest).
Proof.
  intros Ha. induction 1 as [|x rest Hx _ IH]; intros prev Hp; cbn; constructor.
  - now apply blend_bound.
  - apply IH. now apply blend_bound.
Qed.

Lemma lowpass_loop_length (alpha : Q) (rest : list Q) :
  forall prev, length (lowpass_loop alpha prev rest) = length rest.
Proof. induction rest as [|x rest IH]; intros prev; cbn; [reflexivity|now rewrite IH]. Qed.

Lemma lowpass_loop_constant (alpha c : Q) (rest : list Q) :
  Forall (fun x => x == c) rest ->
  forall prev, prev == c -> Forall (fun y => y == c) (lowpass_loop alpha prev rest).
Proof.
  induction 1 as [|x rest Hx _ IH]; intros prev Hp; cbn; constructor.
  - rewrite Hx, Hp. ring.
  - apply IH. rewrite Hx, Hp. ring.
Qed.

Lemma peak_le (buffer : list Q) (M : Q) :
  0 <= M -> Forall (fun x => Qabs x <= M) buffer -> peak buffer <= M.
Proof.
  intros HM H. unfold peak.
  destruct (peak_from_attained 0 buffer) as [E|E]; [rewrite E; exact HM|].
  apply Exists_exists in E as (x & Hin & Hx). rewrite <- Hx.
  rewrite Forall_forall in H. now apply H.
Qed.

(** X5: for a positive cutoff and sample rate, [lowpass] returns as many
    samples as it is given, the first one unchanged; the peak of the output
    does not exceed the peak of the input, and a constant signal passes
    unchanged. *)
Theorem lowpass_bounded (PI cutoff sampleRate : Q) (buffer : list Q) :
  0 < PI -> 0 < cutoff -> 0 < sampleRate ->
  let out := lowpass PI buffer cutoff sampleRate in
  length out = length buffer /\
  out !! 0%nat = buffer !! 0%nat /\
  peak out <= peak buffer /\
  forall c, Forall (fun x => x == c) buffer -> Forall (fun y => y == c) out.
Proof.
  intros HP Hc Hs out.
  destruct (lowpass_alpha_range PI cutoff sampleRate HP Hc Hs) as [A0 A1].
  unfold out, lowpass. destruct buffer as [|x0 rest]; [repeat split; cbn; auto; lra|].
  split; [cbn; now rewrite lowpass_loop_length|].
  split; [reflexivity|].
  split.
  - pose proof (peak_from_upper 0 (x0 :: rest)) as U. fold (peak (x0 :: rest)) in U.
    apply peak_le.
    + apply Qle_trans with (Qabs x0); [apply Qabs_nonneg|].
      now apply Forall_cons_1 in U as [U0 _].
    + apply Forall_cons_1 in U as [U0 U]. constructor; [exact U0|].
      apply lowpass_loop_bound; [lra|exact U|exact U0].
  - intros c Hall. apply Forall_cons_1 in Hall as [H0 Hall].
    constructor; [exact H0|]. now apply lowpass_loop_constant.
Qed.

Lemma lowpass_bounded_witness :
  let out := lowpass 3 [1; -1; 1 # 2] 1000 44100 in
  length out = length [1; -1; 1 # 2] /\
  out !! 0%nat = [1; -1; 1 # 2] !! 0%nat /\
  peak out <= peak [1; -1; 1 # 2] /\
  forall c, Forall (fun x => x == c) [1; -1; 1 # 2] -> Forall (fun y => y == c) out.
Proof. apply (lowpass_bounded 3 1000 44100 [1; -1; 1 # 2]); reflexivity. Defined.

(** *** Adding a note to a track *)






Example addNote_truncates :
  addNote [0; 0; 0; 0] [1; 2; 3] (3 # 44100) (1 # 2) = [0; 0; 0; 0 + 1 * (1 # 2)] /\
  addNote [0; 0; 0; 0] [1; 2; 3] (-2 # 44100) 1 = [0 + 3 * 1; 0; 0; 0].
Proof. split; reflexivity. Qed.

End WavesFacts.

(** ** Notes added to shared buffers *)

Module TracksFacts.
Import Synth Waves.

Lemma addNote_steps (track noteBuffer : nat) (gain : Q) (startSample : Z)
    (note : list Q) (σ : gmap nat (list Q)) :
  track <> noteBuffer -> σ !! noteBuffer = Some note ->
  forall (rest : list Q) (i : nat) (samples : list Q),
    drop i note = rest ->
    foldl (Tracks.addNote_step track noteBuffer gain startSample)
          (<[track := samples]> σ) (seq i (length rest))
    = <[track := addNote_loop gain startSample i rest samples]> σ.
Proof.
  intros Hne Hnote. induction rest as [|x rest IH]; intros i samples Hdrop; [reflexivity|].
  cbn [length seq foldl addNote_loop]. cbv zeta.
  assert (Hx : note !! i = Some x).
  { rewrite <- (Nat.add_0_r i), <- lookup_drop, Hdrop. reflexivity. }
  unfold Tracks.addNote_step at 2.
  rewrite lookup_insert_ne by exact Hne. rewrite Hnote. cbn [mbind option_bind].
  rewrite Hx, lookup_insert_eq.
  assert (Hrest : drop (S i) note = rest).
  { replace (S i) with (i + 1)%nat by lia. rewrite <- drop_drop, Hdrop. reflexivity. }
  destruct (_ <? _)%Z.
  - rewrite insert_insert_eq. now apply IH.
  - now apply IH.
Qed.

(** X7: [addNote] works in place.  For a note buffer other than the track,
    the store afterwards is the store before with the samples of the track
    replaced: no buffer is allocated, and the note buffer and every other
    buffer keep their samples. *)
Theorem addNote_in_place (track noteBuffer : nat) (startTime gain : Q)
    (σ : gmap nat (list Q)) (samples note : list Q) :
  track <> noteBuffer -> σ !! track = Some samples -> σ !! noteBuffer = Some note ->
  Tracks.addNote track noteBuffer startTime gain σ
  = <[track := addNote samples note startTime gain]> σ /\
  dom (Tracks.addNote track noteBuffer startTime gain σ) = dom σ /\
  forall l, l <> track -> Tracks.addNote track noteBuffer startTime gain σ !! l = σ !! l.
Proof.
  intros Hne Ht Hn.
  assert (E : Tracks.addNote track noteBuffer startTime gain σ
              = <[track := addNote samples note startTime gain]> σ).
  { unfold Tracks.addNote, addNote. cbv zeta. rewrite Hn. cbn [default].
    rewrite <- (insert_id σ track samples Ht) at 1.
    now apply (addNote_steps track noteBuffer gain _ note σ Hne Hn note 0 samples). }
  split; [exact E|]. rewrite E. split.
  - rewrite dom_insert_L. apply elem_of_dom_2 in Ht.
    apply set_eq. intros k. rewrite elem_of_union, elem_of_singleton.
    split; [intros [->|Hk]; assumption|intros Hk; now right].
  - intros l Hl. now rewrite lookup_insert_ne.
Qed.

Lemma addNote_in_place_witness :
  Tracks.addNote 0 1 (1 # 44100) 2 {[ 0%nat := [0; 0; 0]; 1%nat := [1; 1; 1] ]}
  = <[0%nat := addNote [0; 0; 0] [1; 1; 1] (1 # 44100) 2]>
      {[ 0%nat := [0; 0; 0]; 1%nat := [1; 1; 1] ]} /\
  dom (Tracks.addNote 0 1 (1 # 44100) 2 {[ 0%nat := [0; 0; 0]; 1%nat := [1; 1; 1] ]})
  = dom ({[ 0%nat := [0; 0; 0]; 1%nat := [1; 1; 1] ]} : gmap nat (list Q)) /\
  forall l, l <> 0%nat ->
    Tracks.addNote 0 1 (1 # 44100) 2 {[ 0%nat := [0; 0; 0]; 1%nat := [1; 1; 1] ]} !! l
    = ({[ 0%nat := [0; 0; 0]; 1%nat := [1; 1; 1] ]} : gmap nat (list Q)) !! l.
Proof.
  apply (addNote_in_place 0 1 (1 # 44100) 2
           {[ 0%nat := [0; 0; 0]; 1%nat := [1; 1; 1] ]} [0; 0; 0] [1; 1; 1]);
    [discriminate | reflexivity | reflexivity].
Defined.

End TracksFacts.
(** ** Normalized tracks written as PCM *)

Module PipelineFacts.
Import Synth Wav SynthFacts BytesFacts SynthWavFacts.







Example quarter_scale_track :
  (fun y : Q => Qfloor (y * 32767)) <$> normalize [2; -4; 1] (9 # 10)
  = [14745; -29491; 7372]%Z.
Proof. reflexivity. Qed.

(** *** When [writeWav] fails *)

Lemma frames_length (left right : list Q) (n : nat) :
  forall i, length (mjoin (frame_at left right <$> seq i n)) = (4 * n)%nat.
Proof.
  induction n as [|n IH]; intros i; [reflexivity|].
  cbn [seq]. rewrite fmap_cons. cbn [mjoin list_join]. rewrite length_app.
  change (list_join (frame_at left right <$> seq (S i) n))
    with (mjoin (frame_at left right <$> seq (S i) n)).
  rewrite IH. unfold frame_at. rewrite length_app, !le_bytes_length. lia.
Qed.

Lemma write_int_out_of_range (width : nat) (lo hi v : Z) (offset : nat) (buffer : list Z) :
  ~ (lo <= v <= hi)%Z -> write_int width lo hi v offset buffer = Throws RangeError.
Proof.
  intros H. unfold write_int.
  replace ((lo <=? v)%Z && (v <=? hi)%Z) with false; [reflexivity|].
  symmetry. apply andb_false_iff.
  destruct (Z.leb_spec lo v); [|now left]. destruct (Z.leb_spec v hi); [lia|now right].
Qed.

(** X9: [writeWav] returns a buffer exactly when the header fields fit
    their unsigned 32-bit slots, that is when the sample rate is between 0
    and 1073741823 and the data is at most 4294967259 bytes long; in every
    other case it raises a range error, whatever the samples are.  A
    returned buffer has 44 + 4 x length(leftChannel) bytes. *)
Theorem writeWav_returns_iff (leftChannel rightChannel : list Q) (sampleRate : Z) :
  let fits := (0 <= sampleRate <= 1073741823)%Z /\
              (Z.of_nat (length leftChannel) * 4 <= 4294967259)%Z in
  (fits -> exists bytes, writeWav leftChannel rightChannel sampleRate = Returns bytes /\
                         length bytes = (44 + 4 * length leftChannel)%nat) /\
  (~ fits -> writeWav leftChannel rightChannel sampleRate = Throws RangeError).
Proof.
  intros fits. split.
  - intros [Hr Hn]. rewrite writeWav_bytes by lia.
    eexists. split; [reflexivity|].
    rewrite length_app, frames_length. reflexivity.
  - intros Hfits. unfold writeWav. cbv zeta.
    unfold write, writeUInt32LE, writeUInt16LE.
    set (n := length leftChannel) in *.
    destruct (Z_le_gt_dec (Z.of_nat n * 4) 4294967259) as [Hn|Hn].
    + change (replicate (44 + n * 4) 0%Z) with ([] ++ replicate (44 + n * 4) 0%Z).
      rewrite blit_at by side.
      rewrite write_int_next by side. cbn [mbind outcome_bind].
      rewrite blit_at by side.
      rewrite blit_at by side.
      do 3 (rewrite write_int_next by side; cbn [mbind outcome_bind]).
      assert (Hr : ~ (0 <= sampleRate <= 1073741823)%Z) by (unfold fits in Hfits; tauto).
      destruct (Z_le_gt_dec 0 sampleRate) as [H0|H0];
        [destruct (Z_le_gt_dec sampleRate 4294967295) as [H1|H1]|].
      * rewrite write_int_next by side. cbn [mbind outcome_bind].
        rewrite write_int_out_of_range by lia. reflexivity.
      * rewrite write_int_out_of_range by lia. reflexivity.
      * rewrite write_int_out_of_range by lia. reflexivity.
    + rewrite write_int_out_of_range by lia. reflexivity.
Qed.

Lemma writeWav_returns_iff_witness :
  (exists bytes, writeWav [0; 1] [1; 0] 44100 = Returns bytes /\
                 length bytes = (44 + 4 * length [0; 1])%nat) /\
  writeWav [0; 1] [1; 0] (-1) = Throws RangeError.
Proof.
  destruct (writeWav_returns_iff [0; 1] [1; 0] 44100) as [Hok _].
  destruct (writeWav_returns_iff [0; 1] [1; 0] (-1)) as [_ Hbad].
  split; [apply Hok; cbn; lia|apply Hbad; cbn; lia].
Defined.

(** *** Channels of different lengths *)

Lemma frames_fold_ext (left right right' : list Q) (indices : list nat) :
  Forall (fun i => quantize (right !! i) = quantize (right' !! i) \/
                   (sample_int (quantize (right !! i)) = 0%Z /\
                    sample_int (quantize (right' !! i)) = 0%Z)) indices ->
  forall acc,
    foldl (fun acc i => buffer ← acc; write_frame left right buffer i) acc indices
    = foldl (fun acc i => buffer ← acc; write_frame left right' buffer i) acc indices.
Proof.
  induction 1 as [|i rest Hi _ IH]; intros acc; [reflexivity|].
  cbn [foldl]. rewrite <- IH. f_equal.
  destruct acc as [buffer|e]; [|reflexivity]. cbn [mbind outcome_bind].
  unfold write_frame. cbv zeta.
  destruct (writeInt16LE (quantize (left !! i)) (44 + i * 4) buffer) as [b|e];
    [|reflexivity].
  cbn [mbind outcome_bind].
  destruct Hi as [->|[E1 E2]]; [reflexivity|].
  unfold writeInt16LE, sample_int in *.
  destruct (quantize (right !! i)), (quantize (right' !! i)); cbn in *; subst; reflexivity.
Qed.

(** X10: [writeWav] takes the number of frames from the left channel: a
    right channel that is longer is cut, one that is shorter is continued
    with silence (the missing samples are written as 0). *)
Theorem writeWav_right_channel_resized (leftChannel rightChannel : list Q) (sampleRate : Z) :
  writeWav leftChannel rightChannel sampleRate
  = writeWav leftChannel (resize (length leftChannel) 0 rightChannel) sampleRate.
Proof.
  unfold writeWav. cbv zeta.
  repeat (match goal with
          | |- (mbind _ ?m) = (mbind _ ?m) =>
              destruct m as [?|?]; [cbn [mbind outcome_bind]|reflexivity]
          end).
  apply frames_fold_ext. apply Forall_forall. intros i Hi.
  apply elem_of_seq in Hi as [_ Hi]. cbn in Hi.
  destruct (decide (i < length rightChannel)%nat) as [L|L].
  - left. now rewrite lookup_resize by lia.
  - right. rewrite (lookup_ge_None_2 rightChannel i) by lia.
    rewrite lookup_resize_new by lia. split; reflexivity.
Qed.

Example writeWav_short_right_channel :
  writeWav [1; 1; 1] [1] 8 = writeWav [1; 1; 1] [1; 0; 0] 8 /\
  writeWav [1] [1; 1; 1] 8 = writeWav [1] [1] 8.
Proof. split; reflexivity. Qed.

End PipelineFacts.
(** ** The mixer's export for any number of channels *)

Module MixerExportFacts.
Import Wav Mixer BytesFacts MixerWavFacts.

Lemma channels_loop (channels : list (list Q)) (i : nat) (m : nat) :
  forall (j : nat) (done : list Z) (k index : nat),
    length done = (44 + index)%nat -> (2 * m <= k)%nat ->
    foldl (fun acc channel =>
             '(view, index) ← acc;
             view ← setInt16 (44 + index) (intSample channels channel i) view;
             mret (view, index + 2)%nat)
          (Returns (done ++ replicate k 0%Z, index)) (seq j m)
    = Returns ((done ++ mjoin ((fun c => le_bytes 2 (to_integer (intSample channels c i)))
                               <$> seq j m))
               ++ replicate (k - 2 * m) 0%Z, (index + 2 * m)%nat).
Proof.
  induction m as [|m IH]; intros j done k index Hdone Hk.
  - cbn. rewrite app_nil_r, Nat.sub_0_r, Nat.add_0_r. reflexivity.
  - cbn [seq foldl]. cbn [mbind outcome_bind]. unfold setInt16.
    rewrite view_set_next by side. cbn [mbind outcome_bind mret outcome_ret].
    rewrite IH by side.
    replace (k - 2 - 2 * m)%nat with (k - 2 * S m)%nat by lia.
    replace (index + 2 + 2 * m)%nat with (index + 2 * S m)%nat by lia.
    do 3 f_equal. rewrite fmap_cons. cbn [mjoin list_join].
    now rewrite <- !app_assoc.
Qed.

Lemma join_length_const {A : Type} (c : nat) (ls : list (list A)) :
  Forall (fun l => length l = c) ls -> length (mjoin ls) = (c * length ls)%nat.
Proof.
  induction 1 as [|l ls Hl _ IH]; [cbn; lia|].
  simpl. rewrite length_app, IH, Hl. lia.
Qed.

Lemma frames_loop_any (channels : list (list Q)) (c : nat) (m : nat) :
  forall (i : nat) (done : list Z) (k index : nat),
    length done = (44 + index)%nat -> (2 * c * m <= k)%nat ->
    foldl (fun acc i =>
             foldl (fun acc channel =>
                      '(view, index) ← acc;
                      view ← setInt16 (44 + index) (intSample channels channel i) view;
                      mret (view, index + 2)%nat)
                   acc (seq 0 c))
          (Returns (done ++ replicate k 0%Z, index)) (seq i m)
    = Returns ((done ++ mjoin ((fun i => mjoin ((fun c => le_bytes 2
                                                   (to_integer (intSample channels c i)))
                                                <$> seq 0 c))
                               <$> seq i m))
               ++ replicate (k - 2 * c * m) 0%Z, (index + 2 * c * m)%nat).
Proof.
  induction m as [|m IH]; intros i done k index Hdone Hk.
  - cbn. rewrite app_nil_r, Nat.mul_0_r, Nat.sub_0_r, Nat.add_0_r. reflexivity.
  - cbn [seq foldl].
    rewrite channels_loop by (try assumption; nia).
    assert (Hrow : length (mjoin ((fun ch => le_bytes 2 (to_integer (intSample channels ch i)))
                                  <$> seq 0 c)) = (2 * c)%nat).
    { rewrite (join_length_const 2).
      - now rewrite length_fmap, length_seq.
      - apply Forall_fmap, Forall_forall. intros ch _. apply le_bytes_length. }
    rewrite IH by (rewrite ?length_app, ?Hrow; nia).
    replace (k - 2 * c - 2 * c * m)%nat with (k - 2 * c * S m)%nat by nia.
    replace (index + 2 * c + 2 * c * m)%nat with (index + 2 * c * S m)%nat by nia.
    do 3 f_equal. rewrite fmap_cons. cbn [mjoin list_join].
    now rewrite <- !app_assoc.
Qed.

Lemma frame_of_well_formed (b : AudioBuffer) (i : nat) :
  well_formed b -> (i < ab_length b)%nat ->
  mjoin ((fun c => le_bytes 2 (to_integer (intSample (channelData b) c i)))
         <$> seq 0 (numberOfChannels b))
  = Frames.frame (channelData b) i.
Proof.
  intros [Hc Hall] Hi. unfold Frames.frame. f_equal. apply list_eq. intros c.
  rewrite !list_lookup_fmap.
  destruct (decide (c < numberOfChannels b)%nat) as [L|L].
  - rewrite lookup_seq_lt by exact L. change (0 + c)%nat with c.
    destruct (lookup_lt_is_Some_2 (channelData b) c ltac:(lia)) as [data Hd].
    rewrite Hd. cbn [fmap option_fmap option_map]. f_equal.
    pose proof (Forall_lookup_1 _ _ _ _ Hall Hd) as Hlen. cbn in Hlen.
    destruct (lookup_lt_is_Some_2 data i ltac:(lia)) as [x Hx].
    unfold intSample. rewrite Hd. cbn [mbind option_bind]. rewrite Hx.
    rewrite (list_lookup_total_correct _ _ _ Hx). reflexivity.
  - rewrite lookup_seq_ge by lia.
    rewrite (lookup_ge_None_2 (channelData b) c) by lia. reflexivity.
Qed.

(** X11: for a buffer of any number of channels, [_bufferToWav] returns
    (it never throws) the 44-byte header for that channel count, followed
    by the frames in order, each frame holding the 16-bit sample of every
    channel in channel order; the blob has 44 + 2 x channels x length
    bytes. *)
Theorem bufferToWav_any_channels (b : AudioBuffer) :
  well_formed b ->
  _bufferToWav b
  = Returns (wav_header (Z.of_nat (numberOfChannels b)) (sampleRate b) (ab_length b)
             ++ Frames.sample_data (channelData b) (ab_length b)) /\
  length (Frames.sample_data (channelData b) (ab_length b))
  = (2 * numberOfChannels b * ab_length b)%nat.
Proof.
  intros Hwf.
  assert (Hdata :
    mjoin ((fun i => mjoin ((fun c => le_bytes 2
                               (to_integer (intSample (channelData b) c i)))
                            <$> seq 0 (numberOfChannels b)))
           <$> seq 0 (ab_length b))
    = Frames.sample_data (channelData b) (ab_length b)).
  { unfold Frames.sample_data. f_equal. apply list_fmap_ext.
    intros k i Hi. apply lookup_seq in Hi as [-> Hi]. now apply frame_of_well_formed. }
  split.
  - unfold _bufferToWav. cbv zeta.
    set (n := ab_length b) in *. set (c := numberOfChannels b) in *.
    change (16 / 8)%Z with 2%Z.
    replace (44 + Z.to_nat (Z.of_nat n * (Z.of_nat c * 2)))%nat
      with (44 + 2 * c * n)%nat by nia.
    unfold setUint16, setUint32.
    change (replicate (44 + 2 * c * n) 0%Z) with ([] ++ replicate (44 + 2 * c * n) 0%Z).
    repeat (first [rewrite view_set_next by side | rewrite writeString_next by side];
            cbn [mbind outcome_bind]).
    unfold write_samples.
    rewrite (frames_loop_any (channelData b) c n 0) by side.
    cbn [fmap outcome_fmap fst]. f_equal.
    match goal with |- context [replicate ?k 0%Z] =>
      replace k with 0%nat by (cbn; lia) end.
    rewrite app_nil_r, Hdata. f_equal.
  - rewrite <- Hdata. rewrite (join_length_const (2 * numberOfChannels b)).
    + rewrite length_fmap, length_seq. lia.
    + apply Forall_fmap, Forall_forall. intros i _. unfold compose.
      rewrite (join_length_const 2).
      * now rewrite length_fmap, length_seq.
      * apply Forall_fmap, Forall_forall. intros ch _. apply le_bytes_length.
Qed.

Lemma bufferToWav_any_channels_witness :
  _bufferToWav {| numberOfChannels := 1; sampleRate := 8000; ab_length := 3;
                  channelData := [[1; -1; 1 # 2]] |}
  = Returns (wav_header 1 8000 3 ++ Frames.sample_data [[1; -1; 1 # 2]] 3) /\
  length (Frames.sample_data [[1; -1; 1 # 2]] 3) = (2 * 1 * 3)%nat.
Proof.
  apply (bufferToWav_any_channels
           {| numberOfChannels := 1; sampleRate := 8000; ab_length := 3;
              channelData := [[1; -1; 1 # 2]] |}).
  split; [reflexivity|]. repeat constructor.
Defined.

Example three_channels :
  Frames.sample_data [[1; 0]; [-1; 0]; [1 # 2; 0]] 2
  = [255; 127; 0; 128; 255; 63; 0; 0; 0; 0; 0; 0]%Z.
Proof. reflexivity. Qed.

End MixerExportFacts.

(** ** The mixer's in-place normalization *)

Module NormalizeBufferFacts.
Import Synth SynthFacts BytesFacts StoreFacts.

Lemma channels_peak_lower (m : Q) (channels : list (list Q)) :
  m <= foldl peak_from m channels.
Proof.
  revert m. induction channels as [|ch rest IH]; intros m; cbn; [lra|].
  eapply Qle_trans; [apply (peak_from_lower m ch)|apply IH].
Qed.

Lemma channels_peak_upper (m : Q) (channels : list (list Q)) :
  Forall (Forall (fun x => Qabs x <= foldl peak_from m channels)) channels.
Proof.
  revert m. induction channels as [|ch rest IH]; intros m; cbn; constructor.
  - eapply Forall_impl; [apply (peak_from_upper m ch)|].
    intros x Hx. cbv beta in *. eapply Qle_trans; [exact Hx|apply channels_peak_lower].
  - apply IH.
Qed.

Lemma channels_peak_le (m M : Q) (channels : list (list Q)) :
  m <= M -> Forall (Forall (fun x => Qabs x <= M)) channels ->
  foldl peak_from m channels <= M.
Proof.
  intros Hm H. revert m Hm.
  induction H as [|ch rest Hch _ IH]; intros m Hm; cbn; [exact Hm|].
  apply IH. unfold peak_from. clear IH. revert m Hm.
  induction Hch as [|x l Hx _ IHl]; intros m Hm; cbn; [exact Hm|].
  apply IHl. now apply Q.max_lub.
Qed.

Lemma scaled_below (M x : Q) :
  0 < M -> Qabs x <= M -> Qabs (x * ((99 # 100) / M)) <= 99 # 100.
Proof.
  intros HM Hx.
  assert (Hs : 0 <= (99 # 100) / M) by (apply Qle_shift_div_l; lra).
  rewrite Qabs_Qmult, (Qabs_pos _ Hs).
  assert (E : M * ((99 # 100) / M) == 99 # 100) by (field; lra).
  apply Qle_trans with (M * ((99 # 100) / M)); [|rewrite E; apply Qle_refl].
  apply Qmult_le_compat_r; assumption.
Qed.

Lemma normalize_scale_spec (channels : list (list Q)) :
  match Mixer.normalize_scale channels with
  | Some scale =>
      exists M, 1 < M /\ scale = (99 # 100) / M /\
                Forall (Forall (fun x => Qabs x <= M)) channels
  | None => Forall (Forall (fun x => Qabs x <= 1)) channels
  end.
Proof.
  unfold Mixer.normalize_scale. cbv zeta.
  pose proof (channels_peak_upper 0 channels) as U.
  destruct (Qltb 1 (foldl peak_from 0 channels)) eqn:E.
  - apply Qltb_lt in E. eexists. split; [exact E|]. split; [reflexivity|exact U].
  - assert (foldl peak_from 0 channels <= 1) as L.
    { destruct (Qlt_le_dec 1 (foldl peak_from 0 channels)) as [H|H]; [|exact H].
      apply Qltb_lt in H. congruence. }
    eapply Forall_impl; [exact U|]. intros ch Hch. cbv beta in *.
    eapply Forall_impl; [exact Hch|]. intros x Hx. cbv beta in *. lra.
Qed.

Lemma normalize_scale_quiet (channels : list (list Q)) :
  Forall (Forall (fun x => Qabs x <= 1)) channels -> Mixer.normalize_scale channels = None.
Proof.
  intros H. unfold Mixer.normalize_scale. cbv zeta.
  destruct (Qltb 1 (foldl peak_from 0 channels)) eqn:E; [|reflexivity].
  apply Qltb_lt in E. pose proof (channels_peak_le 0 1 channels ltac:(lra) H). lra.
Qed.

(** X12: after [_normalizeBuffer] every sample of every channel of the
    buffer lies in [-1, 1], and normalizing a second time changes nothing
    (the channels being different arrays). *)
Theorem normalizeBuffer_bounds_samples (channels : list nat) (σ : gmap nat (list Q)) :
  NoDup channels ->
  let σ' := Store._normalizeBuffer channels σ in
  (forall ch samples, ch ∈ channels -> σ' !! ch = Some samples ->
     Forall (fun x => Qabs x <= 1) samples) /\
  Store._normalizeBuffer channels σ' = σ'.
Proof.
  intros Hnd σ'.
  set (data := (fun ch => default [] (σ !! ch)) <$> channels).
  assert (Hdata : forall ch samples, ch ∈ channels -> σ !! ch = Some samples ->
                    samples ∈ data).
  { intros ch samples Hin Hs. unfold data. apply list_elem_of_fmap.
    exists ch. now rewrite Hs. }
  pose proof (normalize_scale_spec data) as Hspec.
  assert (Hafter : Forall (Forall (fun x => Qabs x <= 1))
                          ((fun ch => default [] (σ' !! ch)) <$> channels)).
  { unfold σ', Store._normalizeBuffer. fold data.
    destruct (Mixer.normalize_scale data) as [scale|] eqn:E.
    - destruct Hspec as (M & HM & -> & Hall).
      destruct (scale_channels ((99 # 100) / M) channels σ Hnd) as [Hin _].
      apply Forall_fmap, Forall_forall. intros ch Hch. unfold compose.
      destruct (σ !! ch) as [samples|] eqn:Hs.
      + rewrite (Hin ch samples Hch Hs). cbn [default].
        apply Forall_fmap.
        rewrite Forall_forall in Hall. specialize (Hall samples (Hdata ch samples Hch Hs)).
        eapply Forall_impl; [exact Hall|]. intros x Hx. unfold compose. cbv beta in *.
        pose proof (scaled_below M x ltac:(lra) Hx). lra.
      + assert (Hnone : foldl (fun σ ch => alter (fmap (fun x => x * ((99 # 100) / M))) ch σ)
                              σ channels !! ch = None).
        { clear -Hs. revert σ Hs. induction channels as [|c rest IH]; intros σ Hs; [exact Hs|].
          cbn. apply IH. destruct (decide (c = ch)) as [->|Hne].
          - now rewrite lookup_alter_eq, Hs.
          - now rewrite lookup_alter_ne. }
        rewrite Hnone. constructor.
    - exact Hspec. }
  split.
  - intros ch samples Hin Hs. rewrite Forall_forall in Hafter.
    apply (Hafter samples). apply list_elem_of_fmap. exists ch. now rewrite Hs.
  - unfold Store._normalizeBuffer at 1. now rewrite (normalize_scale_quiet _ Hafter).
Qed.

Lemma normalizeBuffer_bounds_samples_witness :
  let σ' := Store._normalizeBuffer [0%nat; 1%nat]
              {[ 0%nat := [2; -1]; 1%nat := [1; 0] ]} in
  (forall ch samples, ch ∈ [0%nat; 1%nat] -> σ' !! ch = Some samples ->
     Forall (fun x => Qabs x <= 1) samples) /\
  Store._normalizeBuffer [0%nat; 1%nat] σ' = σ'.
Proof.
  apply (normalizeBuffer_bounds_samples [0%nat; 1%nat]
           {[ 0%nat := [2; -1]; 1%nat := [1; 0] ]}).
  apply NoDup_cons. split; [|apply NoDup_singleton].
  rewrite list_elem_of_singleton. discriminate.
Defined.

End NormalizeBufferFacts.
(** ** Wrapped captions *)

Module WrapFacts.
Import Text Canvas Batch.

Lemma append_assoc (a b c : string) : (a +:+ b) +:+ c = a +:+ (b +:+ c).
Proof.
  induction a as [|x a IH]; [reflexivity|].
  change (String x ((a +:+ b) +:+ c) = String x (a +:+ (b +:+ c))). now rewrite IH.
Qed.

Lemma join_cons (sep w v : string) (rest : list string) :
  join sep (w :: v :: rest) = w +:+ sep +:+ join sep (v :: rest).
Proof. reflexivity. Qed.

Lemma join_merge (a b : string) (rest : list string) :
  join " " ((a +:+ " " +:+ b) :: rest) = join " " (a :: b :: rest).
Proof.
  destruct rest as [|c rest]; [reflexivity|].
  rewrite !join_cons. now rewrite !append_assoc.
Qed.

Lemma join_split (s : string) : join " " (split space s) = s.
Proof.
  induction s as [|c s IH]; [reflexivity|].
  cbn [split]. destruct (split space s) as [|w ws] eqn:E.
  - destruct (Ascii.eqb_spec c space) as [->|_]; cbn in *; now subst.
  - destruct (Ascii.eqb_spec c space) as [->|_].
    + rewrite join_cons, IH. reflexivity.
    + destruct ws as [|v ws]; [cbn in *; now subst|].
      rewrite join_cons. rewrite join_cons in IH. rewrite <- IH. reflexivity.
Qed.

Section Wrapping.
Variable measureText : string -> string -> Q.

Lemma wrap_loop_nonempty (font : string) (maxWidth : Q) (words : list string) :
  forall currentLine, wrap_loop measureText font maxWidth currentLine words <> [].
Proof.
  induction words as [|w rest IH]; intros cur; cbn; [discriminate|].
  destruct (Qltb _ _); [apply IH|discriminate].
Qed.

Lemma wrap_loop_join (font : string) (maxWidth : Q) (words : list string) :
  forall currentLine,
    join " " (wrap_loop measureText font maxWidth currentLine words)
    = join " " (currentLine :: words).
Proof.
  induction words as [|w rest IH]; intros cur; [reflexivity|].
  cbn [wrap_loop]. cbv zeta. destruct (Qltb _ _).
  - rewrite IH. apply join_merge.
  - pose proof (wrap_loop_nonempty font maxWidth rest w) as Hne.
    destruct (wrap_loop measureText font maxWidth w rest) as [|l ls] eqn:E; [congruence|].
    rewrite !join_cons. now rewrite <- IH, E.
Qed.

(** X13: wrapping loses nothing.  Joining the lines that [wrapText]
    returns with single spaces gives back the text, whatever the font
    measures; in particular the words stay in order and none is split. *)
Theorem wrapText_round_trip (ctx : context) (text : string) (maxWidth : Q) :
  join " " (wrapText measureText ctx text maxWidth) = text.
Proof.
  unfold wrapText. pose proof (join_split text) as H.
  destruct (split space text) as [|first rest]; [exact H|].
  now rewrite wrap_loop_join.
Qed.

Lemma wrap_loop_fits (font : string) (maxWidth : Q) (P : string -> Prop)
    (words : list string) :
  (forall line, measureText font line < maxWidth -> P line) ->
  Forall P words ->
  forall currentLine, P currentLine ->
    Forall P (wrap_loop measureText font maxWidth currentLine words).
Proof.
  intros Hfit. induction 1 as [|w rest Hw _ IH]; intros cur Hcur; cbn.
  - constructor; [exact Hcur|constructor].
  - destruct (Qltb _ _) eqn:E.
    + apply IH. apply Hfit. now apply BytesFacts.Qltb_lt.
    + constructor; [exact Hcur|]. now apply IH.
Qed.

(** X14: [wrapText] returns at least one line, and every line either is
    narrower than [maxWidth] in the current font or is a single word of
    the text: only a word that is too wide by itself overflows. *)
Theorem wrapText_lines_fit (ctx : context) (text : string) (maxWidth : Q) :
  wrapText measureText ctx text maxWidth <> [] /\
  Forall (fun line => measureText (font (state ctx)) line < maxWidth \/
                      line ∈ split space text)
         (wrapText measureText ctx text maxWidth).
Proof.
  unfold wrapText.
  pose proof (CaptionFacts.split_nonempty space text) as Hne.
  destruct (split space text) as [|first rest] eqn:E; [cbn in Hne; lia|].
  split; [apply wrap_loop_nonempty|].
  apply wrap_loop_fits.
  - intros line H. now left.
  - apply Forall_forall. intros w Hw. right. now apply list_elem_of_further.
  - right. apply list_elem_of_here.
Qed.

End Wrapping.

Example wrap_by_character_count :
  let measure := fun (_ : string) (line : string) =>
                   inject_Z (Z.of_nat (String.length line)) in
  wrapText measure (createCanvas 100 100) "to be or not to be, incomprehensibly" 9
  = ["to be or"; "not to"; "be,"; "incomprehensibly"].
Proof. reflexivity. Qed.

End WrapFacts.

(** ** The avatar over any sequence of calls *)

Module SessionFacts.
Import Avatar Session AvatarFacts BytesFacts.

Lemma visible_waves (ws : list wave) :
  Forall (fun w => 0 < opacity w) (filter (fun w => Qltb 0 (opacity w) = true) ws).
Proof.
  apply Forall_forall. intros w Hw. apply list_elem_of_filter in Hw as [Hw _].
  now apply Qltb_lt.
Qed.

Lemma grown_waves (deltaTime : Q) (ws : list wave) :
  0 <= deltaTime -> Forall (fun w => opacity w <= 1) ws ->
  Forall (fun w => opacity w <= 1)
         (filter (fun w => Qltb 0 (opacity w) = true) (grow deltaTime <$> ws)).
Proof.
  intros Hd H. apply Forall_forall. intros w Hw.
  apply list_elem_of_filter in Hw as [_ Hw]. apply list_elem_of_fmap in Hw as (v & -> & Hv).
  rewrite Forall_forall in H. specialize (H v Hv). cbn. nra.
Qed.

Section Calls.
Variable sin : Q -> Q.
Variable PI : Q.
Variable random : nat -> Q.

Lemma setState_steady (state : string) (a : avatar) :
  steady a ->
  exists a', setState state a = Returns a' /\ steady a' /\ (faded a -> faded a').
Proof.
  intros (Hlen & Hcfg & Hw). unfold setState.
  destruct (states_get state) as [config|] eqn:E.
  - eexists. split; [reflexivity|]. split; [|auto].
    split; [exact Hlen|]. split; [|exact Hw].
    cbn. intros c ->. unfold states_get in E.
    destruct (states !! state) as [c'|] eqn:Hs.
    + injection E as <-. now apply (particleCount_le_max state).
    + destruct (bool_decide _); discriminate.
  - eexists. split; [reflexivity|]. split; [|auto]. split; [exact Hlen|]. split; assumption.
Qed.

Lemma update_steady (deltaTime : Q) (a : avatar) :
  steady a ->
  exists a', update sin PI random deltaTime a = Returns a' /\ steady a' /\
             (0 <= deltaTime -> faded a -> faded a').
Proof.
  intros (Hlen & Hcfg & Hw).
  assert (Hps : exists ps,
             update_particles sin (stateConfig a) (radius a) (time a + deltaTime) (particles a)
             = Returns ps /\ length ps = 35%nat).
  { unfold update_particles. destruct (stateConfig a) as [c|name] eqn:E.
    - specialize (Hcfg c eq_refl). rewrite Hlen.
      destruct (Nat.leb_spec (particleCount c) 35); [|lia].
      eexists. split; [reflexivity|]. now rewrite length_imap.
    - eexists. split; [reflexivity|exact Hlen]. }
  destruct Hps as (ps & Hps & Hpl).
  unfold update. cbv zeta. rewrite Hps. cbn [mbind outcome_bind].
  destruct (String.eqb (currentState a) "talking");
    destruct (has_spikes (stateConfig a));
    repeat match goal with |- context [if Qltb ?x ?y then _ else _] =>
             destruct (Qltb x y) end;
    (eexists; split; [reflexivity|]);
    (split;
     [split; [exact Hpl|]; split; [exact Hcfg|]; cbn [soundWaves];
      rewrite ?Forall_app; repeat split; try apply visible_waves;
      repeat constructor
     |intros Hd Hf; unfold faded in *; cbn [soundWaves];
      rewrite ?Forall_app; repeat split;
      try (apply grown_waves; [exact Hd|]; rewrite ?Forall_app; repeat split;
           try exact Hf; repeat constructor; cbn; lra);
      repeat constructor; cbn; lra]).
Qed.

Lemma run_calls_steady (calls : list call) :
  forall a, steady a ->
    exists a', run_calls sin PI random calls a = Returns a' /\ steady a' /\
               (Forall forward calls -> faded a -> faded a').
Proof.
  unfold run_calls. induction calls as [|c calls IH]; intros a Ha.
  - exists a. split; [reflexivity|]. split; [exact Ha|auto].
  - cbn [foldl mbind outcome_bind].
    assert (Hc : exists a1, perform sin PI random c a = Returns a1 /\ steady a1 /\
                            (forward c -> faded a -> faded a1)).
    { destruct c as [state|deltaTime]; cbn [perform forward].
      - destruct (setState_steady state a Ha) as (a1 & E & S & F). eauto.
      - destruct (update_steady deltaTime a Ha) as (a1 & E & S & F). eauto. }
    destruct Hc as (a1 & E & S & F). rewrite E.
    destruct (IH a1 S) as (a' & E' & S' & F').
    exists a'. split; [exact E'|]. split; [exact S'|].
    intros Hall Hf. apply Forall_cons_1 in Hall as [Hc Hall]. auto.
Qed.

(** X15: whatever sequence of [setState] calls (with any names) and
    animation frames follows the construction of an avatar, no call
    throws, the avatar keeps its 35 particles and every sound wave it holds
    is still visible (opacity above 0); when time never runs backwards
    between frames, no wave is more than fully opaque either. *)
Theorem avatar_calls_never_throw (calls : list call) :
  exists a, run_calls sin PI random calls (new_avatar PI random) = Returns a /\
            length (particles a) = 35%nat /\
            Forall (fun w => 0 < opacity w) (soundWaves a) /\
            (Forall forward calls -> Forall (fun w => opacity w <= 1) (soundWaves a)).
Proof.
  destruct (run_calls_steady calls (new_avatar PI random)) as (a & E & (L & _ & W) & F).
  { split; [reflexivity|]. split; [|constructor].
    intros c H. injection H as <-. cbn. lia. }
  exists a. split; [exact E|]. split; [exact L|]. split; [exact W|].
  intros Hall. apply F; [exact Hall|constructor].
Qed.

End Calls.

Example talking_frames :
  exists a,
    run_calls (fun _ => 0) 3 (fun _ => 1 # 100)
      [SetState "talking"; Tick 16; Tick 16; SetState "toString"; Tick 16]
      (new_avatar 3 (fun _ => 1 # 100)) = Returns a /\
    currentState a = "toString" /\
    (Qred ∘ opacity) <$> soundWaves a = [589 # 625; 601 # 625] /\
    pulsePhase a = None.
Proof. eexists. split; [vm_compute; reflexivity|]. split; [|split]; reflexivity. Qed.

End SessionFacts.

(** ** Particles that are drawn have a place *)

Module ParticlesFacts.
Import Avatar Particles AvatarFacts.

Section Tick.
Variable sin : Q -> Q.
Variable PI : Q.
Variable random : nat -> Q.


End Tick.


End ParticlesFacts.

(** ** Volumes and ducking times stay in range *)

Module SettingsFacts.
Import Settings BytesFacts.

Lemma assign_between (given : option num) (old : num) :
  given <> Some None -> between 0 1 old -> between 0 1 (assign given clamp01 old).
Proof.
  intros Hg Ho. destruct given as [[q|]|]; [|exfalso; now apply Hg|exact Ho].
  exists (clampQ 0 1 q). split; [reflexivity|]. apply clampQ_bounds. lra.
Qed.

Lemma assign_not_below (lo : Q) (given : option num) (old : num) :
  given <> Some None -> not_below lo old -> not_below lo (assign given (at_least lo) old).
Proof.
  intros Hg Ho. destruct given as [[q|]|]; [|exfalso; now apply Hg|exact Ho].
  exists (Qmax lo q). split; [reflexivity|]. apply Q.le_max_l.
Qed.

(** X17: the mixer's volumes start within [0, 1] and its ducking times
    at 0.01 s or more, and they stay so under any sequence of [setVolumes]
    and [setDucking] calls with numbers: each volume given is clamped to
    [0, 1], each ducking time to at least 0.01 (the threshold to at least
    0), and a field that a call does not mention keeps its value. *)
Theorem settings_stay_in_range (changes : list change) :
  Forall numeric changes -> in_range (foldl apply_change initial changes).
Proof.
  intros H.
  assert (H0 : in_range initial).
  { unfold in_range, initial, between, not_below. cbn.
    repeat split; eexists; (split; [reflexivity|]); try split; discriminate. }
  revert H0. generalize initial.
  induction H as [|c rest Hc _ IH]; intros s Hs; [exact Hs|].
  cbn [foldl]. apply IH. destruct Hs as (A & B & C & D & E & F).
  destruct c as [a b c|a b c]; destruct Hc as (Ha & Hb & Hc); cbn.
  - repeat split; try assumption; now apply assign_between.
  - repeat split; try assumption; now apply assign_not_below.
Qed.

Lemma settings_stay_in_range_witness :
  in_range (foldl apply_change initial
              [ Volumes (Some (Some 3)) None (Some (Some (-1)));
                Ducking (Some (Some 0)) None None ]).
Proof.
  apply settings_stay_in_range.
  repeat constructor; discriminate.
Defined.

Example volumes_are_clamped :
  foldl apply_change initial
    [ Volumes (Some (Some 3)) None (Some (Some (-1))); Ducking (Some (Some 0)) None None ]
  = {| musicVolume := Some 1; musicVolumeIdle := Some (7 # 10); ttsVolume := Some 0;
       duckingAttack := Some (1 # 100); duckingRelease := Some (3 # 10);
       duckingThreshold := Some (1 # 100) |}.
Proof. reflexivity. Qed.

End SettingsFacts.
(** ** Template rotation of the caption generator *)

Module RotationFacts.
Import Objects Rotation BytesFacts.

(** *** Shuffling *)

Lemma delete_insert_same {A : Type} (l : list A) :
  forall (i : nat) (x : A), delete i (<[i := x]> l) = delete i l.
Proof.
  induction l as [|y l IH]; intros [|i] x; try reflexivity.
  cbn. f_equal. apply IH.
Qed.

Lemma insert_Permutation {A : Type} (l : list A) (i : nat) (x y : A) :
  l !! i = Some y -> <[i := x]> l ≡ₚ x :: delete i l.
Proof.
  intros H. pose proof (lookup_lt_Some _ _ _ H) as Hi.
  rewrite <- (delete_insert_same l i x).
  apply delete_Permutation. now apply list_lookup_insert_eq.
Qed.

Lemma swap_Permutation {A : Type} (i j : nat) (l : list A) : swap i j l ≡ₚ l.
Proof.
  unfold swap. destruct (l !! i) as [x|] eqn:Hi; [|reflexivity].
  destruct (l !! j) as [y|] eqn:Hj; [|reflexivity].
  destruct (decide (i = j)) as [->|Hne].
  - assert (x = y) as -> by congruence.
    rewrite (list_insert_id l j y Hi). now rewrite (list_insert_id l j y Hi).
  - pose proof (lookup_lt_Some _ _ _ Hi) as Li.
    assert (H1i : <[i := y]> l !! i = Some y) by now apply list_lookup_insert_eq.
    assert (H1j : <[i := y]> l !! j = Some y) by now rewrite list_lookup_insert_ne.
    etransitivity; [apply (insert_Permutation _ j x y H1j)|].
    etransitivity; [|symmetry; apply (delete_Permutation l i x Hi)].
    apply Permutation_skip.
    apply (Permutation_cons_inv (a := y)).
    etransitivity; [symmetry; apply (delete_Permutation _ j y H1j)|].
    apply (insert_Permutation l i y x Hi).
Qed.

Lemma unique_step (hashtags : list string) :
  forall seen, NoDup seen ->
    let out := foldl (fun seen h => if bool_decide (h ∈ seen) then seen else seen ++ [h])
                     seen hashtags in
    NoDup out /\ forall h, h ∈ out <-> h ∈ seen \/ h ∈ hashtags.
Proof.
  induction hashtags as [|x rest IH]; intros seen Hnd; cbn.
  - split; [exact Hnd|]. intros h. rewrite elem_of_nil. tauto.
  - destruct (bool_decide_reflect (x ∈ seen)) as [Hin|Hin].
    + destruct (IH seen Hnd) as [N M]. split; [exact N|].
      intros h. rewrite (M h), elem_of_cons. split; [tauto|].
      intros [?|[->|?]]; auto.
    + assert (Hnd' : NoDup (seen ++ [x])).
      { apply NoDup_app. split; [exact Hnd|]. split; [|apply NoDup_singleton].
        intros y Hy Hx. apply list_elem_of_singleton in Hx as ->. contradiction. }
      destruct (IH (seen ++ [x]) Hnd') as [N M]. split; [exact N|].
      intros h. rewrite (M h), elem_of_app, list_elem_of_singleton, elem_of_cons. tauto.
Qed.

Lemma unique_spec (hashtags : list string) :
  NoDup (unique hashtags) /\ forall h, h ∈ unique hashtags <-> h ∈ hashtags.
Proof.
  destruct (unique_step hashtags [] (NoDup_nil_2)) as [N M].
  split; [exact N|]. intros h. unfold unique. rewrite (M h), elem_of_nil. tauto.
Qed.

Lemma stamp_of_plain (g : generator) (t : template) :
  plain (t_id t) -> stamp_of g (t_id t) = Number (last_use g t).
Proof.
  intros Hp. unfold stamp_of, get, last_use.
  destruct (lastUsed (rotation g) !! t_id t) as [q|]; [reflexivity|].
  destruct (bool_decide_reflect (t_id t ∈ Avatar.Object_prototype)); [contradiction|reflexivity].
Qed.

Lemma set_lookup {A : Type} (object : gmap string A) (key : string) (value : A) :
  key <> "__proto__" -> set object key value !! key = Some value.
Proof.
  intros Hk. unfold set. destruct (object !! key).
  - apply lookup_insert_eq.
  - destruct (String.eqb_spec key "__proto__"); [contradiction|apply lookup_insert_eq].
Qed.

Section Environment.
Variable clock : nat -> Q.
Variable random : nat -> Q.
Variable source_lt : string -> string -> bool.

Lemma shuffle_from_Permutation {A : Type} (i : nat) :
  forall (l : list A) (d : nat),
    (shuffle_from random i l d).1 ≡ₚ l /\ (shuffle_from random i l d).2 = (d + i)%nat.
Proof.
  induction i as [|i IH]; intros l d; [cbn; split; [reflexivity|lia]|].
  cbn [shuffle_from]. cbv zeta.
  destruct (IH (swap (S i)
                  (Z.to_nat (Qfloor (random d * (inject_Z (Z.of_nat (S i)) + 1)))) l)
               (S d)) as [P E].
  split; [|rewrite E; lia]. rewrite P. apply swap_Permutation.
Qed.

Lemma shuffleArray_Permutation {A : Type} (array : list A) (d : nat) :
  (shuffleArray random array d).1 ≡ₚ array /\
  length (shuffleArray random array d).1 = length array.
Proof.
  unfold shuffleArray. cbv zeta.
  destruct (shuffle_from_Permutation (length array - 1) array d) as [P _].
  split; [exact P|now rewrite P].
Qed.

(** X18: for results of [Math.random] in [0, 1), [shuffleArray] returns a
    rearrangement of its argument (every element as often as before,
    nothing added or lost), and calls [Math.random] once for every element
    but one. *)
Theorem shuffleArray_permutes {A : Type} (array : list A) (d : nat) :
  (forall k, 0 <= random k < 1) ->
  (shuffleArray random array d).1 ≡ₚ array /\
  length (shuffleArray random array d).1 = length array /\
  (shuffleArray random array d).2 = (d + (length array - 1))%nat.
Proof.
  intros _. unfold shuffleArray. cbv zeta.
  destruct (shuffle_from_Permutation (length array - 1) array d) as [P E].
  split; [exact P|]. split; [now rewrite P|exact E].
Qed.

(** *** Hashtags *)

(** X19: for results of [Math.random] in [0, 1) and a positive count,
    [generateHashtags] joins hashtags that are pairwise different and all
    taken from the category's hashtags, the template's extra hashtags and
    (unless branding is switched off) #TDSolutions: as many as asked for,
    or all the different ones when there are fewer.  For a category that
    the library does not have it returns the empty string. *)
Theorem generateHashtags_chooses_from_pool
    (categoryId : string) (t : template) (count : Z) (includeBranding : bool)
    (g : generator) :
  (forall k, 0 <= random k < 1) -> (0 < count)%Z ->
  (get (categories (lib g)) categoryId = Absent ->
     generateHashtags random categoryId t (Some count) includeBranding g
     = Returns (EmptyString, g)) /\
  (forall c, get (categories (lib g)) categoryId = Own c ->
     exists chosen d,
       generateHashtags random categoryId t (Some count) includeBranding g
       = Returns (Text.join " " chosen, with_draws d g) /\
       NoDup chosen /\
       (forall h, h ∈ chosen -> h ∈ hashtag_pool c t includeBranding) /\
       length chosen
       = Nat.min (Z.to_nat count) (length (unique (hashtag_pool c t includeBranding)))).
Proof.
  intros Hr Hc. split.
  - intros H. unfold generateHashtags. now rewrite H.
  - intros c H. unfold generateHashtags, chosen_hashtags. rewrite H. cbv zeta.
    destruct (Z.eqb_spec count 0) as [?|_]; [lia|].
    set (pool := hashtag_pool c t includeBranding).
    destruct (shuffleArray_Permutation (unique pool) (draws g)) as (P & L).
    destruct (shuffleArray random (unique pool) (draws g)) as [shuffled d'] eqn:E.
    cbn [fst snd] in P, L |- *.
    destruct (unique_spec pool) as [N M].
    exists (Text.slice0 count shuffled), d'. split; [reflexivity|].
    unfold Text.slice0. destruct (Z.ltb_spec count 0) as [?|_]; [lia|].
    split; [|split].
    + apply (sublist_NoDup _ shuffled); [now rewrite P|apply sublist_take].
    + intros h Hh. apply M. rewrite <- P. now apply (subseteq_take (Z.to_nat count)).
    + rewrite length_take, L. reflexivity.
Qed.

(** *** The least recently used template *)

Lemma older_plain (g : generator) (oldest current : template) :
  plain (t_id oldest) -> plain (t_id current) ->
  older source_lt g oldest current
  = if Qltb (last_use g current) (last_use g oldest) then current else oldest.
Proof.
  intros Ho Hc. unfold older. cbv zeta. now rewrite !stamp_of_plain.
Qed.

Lemma oldest_first (g : generator) (rest : list template) :
  forall first,
    Forall (fun t => plain (t_id t)) (first :: rest) ->
    exists i t,
      foldl (older source_lt g) first rest = t /\ (first :: rest) !! i = Some t /\
      (forall j u, (first :: rest) !! j = Some u -> last_use g t <= last_use g u) /\
      (forall j u, (j < i)%nat -> (first :: rest) !! j = Some u ->
                   last_use g t < last_use g u).
Proof.
  induction rest as [|x rest IH] using rev_ind; intros first Hall.
  - exists 0%nat, first. split; [reflexivity|]. split; [reflexivity|]. split.
    + intros [|j] u Hu; [injection Hu as <-; apply Qle_refl|discriminate].
    + intros j u Hj. lia.
  - rewrite foldl_app. cbn [foldl].
    rewrite app_comm_cons in Hall. apply Forall_app in Hall as [Hall Hx].
    rewrite Forall_singleton in Hx.
    destruct (IH first Hall) as (i & t & E & Hi & Hmin & Hstrict). rewrite E.
    assert (Ht : plain (t_id t)).
    { rewrite Forall_forall in Hall. apply Hall. eapply list_elem_of_lookup_2; eauto. }
    rewrite (older_plain g t x Ht Hx).
    assert (Hlen : (i < length (first :: rest))%nat) by (eapply lookup_lt_Some; eauto).
    destruct (Qltb (last_use g x) (last_use g t)) eqn:C.
    + apply Qltb_lt in C.
      exists (length (first :: rest)), x. split; [reflexivity|].
      rewrite app_comm_cons. split; [now rewrite lookup_app_r, Nat.sub_diag by lia|].
      split.
      * intros j u Hu. apply lookup_app_Some in Hu as [Hu|[_ Hu]].
        -- specialize (Hmin j u Hu). lra.
        -- destruct (j - length (first :: rest))%nat; [|discriminate].
           injection Hu as <-. apply Qle_refl.
      * intros j u Hj Hu. rewrite lookup_app_l in Hu by exact Hj.
        specialize (Hmin j u Hu). lra.
    + assert (C' : last_use g t <= last_use g x).
      { destruct (Qlt_le_dec (last_use g x) (last_use g t)) as [H|H]; [|exact H].
        apply Qltb_lt in H. congruence. }
      exists i, t. split; [reflexivity|].
      rewrite app_comm_cons. split; [now rewrite lookup_app_l by exact Hlen|].
      split.
      * intros j u Hu. apply lookup_app_Some in Hu as [Hu|[_ Hu]]; [eauto|].
        destruct (j - length (first :: rest))%nat; [|discriminate].
        now injection Hu as <-.
      * intros j u Hj Hu. rewrite lookup_app_l in Hu by lia. eauto.
Qed.

(** X20: [selectLeastRecentlyUsed] of an empty list is a type error;
    otherwise it returns the first of the templates whose last use lies
    furthest back, a template that was never used counting as used at
    time 0 (for template identifiers that are no members of
    [Object.prototype]). *)
Theorem selectLeastRecentlyUsed_first_oldest (ts : list template) (g : generator) :
  Forall (fun t => plain (t_id t)) ts ->
  (ts = [] -> selectLeastRecentlyUsed source_lt ts g = Throws TypeError) /\
  (ts <> [] ->
     exists i t,
       selectLeastRecentlyUsed source_lt ts g = Returns t /\ ts !! i = Some t /\
       (forall j u, ts !! j = Some u -> last_use g t <= last_use g u) /\
       (forall j u, (j < i)%nat -> ts !! j = Some u -> last_use g t < last_use g u)).
Proof.
  intros Hall. split; [now intros ->|].
  intros Hne. destruct ts as [|first rest]; [congruence|].
  destruct (oldest_first g rest first Hall) as (i & t & E & Hi & Hmin & Hstrict).
  exists i, t. unfold selectLeastRecentlyUsed. rewrite E. auto.
Qed.

(** *** Marking a template as used *)

(** X21: a template marked as used (with an identifier other than
    __proto__, at a clock reading other than 0) has that reading as its
    time of last use, and whenever it is asked for afterwards, before it is
    marked again, [isTemplateAvailable] answers whether more than the
    cooldown (in days) has passed since then: within the cooldown the
    template is withheld, one millisecond later it is offered again. *)
Theorem marked_template_cools_down (templateId categoryId : string) (g : generator) :
  templateId <> "__proto__" -> ~ clock (reads g) == 0 ->
  let marked := markTemplateUsed clock templateId categoryId g in
  let usedAt := clock (reads g) in
  lastUsed (rotation marked) !! templateId = Some usedAt /\
  forall (cooldownDays : Q) (later : generator),
    rotation later = rotation marked ->
    let now := clock (reads later) in
    (isTemplateAvailable clock templateId cooldownDays later).1
    = Qltb (cooldownDays * 24 * 60 * 60 * 1000) (now - usedAt) /\
    (now - usedAt <= cooldownDays * 24 * 60 * 60 * 1000 ->
     (isTemplateAvailable clock templateId cooldownDays later).1 = false) /\
    (cooldownDays * 24 * 60 * 60 * 1000 < now - usedAt ->
     (isTemplateAvailable clock templateId cooldownDays later).1 = true).
Proof.
  intros Hid Hclock marked usedAt.
  assert (Hl : lastUsed (rotation marked) !! templateId = Some usedAt)
    by (apply set_lookup; exact Hid).
  split; [exact Hl|].
  intros cooldownDays later Hrot now.
  assert (E : (isTemplateAvailable clock templateId cooldownDays later).1
              = Qltb (cooldownDays * 24 * 60 * 60 * 1000) (now - usedAt)).
  { unfold isTemplateAvailable, get. rewrite Hrot, Hl.
    destruct (Qeq_bool usedAt 0) eqn:Z; [apply Qeq_bool_iff in Z; contradiction|].
    reflexivity. }
  split; [exact E|]. rewrite E. split.
  - intros H. apply not_true_is_false. intros T. apply Qltb_lt in T. lra.
  - intros H. now apply Qltb_lt.
Qed.

(** X22: [markTemplateUsed] appends the use to the history and keeps the
    last 100 entries: afterwards the history has min(100, n + 1) entries
    for a history of n entries before, it ends with the new entry, and it
    is the end of the old history followed by the new entry. *)
Theorem usage_history_is_capped (templateId categoryId : string) (g : generator) :
  let marked := markTemplateUsed clock templateId categoryId g in
  let before := usageHistory (rotation g) in
  let after := usageHistory (rotation marked) in
  let entry := {| template_id := templateId; u_category := categoryId;
                  timestamp := clock (reads g) |} in
  length after = Nat.min 100 (length before + 1) /\
  last after = Some entry /\
  after = drop (length before + 1 - 100) (before ++ [entry]) /\
  reads marked = S (reads g).
Proof.
  intros marked before after entry.
  unfold after, marked, markTemplateUsed. cbv zeta. cbn [rotation usageHistory reads].
  fold before. fold entry.
  rewrite length_app. cbn [length].
  destruct (Nat.ltb_spec 100 (length before + 1)) as [H|H].
  - split; [rewrite length_drop, length_app; cbn [length]; lia|].
    split; [|split; reflexivity].
    rewrite drop_app_le by lia. apply last_snoc.
  - replace (length before + 1 - 100)%nat with 0%nat by lia. rewrite drop_0.
    split; [rewrite length_app; cbn [length]; lia|].
    split; [apply last_snoc|split; reflexivity].
Qed.

(** *** Selecting a template *)

Lemma filter_available_sublist (cooldownDays : Q) (ts : list template) :
  forall g, sublist (filter_available clock cooldownDays ts g).1 ts.
Proof.
  induction ts as [|t rest IH]; intros g; cbn; [constructor|].
  destruct (isTemplateAvailable clock (t_id t) cooldownDays g) as [available g1].
  specialize (IH g1). destruct (filter_available clock cooldownDays rest g1) as [kept g2].
  cbn in *. destruct available; [now apply sublist_skip|now apply sublist_cons].
Qed.

Lemma foldl_older_elem (g : generator) (rest : list template) :
  forall first, foldl (older source_lt g) first rest ∈ first :: rest.
Proof.
  induction rest as [|x rest IH] using rev_ind; intros first; [apply list_elem_of_here|].
  rewrite foldl_app. cbn [foldl]. unfold older at 1. cbv zeta.
  rewrite app_comm_cons. destruct (stamp_lt _ _ _).
  - apply elem_of_app. right. apply list_elem_of_here.
  - apply elem_of_app. left. apply IH.
Qed.

Lemma selectSequential_elem (categoryId : string) (ts : list template) (g : generator) :
  ts <> [] -> exists t, selectSequential categoryId ts g = Some t /\ t ∈ ts.
Proof.
  intros Hne. unfold selectSequential. cbv zeta.
  destruct ts as [|t0 rest] eqn:E; [congruence|]. rewrite <- E in *.
  set (k := match sort_recent _ with [] => _ | latest :: _ => _ end).
  assert (Hlen : (0 < length ts)%nat) by (rewrite E; cbn; lia).
  destruct (lookup_lt_is_Some_2 ts (Z.to_nat ((k + 1) mod Z.of_nat (length ts))))
    as [t Ht].
  { pose proof (Z.mod_pos_bound (k + 1) (Z.of_nat (length ts)) ltac:(lia)). lia. }
  exists t. split; [exact Ht|]. eapply list_elem_of_lookup_2; eauto.
Qed.

Lemma pick_random_elem {A : Type} (array : list A) (g : generator) :
  (forall k, 0 <= random k < 1) -> array <> [] ->
  exists x, (pick_random random array g).1 = Some x /\ x ∈ array.
Proof.
  intros Hr Hne. unfold pick_random. cbv zeta. cbn [fst].
  set (n := inject_Z (Z.of_nat (length array))).
  assert (Hn : 0 < n).
  { apply SynthFacts.inject_Z_pos. destruct array; [congruence|cbn; lia]. }
  pose proof (Hr (draws g)) as [R0 R1].
  assert (H0 : (0 <= Qfloor (random (draws g) * n))%Z)
    by (apply SynthFacts.Qfloor_nonneg; nra).
  assert (H1 : (Qfloor (random (draws g) * n) < Z.of_nat (length array))%Z).
  { rewrite Zlt_Qlt. eapply Qle_lt_trans; [apply Qfloor_le|]. fold n. nra. }
  destruct (Z.ltb_spec (Qfloor (random (draws g) * n)) 0) as [?|_]; [lia|].
  destruct (lookup_lt_is_Some_2 array (Z.to_nat (Qfloor (random (draws g) * n))))
    as [x Hx]; [lia|].
  exists x. split; [exact Hx|]. eapply list_elem_of_lookup_2; eauto.
Qed.

(** X23: for a category of the library, [selectTemplate] never fails
    (for results of [Math.random] in [0, 1)).  When at least one template
    of the category is out of its cooldown, it returns one of these,
    whatever the strategy; when all of them are in their cooldown, it logs
    a warning and returns the first template of the category all the same
    (nothing for a category without templates). *)
Theorem selectTemplate_respects_cooldown
    (categoryId strategy : string) (g : generator) (c : category) :
  (forall k, 0 <= random k < 1) ->
  get (categories (lib g)) categoryId = Own c ->
  let available :=
    (filter_available clock (cooldownDays_of (lib g)) (templates c) g).1 in
  sublist available (templates c) /\
  (available <> [] ->
     exists t g',
       selectTemplate clock random source_lt categoryId strategy g = Returns (Some t, g') /\
       t ∈ available /\ warnings g' = warnings g) /\
  (available = [] ->
     exists g',
       selectTemplate clock random source_lt categoryId strategy g
       = Returns (head (templates c), g') /\
       warnings g'
       = warnings g ++ ["All templates in category " +:+ categoryId
                        +:+ " are in cooldown. Resetting..."]).
Proof.
  intros Hr Hc available.
  split; [apply filter_available_sublist|].
  assert (Hw : forall ts g0,
             warnings (filter_available clock (cooldownDays_of (lib g)) ts g0).2
             = warnings g0 /\
             lib (filter_available clock (cooldownDays_of (lib g)) ts g0).2 = lib g0).
  { induction ts as [|t rest IH]; intros g0; cbn; [auto|].
    unfold isTemplateAvailable.
    destruct (get (lastUsed (rotation g0)) (t_id t)) as [q|name|];
      [destruct (Qeq_bool q 0)| |];
      match goal with
      | |- context [filter_available _ _ rest ?g1] =>
          specialize (IH g1); destruct (filter_available clock _ rest g1) as [kept g2]
      end; cbn in *; exact IH. }
  unfold selectTemplate, getAvailableTemplates. rewrite Hc.
  specialize (Hw (templates c) g). subst available.
  destruct (filter_available clock (cooldownDays_of (lib g)) (templates c) g)
    as [available g1]. cbn [fst snd] in *. destruct Hw as [Hw Hl].
  cbn [mbind outcome_bind].
  split.
  - intros Hne. destruct available as [|a rest] eqn:E; [congruence|]. rewrite <- E in *.
    destruct (String.eqb strategy "least_recently_used").
    + unfold selectLeastRecentlyUsed. rewrite E. cbn [mbind outcome_bind mret outcome_ret].
      eexists _, _. split; [reflexivity|]. split; [apply foldl_older_elem|exact Hw].
    + destruct (String.eqb strategy "sequential").
      * destruct (selectSequential_elem categoryId available g1 Hne) as (t & Ht & Hin).
        rewrite Ht. eexists _, _. split; [reflexivity|]. split; [exact Hin|exact Hw].
      * destruct (pick_random_elem available g1 Hr Hne) as (t & Ht & Hin).
        destruct (pick_random random available g1) as [picked g2] eqn:P.
        cbn [fst] in Ht. subst picked.
        eexists _, _. split; [reflexivity|]. split; [exact Hin|].
        unfold pick_random in P. injection P as _ <-. exact Hw.
  - intros ->. cbn [lib]. rewrite Hl, Hc.
    eexists. split; [reflexivity|]. cbn. now rewrite Hw.
Qed.

End Environment.

Lemma not_inherited (id : string) :
  bool_decide (id ∈ Avatar.Object_prototype) = false -> plain id.
Proof. intros H Hin. apply bool_decide_eq_false in H. contradiction. Qed.

Lemma shuffleArray_permutes_witness :
  (shuffleArray (fun _ => 1 # 2) [1; 2; 3; 4]%Z 3).1 ≡ₚ [1; 2; 3; 4]%Z /\
  length (shuffleArray (fun _ => 1 # 2) [1; 2; 3; 4]%Z 3).1 = length [1; 2; 3; 4]%Z /\
  (shuffleArray (fun _ => 1 # 2) [1; 2; 3; 4]%Z 3).2
  = (3 + (length [1; 2; 3; 4]%Z - 1))%nat.
Proof.
  apply (shuffleArray_permutes (fun _ => 1 # 2) [1; 2; 3; 4]%Z 3).
  intros _. split; [discriminate|reflexivity].
Defined.

Example shuffle_with_halves :
  shuffleArray (fun _ => 1 # 2) ["a"; "b"; "c"; "d"] 0 = (["a"; "d"; "b"; "c"], 3%nat).
Proof. reflexivity. Qed.

Lemma generateHashtags_chooses_from_pool_witness :
  let tips := {| c_name := "Tips"; templates := [];
                 c_hashtags := ["#AI"; "#Automation"; "#AI"] |} in
  let t := {| t_id := "tip_1"; hook := "h"; body := "b"; cta := "c";
              hashtags_extra := Some ["#Tips"] |} in
  let g := {| lib := {| categories := {[ "tips" := tips ]}; cooldown_days := None |};
              rotation := {| lastUsed := ∅; usageHistory := [] |};
              reads := 0; draws := 0; warnings := [] |} in
  exists chosen d,
    generateHashtags (fun _ => 1 # 2) "tips" t (Some 3%Z) true g
    = Returns (Text.join " " chosen, with_draws d g) /\
    NoDup chosen /\
    (forall h, h ∈ chosen -> h ∈ hashtag_pool tips t true) /\
    length chosen = Nat.min (Z.to_nat 3) (length (unique (hashtag_pool tips t true))).
Proof.
  intros tips t g.
  destruct (generateHashtags_chooses_from_pool (fun _ => 1 # 2) "tips" t 3 true g)
    as [_ H]; [intros _; split; [discriminate|reflexivity]|lia|].
  apply (H tips). reflexivity.
Defined.

Example hashtags_for_a_tip :
  generateHashtags (fun _ => 1 # 2) "tips"
    {| t_id := "tip_1"; hook := "h"; body := "b"; cta := "c";
       hashtags_extra := Some ["#Tips"] |}
    (Some 3%Z) true
    {| lib := {| categories :=
                   {[ "tips" := {| c_name := "Tips"; templates := [];
                                  c_hashtags := ["#AI"; "#Automation"; "#AI"] |} ]};
                 cooldown_days := None |};
       rotation := {| lastUsed := ∅; usageHistory := [] |};
       reads := 0; draws := 0; warnings := [] |}
  = Returns ("#AI #TDSolutions #Automation",
             {| lib := {| categories :=
                            {[ "tips" := {| c_name := "Tips"; templates := [];
                                           c_hashtags := ["#AI"; "#Automation"; "#AI"] |} ]};
                          cooldown_days := None |};
                rotation := {| lastUsed := ∅; usageHistory := [] |};
                reads := 0; draws := 3; warnings := [] |}).
Proof. vm_compute. reflexivity. Qed.

Lemma selectLeastRecentlyUsed_first_oldest_witness :
  let a := {| t_id := "a"; hook := ""; body := ""; cta := ""; hashtags_extra := None |} in
  let b := {| t_id := "b"; hook := ""; body := ""; cta := ""; hashtags_extra := None |} in
  let c := {| t_id := "c"; hook := ""; body := ""; cta := ""; hashtags_extra := None |} in
  let g := {| lib := {| categories := ∅; cooldown_days := None |};
              rotation := {| lastUsed := {[ "a" := 500; "c" := 300 ]};
                             usageHistory := [] |};
              reads := 0; draws := 0; warnings := [] |} in
  exists i t,
    selectLeastRecentlyUsed (fun _ _ => false) [a; b; c] g = Returns t /\
    [a; b; c] !! i = Some t /\
    (forall j u, [a; b; c] !! j = Some u -> last_use g t <= last_use g u) /\
    (forall j u, (j < i)%nat -> [a; b; c] !! j = Some u -> last_use g t < last_use g u).
Proof.
  intros a b c g.
  destruct (selectLeastRecentlyUsed_first_oldest (fun _ _ => false) [a; b; c] g) as [_ H].
  - repeat constructor; apply not_inherited; reflexivity.
  - apply H. discriminate.
Defined.

Example never_used_comes_first :
  selectLeastRecentlyUsed (fun _ _ => false)
    [ {| t_id := "a"; hook := ""; body := ""; cta := ""; hashtags_extra := None |};
      {| t_id := "b"; hook := ""; body := ""; cta := ""; hashtags_extra := None |};
      {| t_id := "c"; hook := ""; body := ""; cta := ""; hashtags_extra := None |} ]
    {| lib := {| categories := ∅; cooldown_days := None |};
       rotation := {| lastUsed := {[ "a" := 500; "c" := 300 ]}; usageHistory := [] |};
       reads := 0; draws := 0; warnings := [] |}
  = Returns {| t_id := "b"; hook := ""; body := ""; cta := ""; hashtags_extra := None |}.
Proof. reflexivity. Qed.

Lemma marked_template_cools_down_witness :
  let g := {| lib := {| categories := ∅; cooldown_days := None |};
              rotation := {| lastUsed := ∅; usageHistory := [] |};
              reads := 5; draws := 0; warnings := [] |} in
  let clock := fun k : nat => 1000 + inject_Z (Z.of_nat k) in
  let marked := markTemplateUsed clock "tip_1" "tips" g in
  let usedAt := clock (reads g) in
  lastUsed (rotation marked) !! "tip_1" = Some usedAt /\
  forall (cooldownDays : Q) (later : generator),
    rotation later = rotation marked ->
    let now := clock (reads later) in
    (isTemplateAvailable clock "tip_1" cooldownDays later).1
    = Qltb (cooldownDays * 24 * 60 * 60 * 1000) (now - usedAt) /\
    (now - usedAt <= cooldownDays * 24 * 60 * 60 * 1000 ->
     (isTemplateAvailable clock "tip_1" cooldownDays later).1 = false) /\
    (cooldownDays * 24 * 60 * 60 * 1000 < now - usedAt ->
     (isTemplateAvailable clock "tip_1" cooldownDays later).1 = true).
Proof.
  intros g clock.
  apply (marked_template_cools_down clock "tip_1" "tips" g); discriminate.
Defined.

Lemma selectTemplate_respects_cooldown_witness :
  let a := {| t_id := "a"; hook := ""; body := ""; cta := ""; hashtags_extra := None |} in
  let b := {| t_id := "b"; hook := ""; body := ""; cta := ""; hashtags_extra := None |} in
  let tips := {| c_name := "Tips"; templates := [a; b]; c_hashtags := [] |} in
  let g := {| lib := {| categories := {[ "tips" := tips ]}; cooldown_days := Some 7 |};
              rotation := {| lastUsed := {[ "a" := 1000 ]}; usageHistory := [] |};
              reads := 0; draws := 0; warnings := [] |} in
  let clock := fun _ : nat => 2000 in
  let available := (filter_available clock (cooldownDays_of (lib g)) (templates tips) g).1 in
  sublist available (templates tips) /\
  (available <> [] ->
     exists t g',
       selectTemplate clock (fun _ => 1 # 2) (fun _ _ => false) "tips" "sequential" g
       = Returns (Some t, g') /\
       t ∈ available /\ warnings g' = warnings g) /\
  (available = [] ->
     exists g',
       selectTemplate clock (fun _ => 1 # 2) (fun _ _ => false) "tips" "sequential" g
       = Returns (head (templates tips), g') /\
       warnings g'
       = warnings g ++ ["All templates in category " +:+ "tips"
                        +:+ " are in cooldown. Resetting..."]).
Proof.
  intros a b tips g clock.
  apply (selectTemplate_respects_cooldown clock (fun _ => 1 # 2) (fun _ _ => false)
           "tips" "sequential" g tips).
  - intros _. split; [discriminate|reflexivity].
  - reflexivity.
Defined.

Example all_templates_cooling_down :
  let a := {| t_id := "a"; hook := ""; body := ""; cta := ""; hashtags_extra := None |} in
  let g := {| lib := {| categories :=
                          {[ "tips" := {| c_name := "Tips"; templates := [a];
                                         c_hashtags := [] |} ]};
                        cooldown_days := Some 7 |};
              rotation := {| lastUsed := {[ "a" := 1000 ]}; usageHistory := [] |};
              reads := 0; draws := 0; warnings := [] |} in
  fst <$> selectTemplate (fun _ => 2000) (fun _ => 1 # 2) (fun _ _ => false)
            "tips" "random" g
  = Returns (Some a).
Proof. reflexivity. Qed.

End RotationFacts.
(** ** Voices and headroom of a track *)

Module VoiceFacts.
Import Synth Waves SynthFacts BytesFacts WavesFacts.



Section Voices.
Variable PI : Q.
Variable random : nat -> Q.


End Voices.


End VoiceFacts.

(** ** The sequential strategy *)

Module SequentialFacts.
Import Objects Rotation BytesFacts.

Lemma insert_recent_head (h : usage) (sorted : list usage) :
  head (insert_recent h sorted)
  = match head sorted with
    | Some x => if Qle_bool (timestamp x) (timestamp h) then Some h else Some x
    | None => Some h
    end.
Proof.
  destruct sorted as [|x rest]; [reflexivity|]. cbn.
  now destruct (Qle_bool (timestamp x) (timestamp h)).
Qed.

(** The first of the latest entries of a history. *)
Lemma sort_recent_head (history : list usage) :
  history <> [] ->
  exists i h,
    head (sort_recent history) = Some h /\ history !! i = Some h /\
    (forall j x, history !! j = Some x -> timestamp x <= timestamp h) /\
    (forall j x, (j < i)%nat -> history !! j = Some x -> timestamp x < timestamp h).
Proof.
  induction history as [|a rest IH]; [congruence|]. intros _.
  unfold sort_recent. cbn [foldr]. fold (sort_recent rest).
  rewrite insert_recent_head.
  destruct rest as [|b rest'].
  - exists 0%nat, a. split; [reflexivity|]. split; [reflexivity|]. split.
    + intros [|j] x Hx; [injection Hx as <-; apply Qle_refl|discriminate].
    + intros j x Hj. lia.
  - destruct (IH ltac:(discriminate)) as (i & h & Hh & Hi & Hmax & Hfirst).
    rewrite Hh. destruct (Qle_bool (timestamp h) (timestamp a)) eqn:C.
    + apply Qle_bool_iff in C.
      exists 0%nat, a. split; [reflexivity|]. split; [reflexivity|]. split.
      * intros [|j] x Hx; [injection Hx as <-; apply Qle_refl|].
        cbn in Hx. specialize (Hmax j x Hx). lra.
      * intros j x Hj. lia.
    + assert (C' : timestamp a < timestamp h).
      { destruct (Qlt_le_dec (timestamp a) (timestamp h)) as [H|H]; [exact H|].
        apply Qle_bool_iff in H. congruence. }
      exists (S i), h. split; [reflexivity|]. split; [exact Hi|]. split.
      * intros [|j] x Hx; [injection Hx as <-; lra|]. cbn in Hx. eauto.
      * intros [|j] x Hj Hx; [injection Hx as <-; exact C'|].
        cbn in Hx. apply (Hfirst j x); [lia|exact Hx].
Qed.

Lemma first_latest_unique (history : list usage) (i i' : nat) (h h' : usage) :
  history !! i = Some h -> history !! i' = Some h' ->
  (forall j x, history !! j = Some x -> timestamp x <= timestamp h) ->
  (forall j x, (j < i)%nat -> history !! j = Some x -> timestamp x < timestamp h) ->
  (forall j x, history !! j = Some x -> timestamp x <= timestamp h') ->
  (forall j x, (j < i')%nat -> history !! j = Some x -> timestamp x < timestamp h') ->
  h = h'.
Proof.
  intros Hi Hi' Hmax Hfirst Hmax' Hfirst'.
  destruct (lt_eq_lt_dec i i') as [[L|E]|L].
  - pose proof (Hfirst' i h L Hi). pose proof (Hmax i' h' Hi'). lra.
  - subst. congruence.
  - pose proof (Hfirst i' h' L Hi'). pose proof (Hmax' i h Hi). lra.
Qed.

(** X26: [selectSequential] returns the template that follows, in the
    list it is given, the template of the latest use of the category,
    starting again at the first template after the last one; it returns
    the first template when the category was never used or its latest
    template is not in the list.  Of several uses with the same latest
    time stamp the earliest in the history counts. *)
Theorem selectSequential_follows_latest
    (categoryId : string) (ts : list template) (g : generator) :
  ts <> [] ->
  let uses := filter (fun h => u_category h = categoryId) (usageHistory (rotation g)) in
  (uses = [] -> selectSequential categoryId ts g = ts !! 0%nat) /\
  (forall (i : nat) (latest : usage),
     uses !! i = Some latest ->
     (forall j x, uses !! j = Some x -> timestamp x <= timestamp latest) ->
     (forall j x, (j < i)%nat -> uses !! j = Some x -> timestamp x < timestamp latest) ->
     (forall k, findIndex (template_id latest) ts = Z.of_nat k ->
        selectSequential categoryId ts g = ts !! ((k + 1) mod length ts)%nat) /\
     (findIndex (template_id latest) ts = (-1)%Z ->
        selectSequential categoryId ts g = ts !! 0%nat)).
Proof.
  intros Hne uses.
  assert (Hlen : (0 < length ts)%nat) by (destruct ts; [congruence|cbn; lia]).
  assert (Hsel : forall index : Z,
             match ts with
             | [] => None
             | _ => ts !! Z.to_nat ((index + 1) mod Z.of_nat (length ts))
             end = ts !! Z.to_nat ((index + 1) mod Z.of_nat (length ts))).
  { intros index. destruct ts; [congruence|reflexivity]. }
  split.
  - intros Hu. unfold selectSequential. cbv zeta. fold uses. rewrite Hu. cbn [sort_recent foldr].
    rewrite Hsel. reflexivity.
  - intros i latest Hi Hmax Hfirst.
    assert (Hhead : head (sort_recent uses) = Some latest).
    { destruct (sort_recent_head uses) as (i' & h' & Hh & Hi' & Hmax' & Hfirst').
      { intros E. rewrite E in Hi. discriminate. }
      rewrite Hh. f_equal. symmetry.
      exact (first_latest_unique uses i i' latest h' Hi Hi' Hmax Hfirst Hmax' Hfirst'). }
    assert (Hstep : selectSequential categoryId ts g
                    = ts !! Z.to_nat ((findIndex (template_id latest) ts + 1)
                                      mod Z.of_nat (length ts))).
    { unfold selectSequential. cbv zeta. fold uses.
      destruct (sort_recent uses) as [|first rest]; [discriminate|].
      injection Hhead as ->. apply Hsel. }
    split.
    + intros k Hk. rewrite Hstep, Hk. f_equal.
      rewrite <- (Nat2Z.id ((k + 1) mod length ts)). f_equal.
      rewrite Nat2Z.inj_mod. f_equal. lia.
    + intros Hk. rewrite Hstep, Hk. f_equal.
Qed.

Lemma selectSequential_follows_latest_witness :
  let a := {| t_id := "a"; hook := ""; body := ""; cta := ""; hashtags_extra := None |} in
  let b := {| t_id := "b"; hook := ""; body := ""; cta := ""; hashtags_extra := None |} in
  let g := {| lib := {| categories := ∅; cooldown_days := None |};
              rotation := {| lastUsed := ∅;
                             usageHistory :=
                               [ {| template_id := "a"; u_category := "tips";
                                    timestamp := 10 |};
                                 {| template_id := "b"; u_category := "tips";
                                    timestamp := 20 |};
                                 {| template_id := "a"; u_category := "news";
                                    timestamp := 30 |} ] |};
              reads := 0; draws := 0; warnings := [] |} in
  let uses := filter (fun h => u_category h = "tips") (usageHistory (rotation g)) in
  (uses = [] -> selectSequential "tips" [a; b] g = [a; b] !! 0%nat) /\
  (forall (i : nat) (latest : usage),
     uses !! i = Some latest ->
     (forall j x, uses !! j = Some x -> timestamp x <= timestamp latest) ->
     (forall j x, (j < i)%nat -> uses !! j = Some x -> timestamp x < timestamp latest) ->
     (forall k, findIndex (template_id latest) [a; b] = Z.of_nat k ->
        selectSequential "tips" [a; b] g = [a; b] !! ((k + 1) mod length [a; b])%nat) /\
     (findIndex (template_id latest) [a; b] = (-1)%Z ->
        selectSequential "tips" [a; b] g = [a; b] !! 0%nat)).
Proof.
  intros a b g.
  apply (selectSequential_follows_latest "tips" [a; b] g). discriminate.
Defined.

Example sequential_wraps_around :
  let a := {| t_id := "a"; hook := ""; body := ""; cta := ""; hashtags_extra := None |} in
  let b := {| t_id := "b"; hook := ""; body := ""; cta := ""; hashtags_extra := None |} in
  let used := fun history =>
    {| lib := {| categories := ∅; cooldown_days := None |};
       rotation := {| lastUsed := ∅; usageHistory := history |};
       reads := 0; draws := 0; warnings := [] |} in
  selectSequential "tips" [a; b] (used []) = Some a /\
  selectSequential "tips" [a; b]
    (used [ {| template_id := "a"; u_category := "tips"; timestamp := 10 |} ]) = Some b /\
  selectSequential "tips" [a; b]
    (used [ {| template_id := "a"; u_category := "tips"; timestamp := 10 |};
            {| template_id := "b"; u_category := "tips"; timestamp := 20 |} ]) = Some a /\
  selectSequential "tips" [a; b]
    (used [ {| template_id := "a"; u_category := "tips"; timestamp := 10 |};
            {| template_id := "b"; u_category := "tips"; timestamp := 10 |} ]) = Some b.
Proof. repeat split. Qed.

End SequentialFacts.
(** ** Regenerating listed videos *)

Module SamplesFacts.
Import Samples.

Lemma lookup_delete_at {A : Type} (l : list A) :
  forall i, delete i l !! i = l !! S i.
Proof. induction l as [|x l IH]; intros [|i]; try reflexivity. cbn. apply IH. Qed.

Section Run.
Variable data_path : string -> string.

(** X27: when the video to generate is already listed at index k, the
    sample generator removes its entry from the list and then unlinks the
    file named by the entry that followed it (the one now at index k), not
    the file of the removed entry: no file is unlinked when the removed
    entry was the last one, and the removed entry's own file stays unless
    the following entry names the same path. *)
Theorem replace_existing_unlinks_the_next_entry (id : string) (r : run) (k : nat) :
  findIndex id (videos (current r)) = Some k ->
  let after := replace_existing data_path id r in
  videos (current after) = delete k (videos (current r)) /\
  files after
  = match videos (current r) !! S k ≫= m_filename with
    | Some name => if String.eqb name "" then files r else files r ∖ {[ data_path name ]}
    | None => files r
    end /\
  (videos (current r) !! S k = None -> files after = files r) /\
  (forall old next,
     videos (current r) !! k ≫= m_filename = Some old ->
     videos (current r) !! S k ≫= m_filename = Some next ->
     data_path next <> data_path old ->
     data_path old ∈ files r -> data_path old ∈ files after) /\
  (forall next,
     videos (current r) !! S k ≫= m_filename = Some next -> next <> EmptyString ->
     data_path next ∉ files after).
Proof.
  intros Hk after. unfold after, replace_existing. rewrite Hk. cbv zeta.
  cbn [current videos files]. rewrite lookup_delete_at.
  split; [reflexivity|]. split; [reflexivity|]. split; [|split].
  - intros ->. reflexivity.
  - intros old next _ Hnext Hne Hin. rewrite Hnext.
    destruct (String.eqb next ""); [exact Hin|].
    apply elem_of_difference. split; [exact Hin|].
    rewrite elem_of_singleton. congruence.
  - intros next Hnext Hne. rewrite Hnext.
    destruct (String.eqb_spec next ""); [contradiction|].
    rewrite elem_of_difference, elem_of_singleton. tauto.
Qed.

End Run.

Lemma replace_existing_unlinks_the_next_entry_witness :
  let r := {| current :=
                {| videos := [ {| m_id := "a"; m_filename := Some "a.mp4" |};
                               {| m_id := "b"; m_filename := Some "b.mp4" |} ];
                   totalGenerated := 2; totalDownloaded := 0; generationHistory := [] |};
              files := {[ "a.mp4"; "b.mp4" ]}; generatedVideos := [] |} in
  let after := replace_existing (fun name => name) "a" r in
  videos (current after) = delete 0%nat (videos (current r)) /\
  files after
  = match videos (current r) !! 1%nat ≫= m_filename with
    | Some name => if String.eqb name "" then files r else files r ∖ {[ name ]}
    | None => files r
    end /\
  (videos (current r) !! 1%nat = None -> files after = files r) /\
  (forall old next,
     videos (current r) !! 0%nat ≫= m_filename = Some old ->
     videos (current r) !! 1%nat ≫= m_filename = Some next ->
     next <> old -> old ∈ files r -> old ∈ files after) /\
  (forall next,
     videos (current r) !! 1%nat ≫= m_filename = Some next -> next <> EmptyString ->
     next ∉ files after).
Proof.
  intros r.
  apply (replace_existing_unlinks_the_next_entry (fun name => name) "a" r 0).
  reflexivity.
Defined.

(** Running the generator on the manifest of an earlier run, with an
    encoder that always succeeds: all three samples are listed again, and
    the file of the first one is gone. *)
Example second_run_loses_the_first_sample :
  let first := generateSampleVideos (fun name => name) (encode (fun name => name)) "2025-01-01"
                 empty_manifest ∅ in
  let second := generateSampleVideos (fun name => name) (encode (fun name => name)) "2025-01-02"
                  (current first.1) (files first.1) in
  files first.1 = {[ "sample-001.mp4"; "sample-002.mp4"; "sample-003.mp4" ]} /\
  m_id <$> videos (current second.1) = SAMPLE_VIDEOS /\
  files second.1 = {[ "sample-002.mp4"; "sample-003.mp4" ]}.
Proof. vm_compute. repeat split. Qed.

End SamplesFacts.
(** ** Radii and alpha of what is painted *)

Module GeometryFacts.
Import Text Canvas Batch Geometry.

Lemma safe_run (cs : list cmd) : Forall safe cs -> safe (run cs).
Proof.
  intros H ctx. unfold run. revert ctx.
  induction H as [|c cs Hc _ IH]; intros ctx Hs; cbn; [exact Hs|].
  apply IH, Hc, Hs.
Qed.

Lemma safe_for_each {A : Type} (vs : list A) (body : A -> cmd) :
  (forall v, safe (body v)) -> safe (for_each vs body).
Proof.
  intros H ctx. unfold for_each. revert ctx.
  induction vs as [|v vs IH]; intros ctx Hs; cbn; [exact Hs|].
  apply IH, H, Hs.
Qed.

Lemma safe_with_state (f : gstate -> gstate) :
  (forall g, state_ok g -> state_ok (f g)) -> safe (with_state f).
Proof.
  intros H ctx (S1 & S2 & S3 & S4).
  split; [apply H, S1|]. split; [exact S2|]. split; [exact S3|exact S4].
Qed.

Lemma safe_with_path (f : list segment -> list segment) :
  (forall p, Forall segment_ok p -> Forall segment_ok (f p)) -> safe (with_path f).
Proof.
  intros H ctx (S1 & S2 & S3 & S4).
  split; [exact S1|]. split; [exact S2|]. split; [apply H, S3|exact S4].
Qed.

Lemma safe_append (s : segment) : segment_ok s -> safe (with_path (fun p => p ++ [s])).
Proof.
  intros H. apply safe_with_path. intros p Hp. apply Forall_app. split; [exact Hp|].
  now constructor.
Qed.

Lemma safe_emit_rect (m : mode) (x y w h : Q) : safe (emit m (fun _ => Rect x y w h)).
Proof.
  intros ctx (S1 & S2 & S3 & S4).
  split; [exact S1|]. split; [exact S2|]. split; [exact S3|].
  cbn [drawn emit]. apply Forall_app. split; [exact S4|].
  constructor; [|constructor]. split; [exact I|exact S1].
Qed.

Lemma safe_emit_glyphs (m : mode) (text : string) (x y : Q) :
  safe (emit m (fun _ => Glyphs text x y)).
Proof.
  intros ctx (S1 & S2 & S3 & S4).
  split; [exact S1|]. split; [exact S2|]. split; [exact S3|].
  cbn [drawn emit]. apply Forall_app. split; [exact S4|].
  constructor; [|constructor]. split; [exact I|exact S1].
Qed.

Lemma safe_emit_path (m : mode) : safe (emit m (fun ctx => Path (path ctx))).
Proof.
  intros ctx (S1 & S2 & S3 & S4).
  split; [exact S1|]. split; [exact S2|]. split; [exact S3|].
  cbn [drawn emit]. apply Forall_app. split; [exact S4|].
  constructor; [|constructor]. split; [exact S3|exact S1].
Qed.

Lemma safe_clip_path : safe clip_path.
Proof.
  intros ctx (S1 & S2 & S3 & S4). unfold clip_path, with_state.
  split; [|split; [exact S2|split; [exact S3|exact S4]]].
  destruct S1 as [C A]. split; [|exact A]. cbn. now constructor.
Qed.

Lemma safe_save : safe save.
Proof.
  intros ctx (S1 & S2 & S3 & S4). split; [exact S1|]. split; [|split; assumption].
  cbn. now constructor.
Qed.

Lemma safe_restore : safe restore.
Proof.
  intros ctx (S1 & S2 & S3 & S4). unfold restore.
  destruct (stack ctx) as [|g rest] eqn:E.
  - split; [exact S1|]. split; [now rewrite E|]. split; [exact S3|exact S4].
  - apply Forall_cons_1 in S2 as [Sg Sr].
    split; [exact Sg|]. split; [exact Sr|]. split; [exact S3|exact S4].
Qed.

Lemma safe_set_globalAlpha (a : Q) : (2 # 10) <= a <= 1 -> safe (set_globalAlpha a).
Proof.
  intros Ha. apply safe_with_state. intros g [C A].
  destruct (Qle_bool 0 a && Qle_bool a 1); [|split; assumption].
  split; [exact C|exact Ha].
Qed.

Lemma safe_clearRect (x y w h : Q) : safe (clearRect x y w h).
Proof.
  intros ctx Hs. unfold clearRect.
  destruct (_ && _).
  - destruct Hs as (S1 & S2 & S3 & S4).
    split; [exact S1|]. split; [exact S2|]. split; [exact S3|constructor].
  - apply safe_emit_rect. revert Hs. apply safe_with_state. intros g Hg. exact Hg.
Qed.

Ltac safe_step :=
  first
    [ apply safe_run; repeat apply Forall_cons_2; try apply Forall_nil_2
    | apply safe_for_each; intros ?
    | apply safe_emit_rect
    | apply safe_emit_glyphs
    | apply safe_emit_path
    | apply safe_clip_path
    | apply safe_save
    | apply safe_restore
    | apply safe_clearRect
    | (apply safe_with_state; intros ? ?; assumption)
    | (apply safe_with_path; intros ? ?; constructor)
    | (apply safe_append; exact I) ].

Section Rendering.
Variable sin : Q -> Q.
Variable PI : Q.
Variable measureText : string -> string -> Q.
Hypothesis sin_range : forall x, -1 <= sin x <= 1.

Lemma safe_drawBackground (w h : Z) (b : background) (progress : Q) :
  safe (drawBackground sin PI w h b progress).
Proof.
  destruct b; unfold drawBackground; cbv zeta;
    unfold set_fillStyle, set_strokeStyle, set_lineWidth, fillRect, strokeRect,
           beginPath, moveTo, lineTo, stroke, fill, arc;
    repeat safe_step.
  - apply safe_set_globalAlpha.
    match goal with |- context [sin ?x] => pose proof (sin_range x) end. lra.
  - apply safe_append. cbn.
    match goal with |- context [sin ?x] => pose proof (sin_range x) end. lra.
  - apply safe_set_globalAlpha. lra.
Qed.

Lemma safe_drawAvatar (x y size n : Q) : 0 <= size -> safe (drawAvatar sin PI x y size n).
Proof.
  intros Hsize. unfold drawAvatar. cbv zeta.
  unfold set_fillStyle, set_strokeStyle, set_lineWidth, fillRect, beginPath, stroke,
         fill, arc, ellipse.
  pose proof (sin_range (n * (3 # 10))). pose proof (sin_range (n * (15 # 100))).
  assert (Hhalf : 0 <= size / 2) by (apply Qle_shift_div_l; lra).
  set (half := size / 2) in *.
  repeat safe_step.
  - apply safe_append. unfold segment_ok. lra.
  - apply safe_append. unfold segment_ok. lra.
  - apply safe_append. unfold segment_ok. lra.
  - apply safe_append. unfold segment_ok. split; [lra|].
    assert (0 <= size * (8 # 100) * (sin (n * (3 # 10)) * (1 # 2) + (1 # 2))).
    { apply Qmult_le_0_compat; lra. }
    lra.
  - apply safe_append. unfold segment_ok. lra.
Qed.

Lemma safe_drawCaption (caption : string) (n T : Q) (w h : Z) :
  safe (drawCaption measureText caption n T w h).
Proof.
  intros ctx Hs. unfold drawCaption. cbv zeta.
  match goal with |- context [imap pair ?l] => generalize (imap pair l) end.
  intros lines.
  match goal with |- sound (run ?cs (run ?cs0 ctx)) =>
    assert (H0 : sound (run cs0 ctx)); [|revert H0; generalize (run cs0 ctx); intros c0 H0]
  end.
  - revert Hs. unfold set_font, set_textAlign. repeat safe_step.
  - revert H0. unfold set_lineWidth, set_strokeStyle, set_lineJoin, set_fillStyle,
                      strokeText, fillText.
    apply safe_run. repeat apply Forall_cons_2; try apply Forall_nil_2;
      try (apply safe_with_state; intros ? ?; assumption);
      apply safe_for_each; intros [i line]; apply safe_emit_glyphs.
Qed.

Lemma safe_draw_frame (config : videoConfig) (k : nat) :
  safe (draw_frame sin PI measureText config k).
Proof.
  unfold draw_frame. cbv zeta. apply safe_run.
  repeat apply Forall_cons_2; try apply Forall_nil_2.
  - apply safe_clearRect.
  - apply safe_drawBackground.
  - apply safe_drawCaption.
  - apply safe_drawAvatar. lra.
Qed.

Lemma frame_loop_sound (config : videoConfig) (numbers : list nat) :
  forall acc, sound acc.1 -> Forall (Forall painted_ok) acc.2 ->
    Forall (Forall painted_ok)
           (foldl (save_frame sin PI measureText config) acc numbers).2.
Proof.
  induction numbers as [|k rest IH]; intros acc Hs Hf; [exact Hf|].
  cbn [foldl]. apply IH.
  - cbn. now apply safe_draw_frame.
  - cbn. apply Forall_app. split; [exact Hf|]. constructor; [|constructor].
    now apply safe_draw_frame.
Qed.

(** X28: when [Math.sin] stays within [-1, 1], every frame that
    [generateVideo] saves is made of shapes the canvas accepts: no circle or
    ellipse, painted or used for clipping, has a negative radius (so [arc]
    and [ellipse] never raise an index-size error), and everything is
    painted with an alpha between 0.2 and 1. *)
Theorem frames_are_paintable (env : environment) (config : videoConfig) :
  Forall (Forall painted_ok) (frames (generateVideo sin PI measureText env config)).
Proof.
  unfold generateVideo.
  pose proof (frame_loop_sound config (frame_numbers (totalFrames_of config))
                (createCanvas width height, [])) as H.
  unfold frame_loop.
  destruct (foldl _ _ _) as [ctx saved]. cbn [frames]. apply H.
  - repeat split; try constructor; cbn; lra.
  - constructor.
Qed.

End Rendering.

Lemma frames_are_paintable_witness :
  Forall (Forall painted_ok)
         (frames (generateVideo (fun _ => 0) 3 (fun _ _ => 10)
                    {| now := fun _ => "t"; stat_size := 0 |}
                    {| id := "v"; title := "t"; caption := "a b"; bg := TechGrid;
                       duration := 1 # 30 |})).
Proof.
  apply (frames_are_paintable (fun _ => 0) 3 (fun _ _ => 10)).
  intros _. split; discriminate.
Defined.

End GeometryFacts.
(** ** Sound waves die out *)

Module FadingFacts.
Import Avatar Session Fading AvatarFacts BytesFacts SessionFacts.

Section Frames.
Variable sin : Q -> Q.
Variable PI : Q.
Variable random : nat -> Q.

Lemma update_quiet (deltaTime : Q) (a : avatar) :
  steady a -> quiet a ->
  exists a', update sin PI random deltaTime a = Returns a' /\ steady a' /\ quiet a' /\
             soundWaves a'
             = filter (fun w => Qltb 0 (opacity w) = true) (grow deltaTime <$> soundWaves a).
Proof.
  intros Hs [Ht Hk].
  pose proof Hs as (Hlen & Hcfg & Hw).
  assert (Hps : exists ps,
             update_particles sin (stateConfig a) (radius a) (time a + deltaTime) (particles a)
             = Returns ps /\ length ps = 35%nat).
  { unfold update_particles. destruct (stateConfig a) as [c|name] eqn:E.
    - specialize (Hcfg c eq_refl). rewrite Hlen.
      destruct (Nat.leb_spec (particleCount c) 35); [|lia].
      eexists. split; [reflexivity|]. now rewrite length_imap.
    - eexists. split; [reflexivity|exact Hlen]. }
  destruct Hps as (ps & Hps & Hpl).
  unfold update. cbv zeta. rewrite Hps, Ht, Hk. cbn [mbind outcome_bind].
  eexists. split; [reflexivity|]. split; [|split; [split; assumption|reflexivity]].
  split; [exact Hpl|]. split; [exact Hcfg|]. apply visible_waves.
Qed.

Lemma frames_fade (deltas : list Q) :
  forall (a : avatar) (level : Q),
    steady a -> quiet a -> Forall (fun d => 0 <= d) deltas ->
    Forall (fun w => opacity w <= level) (soundWaves a) ->
    exists a', run_calls sin PI random (Tick <$> deltas) a = Returns a' /\
               Forall (fun w => 0 < opacity w <= level - fade_rate * elapsed deltas)
                      (soundWaves a').
Proof.
  unfold run_calls.
  induction deltas as [|d rest IH]; intros a level Hs Hq Hd Hl.
  - exists a. split; [reflexivity|]. destruct Hs as (_ & _ & Hw).
    apply Forall_forall. intros w Hin. rewrite Forall_forall in Hw, Hl.
    specialize (Hw w Hin). specialize (Hl w Hin). unfold elapsed, fade_rate. cbn. lra.
  - apply Forall_cons_1 in Hd as [Hd0 Hd].
    destruct (update_quiet d a Hs Hq) as (a1 & E & Hs1 & Hq1 & Hw1).
    rewrite fmap_cons. cbn [foldl mbind outcome_bind perform]. rewrite E.
    destruct (IH a1 (level - fade_rate * d) Hs1 Hq1 Hd) as (a' & E' & Hfin).
    { rewrite Hw1. apply Forall_forall. intros w Hin.
      apply list_elem_of_filter in Hin as [_ Hin].
      apply list_elem_of_fmap in Hin as (v & -> & Hv).
      rewrite Forall_forall in Hl. specialize (Hl v Hv).
      unfold fade_rate. cbn. lra. }
    exists a'. split; [exact E'|].
    eapply Forall_impl; [exact Hfin|]. intros w Hw. cbv beta in *.
    unfold elapsed in *. cbn [foldr]. lra.
Qed.

(** X29: once the avatar spawns no more waves (it is not talking and has
    no energy spikes), the sound waves it still holds die out: after frames
    that take 834 ms or more altogether, time never running backwards, no
    sound wave is left, whatever the frame rate. *)
Theorem sound_waves_die_out (deltas : list Q) (a : avatar) :
  steady a -> faded a -> quiet a ->
  Forall (fun d => 0 <= d) deltas -> 834 <= elapsed deltas ->
  exists a', run_calls sin PI random (Tick <$> deltas) a = Returns a' /\
             soundWaves a' = [].
Proof.
  intros Hs Hf Hq Hd He.
  destruct (frames_fade deltas a 1 Hs Hq Hd Hf) as (a' & E & Hfin).
  exists a'. split; [exact E|].
  destruct (soundWaves a') as [|w rest]; [reflexivity|].
  apply Forall_cons_1 in Hfin as [[H0 H1] _].
  unfold fade_rate in H1. lra.
Qed.

End Frames.

Lemma sound_waves_die_out_witness :
  exists a',
    run_calls (fun _ => 0) 3 (fun _ => 1 # 2) (Tick <$> [400; 400; 34])
      {| currentState := "idle"; stateConfig := Config idle; pulsePhase := Some 0;
         rotationAngle := Some 0; time := 0;
         particles := initParticles 3 (fun _ => 1 # 2) 0;
         soundWaves := [ {| w_radius := 40; opacity := 1; expansionRate := 2;
                            isSpike := false |} ];
         radius := 40; draws := 140; console := [] |} = Returns a' /\
    soundWaves a' = [].
Proof.
  apply (sound_waves_die_out (fun _ => 0) 3 (fun _ => 1 # 2) [400; 400; 34]).
  - split; [reflexivity|]. split; [|repeat constructor].
    intros c H. injection H as <-. cbn. lia.
  - repeat constructor. discriminate.
  - split; reflexivity.
  - repeat constructor; discriminate.
  - discriminate.
Defined.

End FadingFacts.

(** ** Categories that the library does not have *)

Module CategoryFacts.
Import Objects Rotation.

Section Environment.
Variable clock : nat -> Q.
Variable random : nat -> Q.
Variable source_lt : string -> string -> bool.

(** X30: for a category name that the library does not have,
    [getAvailableTemplates] returns no template, [selectTemplate] logs the
    cooldown warning and returns nothing, and [generateHashtags] returns
    the empty string; but for a name that every object inherits
    (constructor, toString, ...) and the library does not define, the
    three of them fail with a type error instead. *)
Theorem categories_not_in_the_library
    (categoryId strategy : string) (t : template) (count : option Z)
    (includeBranding : bool) (g : generator) :
  categories (lib g) !! categoryId = None ->
  (categoryId ∉ Avatar.Object_prototype ->
     getAvailableTemplates clock categoryId g = Returns ([], g) /\
     (exists g', selectTemplate clock random source_lt categoryId strategy g
                 = Returns (None, g') /\
                 warnings g' = warnings g ++ ["All templates in category " +:+ categoryId
                                              +:+ " are in cooldown. Resetting..."]) /\
     generateHashtags random categoryId t count includeBranding g
     = Returns (EmptyString, g)) /\
  (categoryId ∈ Avatar.Object_prototype ->
     getAvailableTemplates clock categoryId g = Throws TypeError /\
     selectTemplate clock random source_lt categoryId strategy g = Throws TypeError /\
     generateHashtags random categoryId t count includeBranding g = Throws TypeError).
Proof.
  intros Hnone. split.
  - intros Hp.
    assert (E : get (categories (lib g)) categoryId = Absent).
    { unfold get. rewrite Hnone. now rewrite bool_decide_eq_false_2. }
    unfold selectTemplate, getAvailableTemplates, generateHashtags. rewrite E.
    split; [reflexivity|]. split; [|reflexivity].
    cbn [mbind outcome_bind lib]. rewrite E. eexists. split; reflexivity.
  - intros Hp.
    assert (E : get (categories (lib g)) categoryId = FromPrototype categoryId).
    { unfold get. rewrite Hnone. now rewrite bool_decide_eq_true_2. }
    unfold selectTemplate, getAvailableTemplates, generateHashtags. rewrite E.
    repeat split.
Qed.

End Environment.

Lemma categories_not_in_the_library_witness :
  let t := {| t_id := "a"; hook := ""; body := ""; cta := ""; hashtags_extra := None |} in
  let g := {| lib := {| categories := ∅; cooldown_days := None |};
              rotation := {| lastUsed := ∅; usageHistory := [] |};
              reads := 0; draws := 0; warnings := [] |} in
  getAvailableTemplates (fun _ => 0) "toString" g = Throws TypeError /\
  selectTemplate (fun _ => 0) (fun _ => 0) (fun _ _ => false) "toString" "random" g
  = Throws TypeError /\
  generateHashtags (fun _ => 0) "toString" t None true g = Throws TypeError.
Proof.
  intros t g.
  destruct (categories_not_in_the_library (fun _ => 0) (fun _ => 0) (fun _ _ => false)
              "toString" "random" t None true g) as [_ H]; [reflexivity|].
  apply H. apply (bool_decide_eq_true_1 ("toString" ∈ Avatar.Object_prototype)). reflexivity.
Defined.

End CategoryFacts.
